(** * convert: conversion of units (src/convert.cpp)

    A shallow embedding of the unit graph of [convert.cpp] and of its
    depth first search, followed by the properties of the graph builder
    ([add_node], [add_edge]) and of the path converter ([convert],
    [connect]).

    Representation.
    - A C [double] is a binary64 primitive float; [==], [*] and [/] are
      the IEEE 754 operations of [PrimFloat].  Where a rounding error is
      measured, a double is read as the real number it stands for
      ([F2R]).
    - A C string is a [string]; [strcmp(a,b) == 0] is [String.eqb a b].
    - The linked list [unit_list] is a [list node] whose head is the node
      [unit_list] points to; the [next] field of a node is the tail of
      the list that starts at that node.
    - A [struct node *] is the number of nodes that were allocated before
      the node it points to, that is, the length of the list that follows
      the node in [unit_list].  [add_node] only ever pushes in front, so
      this number never changes during the life of a node.  [NULL] is
      [None].
    - The linked list [adj_list] of a node is a [list edge], head first.
    - A pointer that points to no node of the list is never made by the
      builder ([load_initial_in_order]); for such a pointer [visited_at]
      is [false], [adj_at] is empty and an assignment does nothing, and
      the properties below assume there is none ([well_formed]).
    - [exit(EXIT_FAILURE)] is the outcome [Exit], tagged with the message
      written to [cerr] just before.
    - [main] comes twice: on the records of the definition file
      ([main]), which is what the graph code sees, and on the characters
      of the file ([main_text]), with the reading loop and the C library
      calls it makes.  Finding and opening the definition file, [atof]
      on the value and the format of the output are not modelled. *)

From Stdlib Require Import ZArith Reals Lra.
From Stdlib Require Import Floats String List Bool Arith Lia.
Import ListNotations.
From Stdlib Require Import Ascii.

(** ** Data *)

Definition ptr := nat.

(** [struct edge { struct node *to_node; double factor; int inverse;
    struct edge *next; }] *)
Record edge := mk_edge {
  to_node : ptr;
  factor : float;
  inverse : bool
}.

(** [struct node { char *name; char *long_name; struct edge *adj_list;
    int visited; struct node *next; }] *)
Record node := mk_node {
  name : string;
  long_name : string;
  adj_list : list edge;
  visited : bool
}.

(** The global variables the graph code reads and writes. *)
Record globals := mk_globals {
  unit_list : list node;
  result : float;
  found : bool
}.

(** Static storage is zero initialised, [unit_list] is [NULL]. *)
Definition initial : globals := mk_globals [] 0%float false.

(** The four fatal exits of the graph code, by their message. *)
Inductive failure :=
| ZeroFactor                   (* " Conversion factor from .. to .. is zero" *)
| UnknownUnit (unit : string)  (* " add_edge: unit .. not found ", " convert: unit .. not found " *)
| NoConversionPath             (* " Cannot convert .. to .." *)
| DivisionByZero.              (* " Cannot convert zero value " *)

(** What a call does: it returns, it exits the process, or the model ran
    out of recursion depth (only [connect] can; see [connect_fuel]). *)
Inductive outcome (A : Type) :=
| Return (a : A)
| Exit (e : failure)
| OutOfFuel.

Arguments Return {A} a.
Arguments Exit {A} e.
Arguments OutOfFuel {A}.

(** ** Node pointers *)

(** The node a pointer points to, for [p->field]. *)
Fixpoint deref (l : list node) (p : ptr) : option node :=
  match l with
  | [] => None
  | t :: next => if p =? length next then Some t else deref next p
  end.

(** An assignment to a field of the node [p] points to. *)
Fixpoint update (f : node -> node) (p : ptr) (l : list node) : list node :=
  match l with
  | [] => []
  | t :: next => if p =? length next then f t :: next else t :: update f p next
  end.

Definition visited_at (l : list node) (p : ptr) : bool :=
  match deref l p with Some t => visited t | None => false end.

Definition adj_at (l : list node) (p : ptr) : list edge :=
  match deref l p with Some t => adj_list t | None => [] end.

Definition set_visited (t : node) : node :=
  mk_node (name t) (long_name t) (adj_list t) true.

Definition push_edge (e : edge) (t : node) : node :=
  mk_node (name t) (long_name t) (e :: adj_list t) (visited t).

(** ** The graph builder *)

(** [find_node]: the first node of the list called [nm], or [NULL]. *)
Fixpoint find_node (nm : string) (l : list node) : option ptr :=
  match l with
  | [] => None
  | t :: next => if String.eqb nm (name t) then Some (length next)
                 else find_node nm next
  end.

(** [add_node]; the warning on a unit that is already defined goes to
    [cerr] and changes nothing. *)
Definition add_node (new_name new_long_name : string) (s : globals) : globals :=
  match find_node new_name (unit_list s) with
  | Some _ => s
  | None =>
      mk_globals (mk_node new_name new_long_name [] false :: unit_list s)
                 (result s) (found s)
  end.

(** [add_edge]. *)
Definition add_edge (name1 : string) (fac12 : float) (name2 : string)
    (inversion : bool) (s : globals) : outcome globals :=
  if (fac12 =? 0)%float then Exit ZeroFactor
  else
    match find_node name1 (unit_list s) with
    | None => Exit (UnknownUnit name1)
    | Some n1 =>
        match find_node name2 (unit_list s) with
        | None => Exit (UnknownUnit name2)
        | Some n2 =>
            let l1 := update (push_edge (mk_edge n2 fac12 inversion)) n1 (unit_list s) in
            let back := if negb inversion then (1 / fac12)%float else fac12 in
            let l2 := update (push_edge (mk_edge n1 back inversion)) n2 l1 in
            Return (mk_globals l2 (result s) (found s))
        end
    end.

(** ** The path converter *)

(** The [while ( t )] loop of [connect], with the recursive call as a
    parameter. *)
Fixpoint while_adj (rec : ptr -> float -> globals -> outcome globals)
    (val : float) (t : list edge) (s : globals) : outcome globals :=
  match t with
  | [] => Return s
  | e :: next =>
      if negb (visited_at (unit_list s) (to_node e)) then
        if inverse e then
          if (val =? 0)%float then Exit DivisionByZero
          else
            match rec (to_node e) (factor e / val)%float s with
            | Return s' => while_adj rec val next s'
            | Exit x => Exit x
            | OutOfFuel => OutOfFuel
            end
        else
          match rec (to_node e) (factor e * val)%float s with
          | Return s' => while_adj rec val next s'
          | Exit x => Exit x
          | OutOfFuel => OutOfFuel
          end
      else while_adj rec val next s
  end.

(** The first two statements of [connect]: record the value when the
    destination is reached, then mark the node. *)
Definition enter (n1 n2 : ptr) (val : float) (s : globals) : globals :=
  let s1 := if n1 =? n2 then mk_globals (unit_list s) val true else s in
  mk_globals (update set_visited n1 (unit_list s1)) (result s1) (found s1).

(** [connect]; [fuel] bounds the depth of the recursion. *)
Fixpoint connect (fuel : nat) (n1 n2 : ptr) (val : float) (s : globals)
    : outcome globals :=
  match fuel with
  | 0 => OutOfFuel
  | S k =>
      let s1 := enter n1 n2 val s in
      while_adj (fun m v => connect k m n2 v) val (adj_at (unit_list s1) n1) s1
  end.

(** A recursive call of [connect] marks a node that was not marked, so
    the depth never exceeds the number of nodes by more than one. *)
Definition connect_fuel (s : globals) : nat := S (length (unit_list s)).

(** [convert]: the converted value and the globals it leaves. *)
Definition convert (value : float) (from_unit to_unit : string) (s : globals)
    : outcome (float * globals) :=
  match find_node from_unit (unit_list s) with
  | None => Exit (UnknownUnit from_unit)
  | Some fu =>
      match find_node to_unit (unit_list s) with
      | None => Exit (UnknownUnit to_unit)
      | Some tu =>
          let s0 := mk_globals (unit_list s) (result s) false in
          match connect (connect_fuel s0) fu tu value s0 with
          | Return s' =>
              if negb (found s') then Exit NoConversionPath
              else Return (result s', s')
          | Exit x => Exit x
          | OutOfFuel => OutOfFuel
          end
      end
  end.

(** ** The program *)

(** A line of the definition file after [sscanf]: [node] or [edge]. *)
Inductive record :=
| DefineUnit (shortname longname : string)
| DefineRelation (from_name : string) (convfac : float) (to_name : string)
    (invflag : bool).

(** The reading loop of [main] on the lines that are not comments. *)
Fixpoint load (recs : list record) (s : globals) : outcome globals :=
  match recs with
  | [] => Return s
  | DefineUnit shortname longname :: rest =>
      load rest (add_node shortname longname s)
  | DefineRelation from_name convfac to_name invflag :: rest =>
      match add_edge from_name convfac to_name invflag s with
      | Return s' => load rest s'
      | Exit x => Exit x
      | OutOfFuel => OutOfFuel
      end
  end.

(** The listing loop of [main] ([argc < 4]): the [name] and [long_name]
    of every node, walking [unit_list] along [next]. *)
Definition allowed_units (s : globals) : list (string * string) :=
  map (fun t => (name t, long_name t)) (unit_list s).

(** What a run writes: the listing or the converted value. *)
Inductive output :=
| Listing (units : list (string * string))
| Converted (value : float).

(** [main] after the definition file is open: [request] is [None] when
    [argc < 4]. *)
Definition main (recs : list record) (request : option (float * string * string))
    : outcome output :=
  match load recs initial with
  | Return s =>
      match request with
      | None => Return (Listing (allowed_units s))
      | Some (value, from_unit, to_unit) =>
          match convert value from_unit to_unit s with
          | Return (r, _) => Return (Converted r)
          | Exit x => Exit x
          | OutOfFuel => OutOfFuel
          end
      end
  | Exit x => Exit x
  | OutOfFuel => OutOfFuel
  end.

(** * Notions the properties are stated with

    What follows is not in the source: predicates on the graph, the
    search for the first path the specification speaks of, relations
    that describe the runs of [connect], and a few definition files. *)

(** ** Graph predicates *)

(** Every edge points to a node of the list. *)
Definition well_formed (l : list node) : bool :=
  forallb (fun t => forallb (fun e => to_node e <? length l) (adj_list t)) l.

(** No node is marked. *)
Definition unmarked (l : list node) : bool :=
  forallb (fun t => negb (visited t)) l.

(** No relation is inverted. *)
Definition linear (l : list node) : bool :=
  forallb (fun t => forallb (fun e => negb (inverse e)) (adj_list t)) l.

(** A chain of relations from [a] to [b]. *)
Fixpoint chain (l : list node) (p : list edge) (a b : ptr) : Prop :=
  match p with
  | [] => a = b
  | e :: p' => In e (adj_at l a) /\ chain l p' (to_node e) b
  end.

Definition connected (l : list node) (a b : ptr) : Prop :=
  exists p, chain l p a b.

(** What one relation does to a value, [None] for the fatal division. *)
Definition apply_edge (e : edge) (val : float) : option float :=
  if inverse e then
    if (val =? 0)%float then None else Some (factor e / val)%float
  else Some (factor e * val)%float.

(** The value accumulated along a chain of relations, the divisions not
    guarded. *)
Fixpoint accumulate (val : float) (p : list edge) : float :=
  match p with
  | [] => val
  | e :: p' =>
      accumulate (if inverse e then (factor e / val)%float
                  else (factor e * val)%float) p'
  end.

(** ** The first path of the depth first order

    The specification's first found path, as a search that only looks
    for the path: it keeps the set of the nodes it has entered, takes
    the relations of a node from the head of the list, and stops at the
    first arrival at the destination. *)

Inductive search_result :=
| Hit (p : list edge)
| Miss (seen : list ptr)
| Deeper.

Definition seen_in (seen : list ptr) (p : ptr) : bool :=
  existsb (Nat.eqb p) seen.

Fixpoint search_adj (rec : ptr -> list ptr -> search_result)
    (t : list edge) (seen : list ptr) : search_result :=
  match t with
  | [] => Miss seen
  | e :: next =>
      if seen_in seen (to_node e) then search_adj rec next seen
      else
        match rec (to_node e) seen with
        | Hit p => Hit (e :: p)
        | Miss seen' => search_adj rec next seen'
        | Deeper => Deeper
        end
  end.

Fixpoint search (fuel : nat) (l : list node) (n1 n2 : ptr) (seen : list ptr)
    : search_result :=
  match fuel with
  | 0 => Deeper
  | S k =>
      if n1 =? n2 then Hit []
      else search_adj (fun m sn => search k l m n2 sn) (adj_at l n1) (n1 :: seen)
  end.

Definition first_path (l : list node) (a b : ptr) : option (list edge) :=
  match search (S (length l)) l a b [] with
  | Hit p => Some p
  | _ => None
  end.

(** ** The registered units *)

(** The units a definition file registers, in the order of the file,
    after the units [known]; a second definition of a name is left
    out. *)
Fixpoint registered (recs : list record) (known : list (string * string))
    : list (string * string) :=
  match recs with
  | [] => known
  | DefineUnit shortname longname :: rest =>
      if existsb (fun u => String.eqb shortname (fst u)) known
      then registered rest known
      else registered rest (known ++ [(shortname, longname)])
  | DefineRelation _ _ _ _ :: rest => registered rest known
  end.

(** ** The runs of [connect] *)

(** The runs of [connect] that return.
    [Connect n2 n1 val s s']: the call [connect(n1, n2, val)] started
    with the globals [s] returns and leaves [s'].  [Loop] is the same for
    the loop over what is left of the adjacency list. *)
Inductive Connect (n2 : ptr) : ptr -> float -> globals -> globals -> Prop :=
| Connect_enter n1 val s s' :
    Loop n2 val (adj_at (unit_list (enter n1 n2 val s)) n1)
         (enter n1 n2 val s) s' ->
    Connect n2 n1 val s s'
with Loop (n2 : ptr) : float -> list edge -> globals -> globals -> Prop :=
| Loop_end val s : Loop n2 val [] s s
| Loop_skip val e t s s' :
    visited_at (unit_list s) (to_node e) = true ->
    Loop n2 val t s s' ->
    Loop n2 val (e :: t) s s'
| Loop_call val e t s v s1 s' :
    visited_at (unit_list s) (to_node e) = false ->
    apply_edge e val = Some v ->
    Connect n2 (to_node e) v s s1 ->
    Loop n2 val t s1 s' ->
    Loop n2 val (e :: t) s s'.

Scheme Connect_Loop := Minimality for Connect Sort Prop
  with Loop_Connect := Minimality for Loop Sort Prop.

Combined Scheme Connect_Loop_ind from Connect_Loop, Loop_Connect.

(** Where the loop of [connect] gets to.

    [within n2 k val t s k' val' t' s']: while the loop
    [while_adj (connect k) val t] runs from the globals [s], control
    comes to the head of the loop of some call of [connect], nested or
    not, with [t'] left of its adjacency list, the value [val'] and the
    globals [s']. *)
Inductive within (n2 : ptr)
  : nat -> float -> list edge -> globals ->
    nat -> float -> list edge -> globals -> Prop :=
| within_here k val t s : within n2 k val t s k val t s
| within_skip k val e t s k' val' t' s' :
    visited_at (unit_list s) (to_node e) = true ->
    within n2 k val t s k' val' t' s' ->
    within n2 k val (e :: t) s k' val' t' s'
| within_call k val e t s v k' val' t' s' :
    visited_at (unit_list s) (to_node e) = false ->
    apply_edge e val = Some v ->
    within n2 k v (adj_at (unit_list (enter (to_node e) n2 v s)) (to_node e))
           (enter (to_node e) n2 v s) k' val' t' s' ->
    within n2 (S k) val (e :: t) s k' val' t' s'
| within_next k val e t s v s1 k' val' t' s' :
    visited_at (unit_list s) (to_node e) = false ->
    apply_edge e val = Some v ->
    connect k (to_node e) n2 v s = Return s1 ->
    within n2 k val t s1 k' val' t' s' ->
    within n2 k val (e :: t) s k' val' t' s'.

(** The search of [convert value] from [fu] to [tu] comes to an inverted
    relation to an unmarked node with a value that is zero. *)
Definition meets_division (value : float) (fu tu : ptr) (s : globals) : Prop :=
  exists k val e t s',
    within tu (length (unit_list s)) value
      (adj_at (unit_list (enter fu tu value
                            (mk_globals (unit_list s) (result s) false))) fu)
      (enter fu tu value (mk_globals (unit_list s) (result s) false))
      k val (e :: t) s' /\
    visited_at (unit_list s') (to_node e) = false /\
    inverse e = true /\ (val =? 0)%float = true.

(** ** Relations between the globals before and after a call *)

(** The same nodes with the same adjacency lists. *)
Definition same_graph (l l' : list node) : Prop :=
  length l' = length l /\ forall p, adj_at l' p = adj_at l p.

(** Every mark of the first list is a mark of the second. *)
Definition marks_kept (l l' : list node) : Prop :=
  forall p, visited_at l p = true -> visited_at l' p = true.

(** Edges that stay inside the list, as a property of the adjacency
    lists (the form the inductions below carry along). *)
Definition closed_edges (l : list node) : Prop :=
  forall p e, In e (adj_at l p) -> to_node e < length l.

(** The nodes a call marks are closed under the relations: every
    relation of a node marked by the call leads to a marked node. *)
Definition closure (l l' : list node) : Prop :=
  forall x e, visited_at l' x = true -> visited_at l x = false ->
              In e (adj_at l x) -> visited_at l' (to_node e) = true.

(** The nodes without a mark, counted: the measure of the recursion of
    [connect]. *)
Definition unmarked_count (l : list node) : nat :=
  length (filter (fun p => negb (visited_at l p)) (seq 0 (length l))).

(** No relation is inverted, as a property of the adjacency lists. *)
Definition no_inverse (l : list node) : Prop :=
  forall p e, In e (adj_at l p) -> inverse e = false.

(** The marks of the list are the nodes the search has seen. *)
Definition agree (l : list node) (seen : list ptr) : Prop :=
  forall p, p < length l -> (visited_at l p = true <-> In p seen).

(** What a returned call of [connect] on [from] has done, by the
    result of the search from the same node. *)
Definition refines (l : list node) (n2 : ptr) (from : ptr) (val : float)
    (s s' : globals) (r : search_result) : Prop :=
  match r with
  | Hit p =>
      chain l p from n2 /\ found s' = true /\
      result s' = accumulate val p /\ visited_at (unit_list s') n2 = true
  | Miss seen' =>
      agree (unit_list s') seen' /\ result s' = result s /\
      found s' = found s
  | Deeper => False
  end.

(** The same for the loop of [connect] over the list [t]. *)
Definition loop_refines (l : list node) (n2 : ptr) (t : list edge)
    (val : float) (s s' : globals) (r : search_result) : Prop :=
  match r with
  | Hit p =>
      (exists e p', p = e :: p' /\ In e t /\ chain l p' (to_node e) n2) /\
      found s' = true /\
      result s' = accumulate val p /\ visited_at (unit_list s') n2 = true
  | Miss seen' =>
      agree (unit_list s') seen' /\ result s' = result s /\
      found s' = found s
  | Deeper => False
  end.

(** The relation [e] has been put at the head of the adjacency list of
    the node [p] and nothing else of the list of nodes has changed. *)
Definition pushed (e : edge) (p : ptr) (l l' : list node) : Prop :=
  adj_at l' p = e :: adj_at l p /\
  (forall q, q <> p -> adj_at l' q = adj_at l q) /\
  (forall q, visited_at l' q = visited_at l q) /\
  map (fun t => (name t, long_name t)) l'
  = map (fun t => (name t, long_name t)) l.

(** A node no relation points to is not connected to any other. *)
Definition isolated (l : list node) (b : ptr) : bool :=
  forallb (fun t => forallb (fun e => negb (to_node e =? b)) (adj_list t)) l.

(** ** Doubles as real numbers

    The rounding of a division is measured in the reals: a double that
    is a number stands for the real [m * 2^e] of its mantissa and
    exponent, with its sign ([Prim2SF] of the standard library gives
    them). *)

Section Doubles.

Local Open Scope R_scope.

(** The real a [spec_float] stands for: [m * 2^e] with its sign for a
    finite double, zero for the zeros and also for NaN and the
    infinities, which stand for no real. *)
Definition SF2R (x : spec_float) : R :=
  match x with
  | S754_finite s m e => IZR (cond_Zopp s (Zpos m)) * powerRZ 2 e
  | _ => 0
  end.

(** The real a double stands for, through its mantissa and
    exponent. *)
Definition F2R (x : float) : R := SF2R (Prim2SF x).

(** Neither zero, subnormal, infinite nor NaN. *)
Definition is_normal (x : float) : bool :=
  match classify x with
  | PNormal | NNormal => true
  | _ => false
  end.

(** Where a real [T] is against the integer [m]: on it, or strictly
    between [m] and [m + 1] and below, on or above the middle. *)
Definition inbetween (T : R) (m : Z) (l : location) : Prop :=
  match l with
  | loc_Exact => T = IZR m
  | loc_Inexact c =>
      IZR m < T < IZR m + 1 /\
      match c with
      | Lt => T < IZR m + / 2
      | Eq => T = IZR m + / 2
      | Gt => IZR m + / 2 < T
      end
  end.

(** The same for the mantissa of a record of [shr], which holds the
    place of the real in its round and sticky bits. *)
Definition located (T : R) (mrs : shr_record) : Prop :=
  (0 <= shr_m mrs)%Z /\ inbetween T (shr_m mrs) (loc_of_shr_record mrs).

End Doubles.

(** * Definition files used as examples *)

Local Open Scope string_scope.
Local Open Scope nat_scope.
Local Open Scope list_scope.

(** The globals [main] has after reading the records. *)
Definition loaded (recs : list record) : globals :=
  match load recs initial with
  | Return s => s
  | _ => initial
  end.

(** The globals a call of [convert] that returns leaves. *)
Definition globals_after (o : outcome (float * globals)) : globals :=
  match o with
  | Return (_, s) => s
  | _ => initial
  end.

(** A rough figure for the yard in inches comes first, the exact chain
    through the foot after it.  Nodes: yd is 0, ft is 1, in is 2. *)
Definition yards : list record :=
  [DefineUnit "yd" "yard"; DefineUnit "ft" "foot"; DefineUnit "in" "inch";
   DefineRelation "yd" 35 "in" false;
   DefineRelation "yd" 3 "ft" false;
   DefineRelation "ft" 12 "in" false].

(** Energy against wavelength, a reciprocal relation, and a unit nothing
    is related to.  Nodes: meV is 0, eV is 1, nm is 2, K is 3. *)
Definition photon : list record :=
  [DefineUnit "meV" "milli_electron_volt"; DefineUnit "eV" "electron_volt";
   DefineUnit "nm" "nanometer"; DefineUnit "K" "kelvin";
   DefineRelation "meV" 0x1p-10 "eV" false;
   DefineRelation "eV" 1240 "nm" true].


(** A very small factor followed by a reciprocal relation.  Nodes: a is
    0, b is 1, c is 2; [0x1p-600] is about 2.4e-181. *)
Definition tiny : list record :=
  [DefineUnit "a" "unit_a"; DefineUnit "b" "unit_b"; DefineUnit "c" "unit_c";
   DefineRelation "a" 0x1p-600 "b" false;
   DefineRelation "b" 1 "c" true].

(** A reciprocal relation with a factor so large that the quotient by a
    small value is beyond the doubles.  Nodes: a is 0, b is 1. *)
Definition steep : list record :=
  [DefineUnit "a" "unit_a"; DefineUnit "b" "unit_b";
   DefineRelation "a" 0x1p1000 "b" true].

(** A reciprocal relation from a to b and, defined after it, a way
    round through c.  Nodes: a is 0, b is 1, c is 2. *)
Definition detour : list record :=
  [DefineUnit "a" "unit_a"; DefineUnit "b" "unit_b"; DefineUnit "c" "unit_c";
   DefineRelation "a" 10 "b" true;
   DefineRelation "a" 2 "c" false;
   DefineRelation "c" 3 "b" false].

(** A reciprocal relation from a to b with a very small factor, where b
    has a reciprocal relation to a third unit.  Nodes: a is 0, b is 1,
    c is 2. *)
Definition side_road : list record :=
  [DefineUnit "a" "unit_a"; DefineUnit "b" "unit_b"; DefineUnit "c" "unit_c";
   DefineRelation "b" 1 "c" true;
   DefineRelation "a" 0x1p-600 "b" true].

(** ** Notions for the further properties *)

(** The nodes that carry a mark. *)
Definition marked (l : list node) : list ptr :=
  filter (visited_at l) (seq 0 (length l)).

(** [e'] is the relation [add_edge] stores beside [e], from the node [e]
    leads to back to the node [a] that owns [e]. *)
Definition partner (e e' : edge) (a : ptr) : Prop :=
  to_node e' = a /\ inverse e' = inverse e /\
  (if inverse e then factor e' = factor e
   else factor e' = (1 / factor e)%float \/ factor e = (1 / factor e')%float).

(** Every relation of the graph has its partner. *)
Definition paired (l : list node) : Prop :=
  forall a e, In e (adj_at l a) ->
              exists e', In e' (adj_at l (to_node e)) /\ partner e e' a.

(** The globals a call of [add_edge] that returns leaves. *)
Definition globals_after_edge (name1 : string) (fac12 : float)
    (name2 : string) (s : globals) : globals :=
  match add_edge name1 fac12 name2 false s with
  | Return s' => s'
  | _ => s
  end.

(** * The definition file

    The reading loop of [main], from the characters of the file to the
    calls of [add_node] and [add_edge].  The C library is modelled as
    far as the loop uses it: [fgets] with the end of file indicator,
    [sscanf] with the directives [%s] and [%lf], [strcmp].  The
    conversion of [%lf] is a parameter, [scan_double]: from the input
    where the number should begin to the number and the input after it,
    or nothing when no number begins there. *)

(** The strings [fgets(line, 256, defFile)] stores before the end of
    file indicator is set, in order: [fgets] stores up to 255 characters
    and stops behind a newline; when it comes to the end of the file
    first, [feof] is true and the loop of [main] leaves what was stored
    alone.  [room] is the number of characters the call under way may
    still store and [line] what it has stored. *)
Fixpoint fgets_lines (room : nat) (line : string) (file : string)
    : list string :=
  match file with
  | EmptyString => []
  | String c file' =>
      if Ascii.eqb c "010"%char then
        String.append line (String c EmptyString) :: fgets_lines 255 "" file'
      else
        match room with
        | 0 | 1 =>
            String.append line (String c EmptyString)
              :: fgets_lines 255 "" file'
        | S room' =>
            fgets_lines room' (String.append line (String c EmptyString)) file'
        end
  end.

(** [isspace] in the C locale. *)
Definition isspace (c : ascii) : bool :=
  match c with
  | " " | "009" | "010" | "011" | "012" | "013" => true
  | _ => false
  end%char.

(** The characters of a C string: those before the first null
    character. *)
Fixpoint c_string (s : string) : string :=
  match s with
  | EmptyString => ""
  | String c s' => if Ascii.eqb c "000"%char then "" else String c (c_string s')
  end.

Fixpoint skip_spaces (s : string) : string :=
  match s with
  | EmptyString => ""
  | String c s' => if isspace c then skip_spaces s' else s
  end.

(** The characters up to the next white space, and the input from
    there. *)
Fixpoint scan_word (s : string) : string * string :=
  match s with
  | EmptyString => ("", "")
  | String c s' =>
      if isspace c then ("", s)
      else let (w, rest) := scan_word s' in (String c w, rest)
  end.

(** The scanning globals of [main]: six arrays of 32 characters, zero
    at the start, [convfac] and [invflag]. *)
Record buffers := mk_buffers {
  type : string;
  shortname : string;
  longname : string;
  from_name : string;
  to_name : string;
  invstr : string;
  convfac : float;
  invflag : bool
}.

Definition no_buffers : buffers :=
  mk_buffers "" "" "" "" "" "" 0%float false.

Definition set_type (w : string) (b : buffers) : buffers :=
  mk_buffers w (shortname b) (longname b) (from_name b) (to_name b)
             (invstr b) (convfac b) (invflag b).

Definition set_shortname (w : string) (b : buffers) : buffers :=
  mk_buffers (type b) w (longname b) (from_name b) (to_name b)
             (invstr b) (convfac b) (invflag b).

Definition set_longname (w : string) (b : buffers) : buffers :=
  mk_buffers (type b) (shortname b) w (from_name b) (to_name b)
             (invstr b) (convfac b) (invflag b).

Definition set_from_name (w : string) (b : buffers) : buffers :=
  mk_buffers (type b) (shortname b) (longname b) w (to_name b)
             (invstr b) (convfac b) (invflag b).

Definition set_to_name (w : string) (b : buffers) : buffers :=
  mk_buffers (type b) (shortname b) (longname b) (from_name b) w
             (invstr b) (convfac b) (invflag b).

Definition set_invstr (w : string) (b : buffers) : buffers :=
  mk_buffers (type b) (shortname b) (longname b) (from_name b) (to_name b)
             w (convfac b) (invflag b).

Definition set_convfac (x : float) (b : buffers) : buffers :=
  mk_buffers (type b) (shortname b) (longname b) (from_name b) (to_name b)
             (invstr b) x (invflag b).

Definition set_invflag (i : bool) (b : buffers) : buffers :=
  mk_buffers (type b) (shortname b) (longname b) (from_name b) (to_name b)
             (invstr b) (convfac b) i.

(** Where a call of [sscanf] is: a directive has stored its value and
    the input goes on, or the call is over because the input was at its
    end or did not match (what was stored before stays, the rest of the
    buffers keep what they had), or a word of 32 characters or more was
    written to an array of 32, which C leaves undefined. *)
Inductive scanning :=
| Stored (b : buffers) (input : string)
| Over (b : buffers)
| Smashed.

(** The directive [%s] into one of the arrays. *)
Definition scan_s (set : string -> buffers -> buffers) (b : buffers)
    (input : string) : scanning :=
  match skip_spaces input with
  | EmptyString => Over b
  | String c more =>
      let (w, rest) := scan_word (String c more) in
      if 32 <=? String.length w then Smashed else Stored (set w b) rest
  end.

(** The next directive of a format, if the call is not over. *)
Definition and_then (x : scanning) (f : buffers -> string -> scanning)
    : scanning :=
  match x with
  | Stored b input => f b input
  | Over b => Over b
  | Smashed => Smashed
  end.

(** The buffers when [sscanf] has returned. *)
Definition returned (x : scanning) : option buffers :=
  match x with
  | Stored b _ => Some b
  | Over b => Some b
  | Smashed => None
  end.

(** The exits of the reading loop, by their message. *)
Inductive reading_failure :=
| InvalidType (word : string)   (* " invalid type in definition file: .." *)
| InversionFlag                 (* " Error in definition file: inversion flag must be INVERT or NOINVERT" *)
| GraphExit (e : failure).      (* an exit of [add_edge] or [convert] *)

(** What reading does: it goes on, it exits, its behaviour is undefined
    (an array was overrun), or the model of [connect] ran out of fuel
    (which [main_text_fuel_enough] rules out). *)
Inductive reading (A : Type) :=
| Goes (a : A)
| Ends (why : reading_failure)
| Undefined
| NoFuel.

Arguments Goes {A} a.
Arguments Ends {A} why.
Arguments Undefined {A}.
Arguments NoFuel {A}.

Definition of_outcome (A : Type) (o : outcome A) : reading A :=
  match o with
  | Return a => Goes a
  | Exit e => Ends (GraphExit e)
  | OutOfFuel => NoFuel
  end.

Arguments of_outcome {A} o.

(** The globals of the graph code and the scanning globals. *)
Record reader := mk_reader {
  graph : globals;
  scanned : buffers
}.

Definition first_is_hash (line : string) : bool :=
  match line with
  | String "#" _ => true
  | _ => false
  end.

Section Scanning.

Variable scan_double : string -> option (float * string).

(** The directive [%lf] into [convfac]. *)
Definition scan_lf (b : buffers) (input : string) : scanning :=
  match skip_spaces input with
  | EmptyString => Over b
  | String c more =>
      match scan_double (String c more) with
      | None => Over b
      | Some (x, rest) => Stored (set_convfac x b) rest
      end
  end.

(** The directives of [sscanf(line,"%s",type)]. *)
Definition scan_type (line : string) (b : buffers) : scanning :=
  scan_s set_type b (c_string line).

(** The directives of
    [sscanf(line,"%s %s %s",type,shortname,longname)]. *)
Definition scan_node (line : string) (b : buffers) : scanning :=
  and_then (and_then (scan_s set_type b (c_string line))
                     (scan_s set_shortname))
           (scan_s set_longname).

(** The directives of
    [sscanf(line,"%s %s %lf %s %s",type,from_name,&convfac,to_name,invstr)]. *)
Definition scan_edge (line : string) (b : buffers) : scanning :=
  and_then
    (and_then
       (and_then (and_then (scan_s set_type b (c_string line))
                           (scan_s set_from_name))
                 scan_lf)
       (scan_s set_to_name))
    (scan_s set_invstr).

Definition sscanf_type (line : string) (b : buffers) : option buffers :=
  returned (scan_type line b).

Definition sscanf_node (line : string) (b : buffers) : option buffers :=
  returned (scan_node line b).

Definition sscanf_edge (line : string) (b : buffers) : option buffers :=
  returned (scan_edge line b).

(** The body of the reading loop for one line [fgets] has stored. *)
Definition read_line (line : string) (r : reader) : reading reader :=
  if first_is_hash line then Goes r
  else
    match sscanf_type line (scanned r) with
    | None => Undefined
    | Some b1 =>
        if String.eqb (type b1) "node" then
          match sscanf_node line b1 with
          | None => Undefined
          | Some b2 =>
              Goes (mk_reader (add_node (shortname b2) (longname b2) (graph r))
                              b2)
          end
        else if String.eqb (type b1) "edge" then
          match sscanf_edge line b1 with
          | None => Undefined
          | Some b2 =>
              if negb (String.eqb (invstr b2) "INVERT")
                 && negb (String.eqb (invstr b2) "NOINVERT")
              then Ends InversionFlag
              else
                let b3 := set_invflag (String.eqb (invstr b2) "INVERT") b2 in
                match add_edge (from_name b3) (convfac b3) (to_name b3)
                               (invflag b3) (graph r) with
                | Return g => Goes (mk_reader g b3)
                | Exit e => Ends (GraphExit e)
                | OutOfFuel => NoFuel
                end
          end
        else Ends (InvalidType (type b1))
    end.

(** The reading loop over the lines. *)
Fixpoint read_lines (lines : list string) (r : reader) : reading reader :=
  match lines with
  | [] => Goes r
  | line :: rest =>
      match read_line line r with
      | Goes r' => read_lines rest r'
      | Ends why => Ends why
      | Undefined => Undefined
      | NoFuel => NoFuel
      end
  end.

(** The reading loop of [main] on the characters of the file. *)
Definition read_file (file : string) : reading reader :=
  read_lines (fgets_lines 255 "" file) (mk_reader initial no_buffers).

(** [main] from the characters of the definition file. *)
Definition main_text (file : string)
    (request : option (float * string * string)) : reading output :=
  match read_file file with
  | Goes r =>
      match request with
      | None => Goes (Listing (allowed_units (graph r)))
      | Some (value, from_unit, to_unit) =>
          match convert value from_unit to_unit (graph r) with
          | Return (x, _) => Goes (Converted x)
          | Exit e => Ends (GraphExit e)
          | OutOfFuel => NoFuel
          end
      end
  | Ends why => Ends why
  | Undefined => Undefined
  | NoFuel => NoFuel
  end.

(** ** Lines that say all they should *)

(** The buffers when every directive of the format has stored its
    value. *)
Definition matched (x : scanning) : option buffers :=
  match x with
  | Stored b _ => Some b
  | _ => None
  end.

(** The record a line holds, [Some None] for a comment: the line
    begins with [node] or [edge], has every field its type asks for, and
    the flag of an [edge] line is [INVERT] or [NOINVERT]. *)
Definition parse_line (line : string) : option (option record) :=
  if first_is_hash line then Some None
  else
    match matched (scan_type line no_buffers) with
    | None => None
    | Some b1 =>
        if String.eqb (type b1) "node" then
          match matched (scan_node line no_buffers) with
          | Some b => Some (Some (DefineUnit (shortname b) (longname b)))
          | None => None
          end
        else if String.eqb (type b1) "edge" then
          match matched (scan_edge line no_buffers) with
          | Some b =>
              if String.eqb (invstr b) "INVERT" then
                Some (Some (DefineRelation (from_name b) (convfac b)
                                           (to_name b) true))
              else if String.eqb (invstr b) "NOINVERT" then
                Some (Some (DefineRelation (from_name b) (convfac b)
                                           (to_name b) false))
              else None
          | None => None
          end
        else None
    end.

(** The records of the lines, when every line holds one or is a
    comment. *)
Fixpoint parse_lines (lines : list string) : option (list record) :=
  match lines with
  | [] => Some []
  | line :: rest =>
      match parse_line line, parse_lines rest with
      | Some None, Some recs => Some recs
      | Some (Some rec), Some recs => Some (rec :: recs)
      | _, _ => None
      end
  end.

End Scanning.

(** The file is empty or its last character is a newline. *)
Fixpoint ends_with_newline (file : string) : bool :=
  match file with
  | EmptyString => true
  | String c EmptyString => Ascii.eqb c "010"%char
  | String _ file' => ends_with_newline file'
  end.

Fixpoint no_newline (s : string) : bool :=
  match s with
  | EmptyString => true
  | String c s' => negb (Ascii.eqb c "010"%char) && no_newline s'
  end.

(** A line of white space only. *)
Definition blank (line : string) : bool :=
  match skip_spaces (c_string line) with
  | EmptyString => true
  | _ => false
  end.

(** The buffers hold the fields of a record. *)
Definition buffers_hold (rec : record) (b : buffers) : Prop :=
  match rec with
  | DefineUnit n ln =>
      type b = "node" /\ shortname b = n /\ longname b = ln
  | DefineRelation a f c i =>
      type b = "edge" /\ from_name b = a /\ convfac b = f /\ to_name b = c /\
      invstr b = (if i then "INVERT" else "NOINVERT") /\ invflag b = i
  end.

(** What the loop body does with a record. *)
Definition define (rec : record) (s : globals) : outcome globals :=
  match rec with
  | DefineUnit n ln => Return (add_node n ln s)
  | DefineRelation a f c i => add_edge a f c i s
  end.

(** ** Definition files as text *)

(** A conversion for [%lf] that knows unsigned decimal integers only
    and rounds after every digit: it is not the conversion of the C
    library, with which it agrees on the short integers of the
    examples.  The examples use it where the properties leave
    [scan_double] open; no property depends on it. *)
Definition digits : list float :=
  [0%float; 1%float; 2%float; 3%float; 4%float;
   5%float; 6%float; 7%float; 8%float; 9%float].

Definition digit_value (c : ascii) : option float :=
  let n := nat_of_ascii c in
  if n <? 48 then None else nth_error digits (n - 48).

Fixpoint scan_digits (acc : option float) (s : string)
    : option (float * string) :=
  match s with
  | EmptyString => option_map (fun x => (x, "")) acc
  | String c s' =>
      match digit_value c with
      | Some d =>
          scan_digits
            (Some (match acc with
                   | Some x => (x * 10 + d)%float
                   | None => d
                   end)) s'
      | None => option_map (fun x => (x, s)) acc
      end
  end.

Definition newline : string := String "010" EmptyString.

(** The photon file as text, with a comment. *)
Definition photon_text : string :=
  String.concat newline
    ["# energy and wavelength";
     "node meV milli_electron_volt";
     "node eV electron_volt";
     "node nm nanometer";
     "node K kelvin";
     "edge eV 1024 meV NOINVERT";
     "edge eV 1240 nm INVERT";
     ""].

(** The node lines of the photon file. *)
Definition photon_units_text : string :=
  String.concat newline
    ["# energy and wavelength";
     "node meV milli_electron_volt";
     "node eV electron_volt";
     "node nm nanometer";
     "node K kelvin";
     "edge eV 1024 meV NOINVERT";
     ""].

(** The globals when the reading loop is through a file it accepts. *)
Definition reader_after (scan_double : string -> option (float * string))
    (file : string) : reader :=
  match read_file scan_double file with
  | Goes r => r
  | _ => mk_reader initial no_buffers
  end.

(** * Properties *)

(** ** Pointers *)

Lemma deref_lt l p t : deref l p = Some t -> p < length l.
Proof.
  induction l as [|x l IH]; simpl; [discriminate|].
  destruct (Nat.eqb_spec p (length l)); [lia|].
  intros H; apply IH in H; lia.
Qed.

Lemma deref_valid l p : p < length l -> exists t, deref l p = Some t.
Proof.
  induction l as [|x l IH]; simpl; [lia|].
  intros H. destruct (Nat.eqb_spec p (length l)); [eauto|].
  apply IH; lia.
Qed.

Lemma deref_out l p : length l <= p -> deref l p = None.
Proof.
  intros H. destruct (deref l p) eqn:E; [|reflexivity].
  apply deref_lt in E; lia.
Qed.

Lemma update_length f p l : length (update f p l) = length l.
Proof.
  induction l as [|x l IH]; simpl; [reflexivity|].
  destruct (p =? length l); simpl; congruence.
Qed.

Lemma deref_update_same f p l :
  deref (update f p l) p = option_map f (deref l p).
Proof.
  induction l as [|x l IH]; simpl; [reflexivity|].
  destruct (Nat.eqb_spec p (length l)) as [E|E]; simpl.
  - rewrite E, Nat.eqb_refl; reflexivity.
  - rewrite update_length. destruct (Nat.eqb_spec p (length l)); [lia|exact IH].
Qed.

Lemma deref_update_other f p q l :
  q <> p -> deref (update f p l) q = deref l q.
Proof.
  intros N. induction l as [|x l IH]; simpl; [reflexivity|].
  destruct (Nat.eqb_spec p (length l)) as [E|E]; simpl.
  - destruct (Nat.eqb_spec q (length l)); [lia|reflexivity].
  - rewrite update_length. destruct (q =? length l); [reflexivity|exact IH].
Qed.

Lemma find_node_deref nm l p :
  find_node nm l = Some p -> exists t, deref l p = Some t /\ name t = nm.
Proof.
  induction l as [|x l IH]; simpl; [discriminate|].
  destruct (String.eqb_spec nm (name x)) as [E|E].
  - intros H; injection H as <-. rewrite Nat.eqb_refl. eauto.
  - intros H. destruct (IH H) as (t & D & N).
    pose proof (deref_lt _ _ _ D).
    destruct (Nat.eqb_spec p (length l)); [lia|eauto].
Qed.

Lemma find_node_lt nm l p : find_node nm l = Some p -> p < length l.
Proof.
  intros H. destruct (find_node_deref _ _ _ H) as (t & D & _).
  exact (deref_lt _ _ _ D).
Qed.

(** ** Marks and adjacency lists under the two assignments *)

Lemma visited_at_mark l p q :
  visited_at (update set_visited p l) q
  = ((q =? p) && (p <? length l)) || visited_at l q.
Proof.
  unfold visited_at. destruct (Nat.eqb_spec q p) as [->|N]; simpl.
  - rewrite deref_update_same.
    destruct (Nat.ltb_spec p (length l)) as [L|L].
    + destruct (deref_valid _ _ L) as (t & ->); reflexivity.
    + rewrite (deref_out _ _ L); reflexivity.
  - rewrite deref_update_other by exact N; reflexivity.
Qed.

Lemma adj_at_mark l p q : adj_at (update set_visited p l) q = adj_at l q.
Proof.
  unfold adj_at. destruct (Nat.eq_dec q p) as [->|N].
  - rewrite deref_update_same. destruct (deref l p); reflexivity.
  - rewrite deref_update_other by exact N; reflexivity.
Qed.

Lemma visited_at_push e l p q :
  visited_at (update (push_edge e) p l) q = visited_at l q.
Proof.
  unfold visited_at. destruct (Nat.eq_dec q p) as [->|N].
  - rewrite deref_update_same. destruct (deref l p); reflexivity.
  - rewrite deref_update_other by exact N; reflexivity.
Qed.

Lemma adj_at_push e l p q :
  adj_at (update (push_edge e) p l) q
  = if (q =? p) && (p <? length l) then e :: adj_at l q else adj_at l q.
Proof.
  unfold adj_at. destruct (Nat.eqb_spec q p) as [->|N]; simpl.
  - rewrite deref_update_same.
    destruct (Nat.ltb_spec p (length l)) as [L|L].
    + destruct (deref_valid _ _ L) as (t & ->); reflexivity.
    + rewrite (deref_out _ _ L); reflexivity.
  - rewrite deref_update_other by exact N; reflexivity.
Qed.

Lemma well_formed_adj l p e :
  well_formed l = true -> In e (adj_at l p) -> to_node e < length l.
Proof.
  unfold well_formed, adj_at. generalize (length l) as n. intros n W.
  induction l as [|x l IH]; simpl in *; [tauto|].
  apply andb_true_iff in W as [W1 W2].
  destruct (p =? length l).
  - intros I. rewrite forallb_forall in W1. apply Nat.ltb_lt, W1, I.
  - apply IH, W2.
Qed.

Lemma adj_well_formed l :
  (forall p e, In e (adj_at l p) -> to_node e < length l) ->
  well_formed l = true.
Proof.
  unfold well_formed. intros H.
  assert (G : forall t, In t l -> exists p, deref l p = Some t).
  { clear. induction l as [|x l IH]; simpl; [tauto|].
    intros t [<-|I].
    - exists (length l). rewrite Nat.eqb_refl; reflexivity.
    - destruct (IH _ I) as (p & D). exists p.
      pose proof (deref_lt _ _ _ D).
      destruct (Nat.eqb_spec p (length l)); [lia|exact D]. }
  apply forallb_forall. intros t I. apply forallb_forall. intros e Ie.
  destruct (G _ I) as (p & D). apply Nat.ltb_lt, (H p).
  unfold adj_at. rewrite D. exact Ie.
Qed.

Lemma unmarked_at l p : unmarked l = true -> visited_at l p = false.
Proof.
  unfold unmarked, visited_at. induction l as [|x l IH]; simpl; [reflexivity|].
  intros W. apply andb_true_iff in W as [W1 W2].
  destruct (p =? length l); [|exact (IH W2)].
  destruct (visited x); [discriminate|reflexivity].
Qed.

Lemma linear_adj l p e :
  linear l = true -> In e (adj_at l p) -> inverse e = false.
Proof.
  unfold linear, adj_at. induction l as [|x l IH]; simpl; [tauto|].
  intros W. apply andb_true_iff in W as [W1 W2].
  destruct (p =? length l); [|exact (IH W2)].
  intros I. rewrite forallb_forall in W1. apply negb_true_iff, W1, I.
Qed.

(** ** The loop of [connect], one relation at a time *)

Lemma while_adj_cons rec val e t s :
  while_adj rec val (e :: t) s =
  if visited_at (unit_list s) (to_node e) then while_adj rec val t s
  else
    match apply_edge e val with
    | None => Exit DivisionByZero
    | Some v =>
        match rec (to_node e) v s with
        | Return s' => while_adj rec val t s'
        | Exit x => Exit x
        | OutOfFuel => OutOfFuel
        end
    end.
Proof.
  unfold apply_edge. simpl.
  destruct (visited_at (unit_list s) (to_node e)); simpl; [reflexivity|].
  destruct (inverse e); [|reflexivity].
  destruct (val =? 0)%float; reflexivity.
Qed.

Lemma unit_list_enter n1 n2 val s :
  unit_list (enter n1 n2 val s) = update set_visited n1 (unit_list s).
Proof. unfold enter. destruct (n1 =? n2); reflexivity. Qed.

Lemma result_enter n1 n2 val s :
  result (enter n1 n2 val s) = if n1 =? n2 then val else result s.
Proof. unfold enter. destruct (n1 =? n2); reflexivity. Qed.

Lemma found_enter n1 n2 val s :
  found (enter n1 n2 val s) = (n1 =? n2) || found s.
Proof. unfold enter. destruct (n1 =? n2); reflexivity. Qed.


Lemma adj_at_enter n1 n2 val s q :
  adj_at (unit_list (enter n1 n2 val s)) q = adj_at (unit_list s) q.
Proof. rewrite unit_list_enter. apply adj_at_mark. Qed.

Lemma connect_S k n1 n2 val s :
  connect (S k) n1 n2 val s =
  while_adj (fun m v => connect k m n2 v) val
            (adj_at (unit_list (enter n1 n2 val s)) n1) (enter n1 n2 val s).
Proof. reflexivity. Qed.

(** ** The runs of [connect] that return *)

Lemma while_adj_Loop k n2 :
  (forall n1 val s s', connect k n1 n2 val s = Return s' ->
                       Connect n2 n1 val s s') ->
  forall val t s s',
    while_adj (fun m v => connect k m n2 v) val t s = Return s' ->
    Loop n2 val t s s'.
Proof.
  intros IH val t. induction t as [|e t IHt]; intros s s'.
  - simpl. intros H; injection H as <-. constructor.
  - rewrite while_adj_cons.
    destruct (visited_at (unit_list s) (to_node e)) eqn:V.
    + intros H. apply Loop_skip; auto.
    + destruct (apply_edge e val) as [v|] eqn:A; [|discriminate].
      destruct (connect k (to_node e) n2 v s) as [s1| |] eqn:C;
        try discriminate.
      intros H. eapply Loop_call; eauto.
Qed.

Lemma connect_Connect k : forall n1 n2 val s s',
  connect k n1 n2 val s = Return s' -> Connect n2 n1 val s s'.
Proof.
  induction k as [|k IH]; intros n1 n2 val s s'; simpl; [discriminate|].
  intros H. constructor. eapply while_adj_Loop; eauto.
Qed.

(** The graph is left as it is: only marks, [result] and [found] change. *)

Lemma same_graph_refl l : same_graph l l.
Proof. split; auto. Qed.

Lemma same_graph_trans l1 l2 l3 :
  same_graph l1 l2 -> same_graph l2 l3 -> same_graph l1 l3.
Proof.
  intros [L1 A1] [L2 A2]. split; [congruence|].
  intros p. rewrite A2. apply A1.
Qed.

Lemma same_graph_enter n1 n2 val s :
  same_graph (unit_list s) (unit_list (enter n1 n2 val s)).
Proof.
  rewrite unit_list_enter. split.
  - apply update_length.
  - intros p. apply adj_at_mark.
Qed.

Lemma Connect_same_graph n2 :
  (forall n1 val s s', Connect n2 n1 val s s' ->
     same_graph (unit_list s) (unit_list s')) /\
  (forall val t s s', Loop n2 val t s s' ->
     same_graph (unit_list s) (unit_list s')).
Proof.
  apply Connect_Loop_ind; intros.
  - eapply same_graph_trans; [apply same_graph_enter|eassumption].
  - apply same_graph_refl.
  - assumption.
  - eapply same_graph_trans; eassumption.
Qed.

(** Marks are only ever set. *)

Lemma marks_kept_enter n1 n2 val s :
  marks_kept (unit_list s) (unit_list (enter n1 n2 val s)).
Proof.
  intros p V. rewrite unit_list_enter, visited_at_mark, V.
  apply orb_true_r.
Qed.

Lemma Connect_marks_kept n2 :
  (forall n1 val s s', Connect n2 n1 val s s' ->
     marks_kept (unit_list s) (unit_list s')) /\
  (forall val t s s', Loop n2 val t s s' ->
     marks_kept (unit_list s) (unit_list s')).
Proof.
  apply Connect_Loop_ind; intros; intros p V; auto.
  apply H0. apply marks_kept_enter. exact V.
Qed.

(** The node [connect] is called on is marked when it returns. *)

Lemma visited_at_enter n1 n2 val s :
  n1 < length (unit_list s) ->
  visited_at (unit_list (enter n1 n2 val s)) n1 = true.
Proof.
  intros L. rewrite unit_list_enter, visited_at_mark, Nat.eqb_refl.
  apply Nat.ltb_lt in L. rewrite L. reflexivity.
Qed.

Lemma Connect_marks_entry n2 n1 val s s' :
  Connect n2 n1 val s s' -> n1 < length (unit_list s) ->
  visited_at (unit_list s') n1 = true.
Proof.
  intros C L. inversion C; subst.
  eapply (proj2 (Connect_marks_kept n2)); [eassumption|].
  apply visited_at_enter, L.
Qed.

(** Graphs with the same adjacency lists have the same chains. *)

Lemma closed_edges_same l l' :
  same_graph l l' -> closed_edges l -> closed_edges l'.
Proof.
  intros [L A] W p e I. rewrite L. apply (W p). rewrite <- A. exact I.
Qed.

Lemma chain_same l l' p : forall a b,
  same_graph l l' -> chain l' p a b -> chain l p a b.
Proof.
  induction p as [|e p IH]; simpl; intros a b S; [auto|].
  intros [I C]. split; [|apply IH; auto].
  destruct S as [_ A]. rewrite <- A. exact I.
Qed.

Lemma connected_same l l' a b :
  same_graph l l' -> connected l' a b -> connected l a b.
Proof. intros S [p C]. exists p. eapply chain_same; eauto. Qed.

Lemma connected_refl l a : connected l a a.
Proof. exists []. reflexivity. Qed.

Lemma connected_step l a e b :
  In e (adj_at l a) -> connected l (to_node e) b -> connected l a b.
Proof. intros I [p C]. exists (e :: p). split; assumption. Qed.

(** The nodes a call marks are closed under the relations. *)

Lemma newly_marked_by_enter n1 n2 val s x :
  visited_at (unit_list (enter n1 n2 val s)) x = true ->
  visited_at (unit_list s) x = false -> x = n1.
Proof.
  rewrite unit_list_enter, visited_at_mark. intros H V. rewrite V in H.
  destruct (Nat.eqb_spec x n1); [assumption|discriminate].
Qed.

Lemma Connect_closure n2 :
  (forall n1 val s s', Connect n2 n1 val s s' ->
     closed_edges (unit_list s) -> closure (unit_list s) (unit_list s')) /\
  (forall val t s s', Loop n2 val t s s' ->
     closed_edges (unit_list s) ->
     (forall e, In e t -> to_node e < length (unit_list s)) ->
     (forall e, In e t -> visited_at (unit_list s') (to_node e) = true) /\
     closure (unit_list s) (unit_list s')).
Proof.
  apply Connect_Loop_ind.
  - intros n1 val s s' L IH W.
    pose proof (same_graph_enter n1 n2 val s) as S.
    destruct IH as [A B].
    + eapply closed_edges_same; eauto.
    + intros e I. eapply closed_edges_same; eauto.
    + intros x e V' V I.
      destruct (visited_at (unit_list (enter n1 n2 val s)) x) eqn:V1.
      * apply newly_marked_by_enter in V1; [subst x|exact V].
        apply A. destruct S as [_ ->]. exact I.
      * apply (B x); auto. destruct S as [_ ->]. exact I.
  - intros val s W T. split; [intros e []|].
    intros x e V' V. congruence.
  - intros val e t s s' V L IH W T.
    destruct IH as [A B]; [exact W|intros; apply T; right; assumption|].
    split; [|exact B].
    intros e' [<-|I]; [|auto].
    eapply (proj2 (Connect_marks_kept n2)); eauto.
  - intros val e t s v s1 s' V Ap C IHC L IHL W T.
    pose proof (proj1 (Connect_same_graph n2) _ _ _ _ C) as S.
    pose proof (proj2 (Connect_marks_kept n2) _ _ _ _ L) as K.
    specialize (IHC W).
    destruct IHL as [A B].
    + eapply closed_edges_same; eauto.
    + intros e' I. destruct S as [-> _]. apply T. right; exact I.
    + split.
      * intros e' [<-|I]; [|auto].
        apply K. eapply Connect_marks_entry; eauto. apply T. left; reflexivity.
      * intros x e' V' Vx I.
        destruct (visited_at (unit_list s1) x) eqn:V1.
        -- apply K. eapply IHC; eauto.
        -- apply (B x); auto. destruct S as [_ ->]. exact I.
Qed.

(** Once the destination is marked, [result] and [found] are left
    alone. *)

Lemma Connect_keeps n2 :
  (forall n1 val s s', Connect n2 n1 val s s' ->
     visited_at (unit_list s) n2 = true -> n1 <> n2 ->
     result s' = result s /\ found s' = found s) /\
  (forall val t s s', Loop n2 val t s s' ->
     visited_at (unit_list s) n2 = true ->
     result s' = result s /\ found s' = found s).
Proof.
  apply Connect_Loop_ind.
  - intros n1 val s s' L IH V N.
    destruct IH as [R F]; [apply marks_kept_enter; exact V|].
    rewrite R, F, result_enter, found_enter.
    apply Nat.eqb_neq in N. rewrite N. auto.
  - auto.
  - auto.
  - intros val e t s v s1 s' V Ap C IHC L IHL V2.
    destruct IHC as [R F]; [exact V2|congruence|].
    destruct IHL as [R' F'].
    + eapply (proj1 (Connect_marks_kept n2)); eauto.
    + split; congruence.
Qed.

(** [found] is set exactly when the destination gets its mark (or is
    the node of the call). *)

Lemma Connect_found n2 :
  (forall n1 val s s', Connect n2 n1 val s s' ->
     closed_edges (unit_list s) -> n1 < length (unit_list s) ->
     found s' = found s || (n1 =? n2)
                || (negb (visited_at (unit_list s) n2)
                    && visited_at (unit_list s') n2)) /\
  (forall val t s s', Loop n2 val t s s' ->
     closed_edges (unit_list s) ->
     (forall e, In e t -> to_node e < length (unit_list s)) ->
     found s' = found s
                || (negb (visited_at (unit_list s) n2)
                    && visited_at (unit_list s') n2)).
Proof.
  apply Connect_Loop_ind.
  - intros n1 val s s' L IH W V.
    pose proof (same_graph_enter n1 n2 val s) as S.
    rewrite IH.
    + rewrite found_enter, unit_list_enter, visited_at_mark.
      rewrite (Nat.eqb_sym n2 n1).
      destruct (n1 =? n2), (found s), (n1 <? length (unit_list s)),
               (visited_at (unit_list s) n2),
               (visited_at (unit_list s') n2); reflexivity.
    + eapply closed_edges_same; eauto.
    + intros e I. eapply closed_edges_same; eauto.
  - intros val s _ _.
    destruct (visited_at (unit_list s) n2), (found s); reflexivity.
  - intros val e t s s' V L IH W T. apply IH; auto.
    intros; apply T; right; assumption.
  - intros val e t s v s1 s' V Ap C IHC L IHL W T.
    pose proof (proj1 (Connect_same_graph n2) _ _ _ _ C) as S.
    pose proof (proj1 (Connect_marks_kept n2) _ _ _ _ C n2) as K1.
    pose proof (proj2 (Connect_marks_kept n2) _ _ _ _ L n2) as K2.
    assert (Le : to_node e < length (unit_list s)) by (apply T; left; reflexivity).
    pose proof (Connect_marks_entry _ _ _ _ _ C Le) as E.
    rewrite IHL, IHC; auto.
    + destruct (Nat.eqb_spec (to_node e) n2) as [Q|Q].
      * rewrite <- Q in *. rewrite V, E in *. rewrite K2 by reflexivity.
        simpl. rewrite !orb_true_r. reflexivity.
      * destruct (visited_at (unit_list s) n2),
                 (visited_at (unit_list s1) n2),
                 (visited_at (unit_list s') n2), (found s); simpl; auto;
          try (discriminate K1; reflexivity);
          try (discriminate K2; reflexivity).
    + eapply closed_edges_same; eauto.
    + intros e' I. destruct S as [-> _]. apply T; right; exact I.
Qed.

(** A call marks only nodes that a chain of relations connects to the
    node of the call. *)

Lemma Connect_reaches n2 :
  (forall n1 val s s', Connect n2 n1 val s s' ->
     forall x, visited_at (unit_list s') x = true ->
               visited_at (unit_list s) x = false ->
               connected (unit_list s) n1 x) /\
  (forall val t s s', Loop n2 val t s s' ->
     forall x, visited_at (unit_list s') x = true ->
               visited_at (unit_list s) x = false ->
               exists e, In e t /\ connected (unit_list s) (to_node e) x).
Proof.
  apply Connect_Loop_ind.
  - intros n1 val s s' L IH x V' V.
    pose proof (same_graph_enter n1 n2 val s) as S.
    destruct (visited_at (unit_list (enter n1 n2 val s)) x) eqn:V1.
    + apply newly_marked_by_enter in V1; [subst x|exact V].
      apply connected_refl.
    + destruct (IH x V' V1) as (e & I & C).
      apply connected_step with e.
      * destruct S as [_ <-]. exact I.
      * eapply connected_same; eauto.
  - intros; congruence.
  - intros val e t s s' V L IH x V' Vx.
    destruct (IH x V' Vx) as (e' & I & C). exists e'. split; [right|]; auto.
  - intros val e t s v s1 s' V Ap C IHC L IHL x V' Vx.
    pose proof (proj1 (Connect_same_graph n2) _ _ _ _ C) as S.
    destruct (visited_at (unit_list s1) x) eqn:V1.
    + exists e. split; [left; reflexivity|]. apply IHC; auto.
    + destruct (IHL x V' V1) as (e' & I & D). exists e'.
      split; [right; exact I|]. eapply connected_same; eauto.
Qed.

(** ** The recursion depth of [connect] *)

Lemma filter_le_pointwise (A : Type) (f g : A -> bool) xs :
  (forall x, In x xs -> f x = true -> g x = true) ->
  length (filter f xs) <= length (filter g xs).
Proof.
  induction xs as [|x xs IH]; simpl; intros H; [lia|].
  assert (IH' := IH (fun y I => H y (or_intror I))).
  pose proof (H x (or_introl eq_refl)) as Hx.
  destruct (f x), (g x); simpl;
    first [lia | discriminate Hx; reflexivity].
Qed.

Lemma filter_lt_pointwise (A : Type) (f g : A -> bool) xs x :
  (forall y, In y xs -> f y = true -> g y = true) ->
  In x xs -> g x = true -> f x = false ->
  length (filter f xs) < length (filter g xs).
Proof.
  induction xs as [|y xs IH]; simpl; intros H I G F; [tauto|].
  pose proof (filter_le_pointwise _ f g xs (fun z J => H z (or_intror J))) as LE.
  pose proof (H y (or_introl eq_refl)) as Hy.
  destruct I as [->|I].
  - rewrite G, F. simpl. lia.
  - assert (IH' := IH (fun z J => H z (or_intror J)) I G F).
    destruct (f y), (g y); simpl;
      first [lia | discriminate Hy; reflexivity].
Qed.

Lemma unmarked_count_length l : unmarked_count l <= length l.
Proof.
  unfold unmarked_count.
  etransitivity; [apply List.filter_length_le|].
  rewrite length_seq. apply Nat.le_refl.
Qed.

Lemma unmarked_count_le l l' :
  same_graph l l' -> marks_kept l l' -> unmarked_count l' <= unmarked_count l.
Proof.
  intros [L _] K. unfold unmarked_count. rewrite L.
  apply filter_le_pointwise. intros x _ H.
  apply negb_true_iff in H. apply negb_true_iff.
  destruct (visited_at l x) eqn:V; [|reflexivity].
  apply K in V. congruence.
Qed.

Lemma unmarked_count_enter m n2 val s :
  m < length (unit_list s) -> visited_at (unit_list s) m = false ->
  unmarked_count (unit_list (enter m n2 val s)) < unmarked_count (unit_list s).
Proof.
  intros L V. unfold unmarked_count.
  destruct (same_graph_enter m n2 val s) as [-> _].
  apply filter_lt_pointwise with m.
  - intros x _ H. apply negb_true_iff in H. apply negb_true_iff.
    destruct (visited_at (unit_list s) x) eqn:Vx; [|reflexivity].
    apply (marks_kept_enter m n2 val) in Vx. congruence.
  - apply in_seq. lia.
  - rewrite V; reflexivity.
  - rewrite visited_at_enter by exact L. reflexivity.
Qed.

(** With as much fuel as there are unmarked nodes after the entry,
    [connect] does not stop for want of fuel. *)
Lemma connect_enough_fuel n2 k : forall n1 val s,
  closed_edges (unit_list s) -> n1 < length (unit_list s) ->
  unmarked_count (unit_list (enter n1 n2 val s)) < k ->
  connect k n1 n2 val s <> OutOfFuel.
Proof.
  induction k as [|k IH]; intros n1 val s W L U; [lia|].
  rewrite connect_S.
  pose proof (same_graph_enter n1 n2 val s) as S.
  assert (W1 := closed_edges_same _ _ S W).
  assert (T : forall e, In e (adj_at (unit_list (enter n1 n2 val s)) n1) ->
                        to_node e < length (unit_list (enter n1 n2 val s)))
    by (intros e; apply W1).
  assert (U1 : unmarked_count (unit_list (enter n1 n2 val s)) <= k) by lia.
  revert W1 T U1.
  generalize (adj_at (unit_list (enter n1 n2 val s)) n1) as t.
  generalize (enter n1 n2 val s) as s1. clear S U W L.
  intros s1 t. revert s1.
  induction t as [|e t IHt]; intros s1 W1 T U1; [simpl; discriminate|].
  rewrite while_adj_cons.
  destruct (visited_at (unit_list s1) (to_node e)) eqn:V.
  - apply IHt; auto. intros; apply T; right; assumption.
  - destruct (apply_edge e val) as [v|]; [|discriminate].
    assert (Le : to_node e < length (unit_list s1)) by (apply T; left; reflexivity).
    pose proof (unmarked_count_enter _ n2 v s1 Le V) as D.
    destruct (connect k (to_node e) n2 v s1) as [s2| |] eqn:C.
    + apply connect_Connect in C.
      pose proof (proj1 (Connect_same_graph n2) _ _ _ _ C) as S.
      pose proof (proj1 (Connect_marks_kept n2) _ _ _ _ C) as K.
      pose proof (unmarked_count_le _ _ S K).
      apply IHt.
      * eapply closed_edges_same; eauto.
      * intros e' I. destruct S as [-> _]. apply T; right; exact I.
      * lia.
    + discriminate.
    + exfalso. apply (IH (to_node e) v s1); auto. lia.
Qed.

(** [connect] exits only on the division by zero, and it needs an
    inverted relation for that. *)

Lemma connect_exit k : forall n1 n2 val s x,
  connect k n1 n2 val s = Exit x -> x = DivisionByZero.
Proof.
  induction k as [|k IH]; intros n1 n2 val s x; [discriminate|].
  rewrite connect_S.
  generalize (adj_at (unit_list (enter n1 n2 val s)) n1) as t.
  generalize (enter n1 n2 val s) as s1.
  intros s1 t. revert s1.
  induction t as [|e t IHt]; intros s1; [simpl; discriminate|].
  rewrite while_adj_cons.
  destruct (visited_at (unit_list s1) (to_node e)); [apply IHt|].
  destruct (apply_edge e val) as [v|]; [|congruence].
  destruct (connect k (to_node e) n2 v s1) as [s2| |] eqn:C.
  - apply IHt.
  - intros H; injection H as <-. eapply IH; eauto.
  - discriminate.
Qed.

Lemma no_inverse_same l l' :
  same_graph l l' -> no_inverse l -> no_inverse l'.
Proof. intros [_ A] N p e I. apply (N p). rewrite <- A. exact I. Qed.

Lemma connect_linear k : forall n1 n2 val s x,
  no_inverse (unit_list s) -> connect k n1 n2 val s <> Exit x.
Proof.
  induction k as [|k IH]; intros n1 n2 val s x N; [discriminate|].
  rewrite connect_S.
  pose proof (same_graph_enter n1 n2 val s) as S.
  assert (N1 := no_inverse_same _ _ S N).
  assert (T : forall e, In e (adj_at (unit_list (enter n1 n2 val s)) n1) ->
                        inverse e = false) by (intros e; apply N1).
  revert N1 T.
  generalize (adj_at (unit_list (enter n1 n2 val s)) n1) as t.
  generalize (enter n1 n2 val s) as s1. clear S N.
  intros s1 t. revert s1.
  induction t as [|e t IHt]; intros s1 N1 T; [simpl; discriminate|].
  rewrite while_adj_cons.
  destruct (visited_at (unit_list s1) (to_node e)).
  - apply IHt; auto. intros; apply T; right; assumption.
  - unfold apply_edge. rewrite (T e) by (left; reflexivity).
    destruct (connect k (to_node e) n2 (factor e * val) s1) as [s2| |] eqn:C.
    + apply connect_Connect in C.
      pose proof (proj1 (Connect_same_graph n2) _ _ _ _ C) as S.
      apply IHt.
      * eapply no_inverse_same; eauto.
      * intros; apply T; right; assumption.
    + exfalso. eapply IH; eauto.
    + discriminate.
Qed.

Lemma while_adj_returns k n2 val t s s' :
  while_adj (fun m v => connect k m n2 v) val t s = Return s' ->
  Loop n2 val t s s'.
Proof.
  apply while_adj_Loop. intros. eapply connect_Connect; eauto.
Qed.

(** ** [connect] against the search for the first path *)

Lemma seen_in_In seen p : seen_in seen p = true <-> In p seen.
Proof.
  unfold seen_in. rewrite existsb_exists. split.
  - intros (x & I & E). apply Nat.eqb_eq in E. subst; assumption.
  - intros I. exists p. split; [assumption|apply Nat.eqb_refl].
Qed.

Lemma agree_seen_in l seen p :
  agree l seen -> p < length l -> seen_in seen p = visited_at l p.
Proof.
  intros A L. specialize (A p L). pose proof (seen_in_In seen p) as S.
  destruct (seen_in seen p), (visited_at l p); try reflexivity.
  - symmetry. apply A, S. reflexivity.
  - apply S, A. reflexivity.
Qed.

Lemma agree_enter n1 n2 val s seen :
  agree (unit_list s) seen -> n1 < length (unit_list s) ->
  agree (unit_list (enter n1 n2 val s)) (n1 :: seen).
Proof.
  intros A L p Lp. rewrite unit_list_enter in *.
  rewrite update_length in Lp. rewrite visited_at_mark.
  apply Nat.ltb_lt in L. rewrite L, andb_true_r.
  specialize (A p Lp). simpl.
  destruct (Nat.eqb_spec p n1) as [->|N]; simpl.
  - split; auto.
  - rewrite A. split; [auto|]. intros [E|I]; [congruence|exact I].
Qed.

Lemma apply_edge_accumulate e val v p :
  apply_edge e val = Some v -> accumulate val (e :: p) = accumulate v p.
Proof.
  unfold apply_edge. simpl. destruct (inverse e).
  - destruct (val =? 0)%float; [discriminate|]. intros H; injection H as <-.
    reflexivity.
  - intros H; injection H as <-. reflexivity.
Qed.

Section Refinement.

Variable l : list node.
Variable n2 : ptr.
Hypothesis closed : closed_edges l.

Lemma loop_refines_weaken e t val s s' r :
  loop_refines l n2 t val s s' r -> loop_refines l n2 (e :: t) val s s' r.
Proof.
  destruct r as [p| |]; simpl; auto.
  intros ((e' & p' & E & I & C) & R). split; [|exact R].
  exists e', p'. split; [exact E|]. split; [right; exact I|exact C].
Qed.

Lemma while_adj_search k :
  (forall n1 val s s' seen,
      connect k n1 n2 val s = Return s' ->
      same_graph l (unit_list s) -> n1 < length l ->
      agree (unit_list s) seen ->
      refines l n2 n1 val s s' (search k l n1 n2 seen)) ->
  forall val t s s' seen,
    while_adj (fun m v => connect k m n2 v) val t s = Return s' ->
    same_graph l (unit_list s) ->
    agree (unit_list s) seen ->
    (forall e, In e t -> to_node e < length l) ->
    loop_refines l n2 t val s s'
      (search_adj (fun m sn => search k l m n2 sn) t seen).
Proof.
  intros IH val t.
  induction t as [|e t IHt]; intros s s' seen H S A T.
  - simpl in H. injection H as <-. simpl. auto.
  - rewrite while_adj_cons in H. simpl search_adj.
    assert (Le : to_node e < length l) by (apply T; left; reflexivity).
    assert (T' : forall e', In e' t -> to_node e' < length l)
      by (intros; apply T; right; assumption).
    rewrite (agree_seen_in _ _ _ A) by (destruct S as [-> _]; exact Le).
    destruct (visited_at (unit_list s) (to_node e)) eqn:V.
    + apply loop_refines_weaken. apply IHt; auto.
    + destruct (apply_edge e val) as [v|] eqn:Ap; [|discriminate].
      destruct (connect k (to_node e) n2 v s) as [s1| |] eqn:C;
        try discriminate.
      pose proof (IH _ _ _ _ seen C S Le A) as R.
      pose proof (connect_Connect _ _ _ _ _ _ C) as CC.
      pose proof (proj1 (Connect_same_graph n2) _ _ _ _ CC) as S1.
      assert (S' := same_graph_trans _ _ _ S S1).
      destruct (search k l (to_node e) n2 seen) as [p|seen'|].
      * destruct R as (Ch & F & Rs & Vs).
        pose proof (while_adj_returns _ _ _ _ _ _ H) as LL.
        destruct (proj2 (Connect_keeps n2) _ _ _ _ LL Vs) as [R' F'].
        cbv beta iota. unfold loop_refines.
        split; [exists e, p; repeat split; auto; left; reflexivity|].
        rewrite R', F', Rs, (apply_edge_accumulate _ _ _ p Ap).
        repeat split; auto.
        eapply (proj2 (Connect_marks_kept n2)); eauto.
      * destruct R as (A1 & Rs & F).
        apply loop_refines_weaken.
        specialize (IHt _ _ _ H S' A1 T').
        destruct (search_adj _ t seen') as [p|seen''|]; simpl in *; auto.
        destruct IHt as (X & Y & Z). split; [exact X|split; congruence].
      * destruct R.
Qed.

Lemma connect_search k : forall n1 val s s' seen,
  connect k n1 n2 val s = Return s' ->
  same_graph l (unit_list s) -> n1 < length l ->
  agree (unit_list s) seen ->
  refines l n2 n1 val s s' (search k l n1 n2 seen).
Proof.
  induction k as [|k IH]; intros n1 val s s' seen H S L A; [discriminate|].
  rewrite connect_S in H.
  pose proof (same_graph_enter n1 n2 val s) as S1.
  assert (S' := same_graph_trans _ _ _ S S1).
  assert (Ls : n1 < length (unit_list s)) by (destruct S as [-> _]; exact L).
  simpl search. destruct (Nat.eqb_spec n1 n2) as [E|N].
  - pose proof (while_adj_returns _ _ _ _ _ _ H) as LL.
    assert (V : visited_at (unit_list (enter n1 n2 val s)) n2 = true)
      by (rewrite <- E; apply visited_at_enter, Ls).
    destruct (proj2 (Connect_keeps n2) _ _ _ _ LL V) as [R F].
    simpl. rewrite R, F, result_enter, found_enter.
    apply Nat.eqb_eq in E. rewrite E. repeat split; auto.
    + apply Nat.eqb_eq, E.
    + eapply (proj2 (Connect_marks_kept n2)); eauto.
  - pose proof (@while_adj_search k IH) as Q.
    specialize (Q val _ _ _ (n1 :: seen) H S' (@agree_enter n1 n2 val s seen A Ls)).
    assert (Ad : adj_at (unit_list (enter n1 n2 val s)) n1 = adj_at l n1)
      by (destruct S' as [_ ->]; reflexivity).
    rewrite Ad in Q.
    assert (T : forall e, In e (adj_at l n1) -> to_node e < length l)
      by (intros e; apply closed).
    specialize (Q T).
    destruct (search_adj _ (adj_at l n1) (n1 :: seen)) as [p|seen'|];
      unfold loop_refines in Q; unfold refines; [| |exact Q].
    + destruct Q as ((e & p' & -> & I & C) & F & R & V).
      split; [split; assumption|]. auto.
    + destruct Q as (A' & R & F).
      rewrite R, F, result_enter, found_enter.
      apply Nat.eqb_neq in N. rewrite N. split; [exact A'|split; reflexivity].
Qed.

End Refinement.

(** ** [convert] *)

Lemma convert_found from_unit to_unit fu tu value s :
  find_node from_unit (unit_list s) = Some fu ->
  find_node to_unit (unit_list s) = Some tu ->
  convert value from_unit to_unit s =
  match connect (S (length (unit_list s))) fu tu value
                (mk_globals (unit_list s) (result s) false) with
  | Return s' => if negb (found s') then Exit NoConversionPath
                 else Return (result s', s')
  | Exit x => Exit x
  | OutOfFuel => OutOfFuel
  end.
Proof. intros F T. unfold convert. rewrite F, T. reflexivity. Qed.

(** The fuel [convert] gives to [connect] is enough. *)
Lemma convert_connect_fuel fu tu value s :
  closed_edges (unit_list s) -> fu < length (unit_list s) ->
  connect (S (length (unit_list s))) fu tu value
          (mk_globals (unit_list s) (result s) false) <> OutOfFuel.
Proof.
  intros W L. apply connect_enough_fuel; auto.
  eapply Nat.le_lt_trans; [apply unmarked_count_length|].
  rewrite unit_list_enter, update_length. simpl. lia.
Qed.

Lemma agree_unmarked l : unmarked l = true -> agree l [].
Proof.
  intros U p _. rewrite (@unmarked_at l p U). simpl. split; [discriminate|tauto].
Qed.

(** On a graph without marks, [convert] follows the first path. *)
Lemma convert_first_path value from_unit to_unit fu tu s :
  well_formed (unit_list s) = true -> unmarked (unit_list s) = true ->
  find_node from_unit (unit_list s) = Some fu ->
  find_node to_unit (unit_list s) = Some tu ->
  convert value from_unit to_unit s = Exit DivisionByZero \/
  match first_path (unit_list s) fu tu with
  | Some p =>
      chain (unit_list s) p fu tu /\
      exists s', convert value from_unit to_unit s
                 = Return (accumulate value p, s')
  | None => convert value from_unit to_unit s = Exit NoConversionPath
  end.
Proof.
  intros W U F T.
  assert (C : closed_edges (unit_list s))
    by (intros p e; apply well_formed_adj, W).
  pose proof (@find_node_lt _ _ _ F) as L.
  rewrite (@convert_found _ _ _ _ value _ F T).
  pose proof (@convert_connect_fuel fu tu value s C L) as NF.
  destruct (connect _ fu tu value _) as [s'|x|] eqn:E.
  - right.
    pose proof (@connect_search (unit_list s) tu C _ _ _ _ _ [] E
                  (same_graph_refl _) L (@agree_unmarked _ U)) as R.
    unfold first_path.
    destruct (search _ (unit_list s) fu tu []) as [p|seen|];
      unfold refines in R.
    + destruct R as (Ch & Fd & Rs & _). rewrite Fd, Rs. simpl. eauto.
    + destruct R as (_ & _ & Fd). rewrite Fd. reflexivity.
    + destruct R.
  - left. apply connect_exit in E. congruence.
  - congruence.
Qed.

(** On a graph without marks, a chain of relations to a node makes
    [connect] mark it. *)
Lemma Connect_complete n2 n1 val s s' :
  Connect n2 n1 val s s' ->
  closed_edges (unit_list s) -> unmarked (unit_list s) = true ->
  n1 < length (unit_list s) ->
  forall x, connected (unit_list s) n1 x -> visited_at (unit_list s') x = true.
Proof.
  intros C W U L x [p Ch].
  pose proof (Connect_marks_entry _ _ _ _ _ C L) as V.
  pose proof (proj1 (Connect_closure n2) _ _ _ _ C W) as Cl.
  revert V Ch. generalize n1 as a. clear C L.
  induction p as [|e p IH]; simpl; intros a V Ch.
  - congruence.
  - destruct Ch as [I Ch]. apply (IH (to_node e)); [|exact Ch].
    apply (Cl a e); auto. apply unmarked_at, U.
Qed.

(** A conversion of a unit to itself returns the value, unless the
    search that goes on from there meets the division by zero. *)
Lemma convert_self value from_unit a s :
  well_formed (unit_list s) = true ->
  find_node from_unit (unit_list s) = Some a ->
  convert value from_unit from_unit s = Exit DivisionByZero \/
  exists s', convert value from_unit from_unit s = Return (value, s').
Proof.
  intros W F.
  assert (C : closed_edges (unit_list s))
    by (intros p e; apply well_formed_adj, W).
  pose proof (@find_node_lt _ _ _ F) as L.
  rewrite (@convert_found _ _ _ _ value _ F F).
  pose proof (@convert_connect_fuel a a value s C L) as NF.
  destruct (connect _ a a value _) as [s'|x|] eqn:E.
  - right. rewrite connect_S in E. apply while_adj_returns in E.
    apply (proj2 (Connect_keeps a)) in E.
    + destruct E as [R Fd]. rewrite Fd, R, found_enter, result_enter.
      rewrite Nat.eqb_refl. simpl. eauto.
    + apply visited_at_enter. exact L.
  - left. apply connect_exit in E. congruence.
  - congruence.
Qed.

(** Without a chain of relations to the destination, [found] stays
    unset. *)
Lemma Connect_unconnected n2 n1 val s s' :
  Connect n2 n1 val s s' ->
  closed_edges (unit_list s) -> n1 < length (unit_list s) ->
  ~ connected (unit_list s) n1 n2 -> found s' = found s.
Proof.
  intros C W L N.
  rewrite (proj1 (Connect_found n2) _ _ _ _ C W L).
  destruct (Nat.eqb_spec n1 n2) as [E|E].
  - exfalso. apply N. rewrite E. apply connected_refl.
  - destruct (visited_at (unit_list s) n2) eqn:V; simpl.
    + rewrite !orb_false_r. reflexivity.
    + destruct (visited_at (unit_list s') n2) eqn:V'; simpl.
      * exfalso. apply N. eapply (proj1 (Connect_reaches n2)); eauto.
      * rewrite !orb_false_r. reflexivity.
Qed.

(** ** The graph builder keeps the graph in order *)

Lemma In_deref t l : In t l -> exists p, deref l p = Some t.
Proof.
  induction l as [|x l IH]; simpl; [tauto|].
  intros [<-|I].
  - exists (length l). rewrite Nat.eqb_refl; reflexivity.
  - destruct (IH I) as (p & D). exists p.
    pose proof (deref_lt _ _ _ D).
    destruct (Nat.eqb_spec p (length l)); [lia|exact D].
Qed.

Lemma adj_at_forallb (f : edge -> bool) l p e :
  forallb (fun t => forallb f (adj_list t)) l = true ->
  In e (adj_at l p) -> f e = true.
Proof.
  unfold adj_at. induction l as [|x l IH]; simpl; [tauto|].
  intros W. apply andb_true_iff in W as [W1 W2].
  destruct (p =? length l); [|exact (IH W2)].
  intros I. rewrite forallb_forall in W1. apply W1, I.
Qed.

Lemma at_unmarked l : (forall p, visited_at l p = false) -> unmarked l = true.
Proof.
  intros H. apply forallb_forall. intros t I.
  destruct (In_deref _ _ I) as (p & D).
  specialize (H p). unfold visited_at in H. rewrite D in H.
  rewrite H. reflexivity.
Qed.

Lemma adj_at_cons t l p :
  adj_at (t :: l) p = if p =? length l then adj_list t else adj_at l p.
Proof. unfold adj_at. simpl. destruct (p =? length l); reflexivity. Qed.

Lemma visited_at_cons t l p :
  visited_at (t :: l) p = if p =? length l then visited t else visited_at l p.
Proof. unfold visited_at. simpl. destruct (p =? length l); reflexivity. Qed.

Lemma add_node_new new_name new_long_name s :
  find_node new_name (unit_list s) = None ->
  add_node new_name new_long_name s
  = mk_globals (mk_node new_name new_long_name [] false :: unit_list s)
               (result s) (found s).
Proof. unfold add_node. intros ->. reflexivity. Qed.

Lemma add_node_in_order new_name new_long_name s :
  well_formed (unit_list s) = true -> unmarked (unit_list s) = true ->
  well_formed (unit_list (add_node new_name new_long_name s)) = true /\
  unmarked (unit_list (add_node new_name new_long_name s)) = true.
Proof.
  intros W U. unfold add_node.
  destruct (find_node new_name (unit_list s)); [auto|]. simpl unit_list.
  split.
  - apply adj_well_formed. intros p e. rewrite adj_at_cons. simpl.
    destruct (p =? length (unit_list s)); [intros []|].
    intros I. apply (well_formed_adj _ _ _ W) in I. lia.
  - apply at_unmarked. intros p. rewrite visited_at_cons. simpl.
    destruct (p =? length (unit_list s)); [reflexivity|].
    apply unmarked_at, U.
Qed.

Lemma add_edge_returns name1 fac12 name2 inversion s s' :
  add_edge name1 fac12 name2 inversion s = Return s' ->
  exists n1 n2,
    (fac12 =? 0)%float = false /\
    find_node name1 (unit_list s) = Some n1 /\
    find_node name2 (unit_list s) = Some n2 /\
    s' = mk_globals
           (update (push_edge (mk_edge n1 (if negb inversion
                                           then (1 / fac12)%float
                                           else fac12) inversion)) n2
              (update (push_edge (mk_edge n2 fac12 inversion)) n1
                 (unit_list s)))
           (result s) (found s).
Proof.
  unfold add_edge. destruct (fac12 =? 0)%float; [discriminate|].
  destruct (find_node name1 (unit_list s)) as [n1|]; [|discriminate].
  destruct (find_node name2 (unit_list s)) as [n2|]; [|discriminate].
  intros H; injection H as <-. exists n1, n2. auto.
Qed.

Lemma add_edge_in_order name1 fac12 name2 inversion s s' :
  add_edge name1 fac12 name2 inversion s = Return s' ->
  well_formed (unit_list s) = true -> unmarked (unit_list s) = true ->
  well_formed (unit_list s') = true /\ unmarked (unit_list s') = true.
Proof.
  intros H W U.
  destruct (add_edge_returns _ _ _ _ _ _ H) as (n1 & n2 & _ & F1 & F2 & ->).
  apply find_node_lt in F1, F2. simpl unit_list. split.
  - apply adj_well_formed. intros p e.
    rewrite !update_length, !adj_at_push, update_length.
    intros I.
    assert (D : In e (adj_at (unit_list s) p) \/ to_node e = n1
                \/ to_node e = n2).
    { destruct ((p =? n2) && (n2 <? length (unit_list s)));
        destruct ((p =? n1) && (n1 <? length (unit_list s)));
        simpl in I; intuition (subst; auto). }
    destruct D as [D|[D|D]]; [|lia|lia].
    apply (well_formed_adj _ _ _ W D).
  - apply at_unmarked. intros p. rewrite !visited_at_push.
    apply unmarked_at, U.
Qed.

Lemma load_in_order recs : forall s s',
  load recs s = Return s' ->
  well_formed (unit_list s) = true -> unmarked (unit_list s) = true ->
  well_formed (unit_list s') = true /\ unmarked (unit_list s') = true.
Proof.
  induction recs as [|r recs IH]; intros s s'; simpl.
  - intros H; injection H as <-. auto.
  - destruct r as [n ln|a f b i].
    + intros H W U.
      destruct (add_node_in_order n ln s W U) as [W' U']. eauto.
    + destruct (add_edge a f b i s) as [s1| |] eqn:E; try discriminate.
      intros H W U.
      destruct (add_edge_in_order _ _ _ _ _ _ E W U) as [W' U']. eauto.
Qed.

Lemma load_initial_in_order recs s :
  load recs initial = Return s ->
  well_formed (unit_list s) = true /\ unmarked (unit_list s) = true.
Proof. intros H. apply (load_in_order _ _ _ H); reflexivity. Qed.

Lemma load_app before after : forall s,
  load (before ++ after) s =
  match load before s with
  | Return s' => load after s'
  | Exit x => Exit x
  | OutOfFuel => OutOfFuel
  end.
Proof.
  induction before as [|r before IH]; intros s; simpl; [reflexivity|].
  destruct r as [n ln|a f b i]; [apply IH|].
  destruct (add_edge a f b i s); auto.
Qed.

Lemma load_exit recs : forall s x,
  load recs s = Exit x ->
  exists before name1 fac12 name2 inversion after s1,
    recs = before ++ DefineRelation name1 fac12 name2 inversion :: after /\
    load before s = Return s1 /\
    add_edge name1 fac12 name2 inversion s1 = Exit x.
Proof.
  induction recs as [|r recs IH]; intros s x; simpl; [discriminate|].
  destruct r as [n ln|a f b i].
  - intros H. destruct (IH _ _ H) as (bf & n1 & f & n2 & i & af & s1 & -> & L & E).
    exists (DefineUnit n ln :: bf), n1, f, n2, i, af, s1.
    split; [reflexivity|]. split; [exact L|exact E].
  - destruct (add_edge a f b i s) as [s1|y|] eqn:A; [| |discriminate].
    + intros H.
      destruct (IH _ _ H) as (bf & n1 & f' & n2 & i' & af & s2 & -> & L & E).
      exists (DefineRelation a f b i :: bf), n1, f', n2, i', af, s2.
      split; [reflexivity|]. split; [|exact E]. simpl. rewrite A. exact L.
    + intros H; injection H as ->.
      exists [], a, f, b, i, recs, s.
      split; [reflexivity|]. split; [reflexivity|exact A].
Qed.

Lemma isolated_unconnected l a b :
  isolated l b = true -> a <> b -> ~ connected l a b.
Proof.
  intros I N [p C]. revert a N C.
  induction p as [|e p IH]; simpl; intros a N C; [auto|].
  destruct C as [J C].
  apply (adj_at_forallb _ _ _ _ I) in J.
  apply negb_true_iff, Nat.eqb_neq in J. eauto.
Qed.

(** ** Where the loop of [connect] gets to *)

Lemma while_adj_division rec val e t s :
  visited_at (unit_list s) (to_node e) = false ->
  inverse e = true -> (val =? 0)%float = true ->
  while_adj rec val (e :: t) s = Exit DivisionByZero.
Proof. intros V I Z. simpl. rewrite V, I, Z. reflexivity. Qed.

Lemma within_division n2 k val t s k' val' e t' s' :
  within n2 k val t s k' val' (e :: t') s' ->
  visited_at (unit_list s') (to_node e) = false ->
  inverse e = true -> (val' =? 0)%float = true ->
  while_adj (fun m v => connect k m n2 v) val t s = Exit DivisionByZero.
Proof.
  intros W. remember (e :: t') as u eqn:Eu.
  induction W as [k val t s|k val e0 t s k' val' u s' V W IH
                  |k val e0 t s v k' val' u s' V A W IH
                  |k val e0 t s v s1 k' val' u s' V A C W IH];
    intros V' I Z; subst.
  - apply while_adj_division; assumption.
  - rewrite while_adj_cons, V. apply IH; auto.
  - rewrite while_adj_cons, V, A, connect_S, IH; auto.
  - rewrite while_adj_cons, V, A, C. apply IH; auto.
Qed.

Lemma apply_edge_none e val :
  apply_edge e val = None -> inverse e = true /\ (val =? 0)%float = true.
Proof.
  unfold apply_edge. destruct (inverse e); [|discriminate].
  destruct (val =? 0)%float; [auto|discriminate].
Qed.

Lemma exit_within n2 k : forall val t s x,
  while_adj (fun m v => connect k m n2 v) val t s = Exit x ->
  exists k' val' e t' s',
    within n2 k val t s k' val' (e :: t') s' /\
    visited_at (unit_list s') (to_node e) = false /\
    inverse e = true /\ (val' =? 0)%float = true.
Proof.
  induction k as [|k IH]; intros val t; induction t as [|e t IHt];
    intros s x; try (simpl; discriminate); rewrite while_adj_cons;
    destruct (visited_at (unit_list s) (to_node e)) eqn:V.
  - intros H. destruct (IHt _ _ H) as (k' & v' & e' & t' & s' & W & R).
    exists k', v', e', t', s'. split; [apply within_skip; assumption|exact R].
  - destruct (apply_edge e val) as [v|] eqn:A; [simpl; discriminate|].
    intros _. destruct (apply_edge_none _ _ A) as [I Z].
    exists 0, val, e, t, s. split; [apply within_here|auto].
  - intros H. destruct (IHt _ _ H) as (k' & v' & e' & t' & s' & W & R).
    exists k', v', e', t', s'. split; [apply within_skip; assumption|exact R].
  - destruct (apply_edge e val) as [v|] eqn:A.
    + destruct (connect (S k) (to_node e) n2 v s) as [s1|y|] eqn:C;
        [| |discriminate].
      * intros H. destruct (IHt _ _ H) as (k' & v' & e' & t' & s' & W & R).
        exists k', v', e', t', s'.
        split; [eapply within_next; eassumption|exact R].
      * intros _. rewrite connect_S in C.
        destruct (IH _ _ _ _ C) as (k' & v' & e' & t' & s' & W & R).
        exists k', v', e', t', s'.
        split; [eapply within_call; eassumption|exact R].
    + intros _. destruct (apply_edge_none _ _ A) as [I Z].
      exists (S k), val, e, t, s. split; [apply within_here|auto].
Qed.

(** [convert] stops on the division by zero exactly when the search
    comes to it. *)
Lemma convert_division value from_unit to_unit fu tu s :
  find_node from_unit (unit_list s) = Some fu ->
  find_node to_unit (unit_list s) = Some tu ->
  (convert value from_unit to_unit s = Exit DivisionByZero
   <-> meets_division value fu tu s).
Proof.
  intros F T. split.
  - rewrite (convert_found _ _ _ _ value _ F T), connect_S.
    destruct (while_adj _ value _ _) as [s'|x|] eqn:E.
    + destruct (negb (found s')); discriminate.
    + intros _. apply exit_within in E. exact E.
    + discriminate.
  - intros (k & val & e & t & s' & W & V & I & Z).
    rewrite (convert_found _ _ _ _ value _ F T), connect_S.
    rewrite (within_division _ _ _ _ _ _ _ _ _ _ W V I Z). reflexivity.
Qed.

(** ** More on [convert] *)

Lemma convert_returns value from_unit to_unit s r s' :
  convert value from_unit to_unit s = Return (r, s') ->
  exists fu tu,
    find_node from_unit (unit_list s) = Some fu /\
    find_node to_unit (unit_list s) = Some tu /\
    Connect tu fu value (mk_globals (unit_list s) (result s) false) s' /\
    found s' = true /\ r = result s'.
Proof.
  unfold convert.
  destruct (find_node from_unit (unit_list s)) as [fu|]; [|discriminate].
  destruct (find_node to_unit (unit_list s)) as [tu|]; [|discriminate].
  destruct (connect _ fu tu value _) as [s1| |] eqn:E; try discriminate.
  destruct (found s1) eqn:Fd; simpl; [|discriminate].
  intros H; injection H as <- <-.
  exists fu, tu. split; [reflexivity|]. split; [reflexivity|].
  split; [eapply connect_Connect; eauto|]. split; [exact Fd|reflexivity].
Qed.

Lemma convert_connected value from_unit to_unit fu tu s :
  well_formed (unit_list s) = true -> unmarked (unit_list s) = true ->
  find_node from_unit (unit_list s) = Some fu ->
  find_node to_unit (unit_list s) = Some tu ->
  connected (unit_list s) fu tu ->
  convert value from_unit to_unit s <> Exit NoConversionPath.
Proof.
  intros W U F T Cn.
  assert (C : closed_edges (unit_list s))
    by (intros p e; apply well_formed_adj, W).
  pose proof (find_node_lt _ _ _ F) as L.
  rewrite (convert_found _ _ _ _ value _ F T).
  destruct (connect _ fu tu value _) as [s'|x|] eqn:E.
  - apply connect_Connect in E.
    pose proof (Connect_complete _ _ _ _ _ E C U L tu Cn) as V.
    rewrite (proj1 (Connect_found tu) _ _ _ _ E C L).
    simpl unit_list. rewrite V, (unmarked_at _ tu U).
    simpl. rewrite orb_true_r. simpl. discriminate.
  - apply connect_exit in E. congruence.
  - discriminate.
Qed.

Lemma convert_linear value from_unit to_unit s :
  linear (unit_list s) = true ->
  convert value from_unit to_unit s <> Exit DivisionByZero.
Proof.
  intros Ln. unfold convert.
  destruct (find_node from_unit (unit_list s)) as [fu|]; [|discriminate].
  destruct (find_node to_unit (unit_list s)) as [tu|]; [|discriminate].
  destruct (connect _ fu tu value _) as [s1|x|] eqn:E.
  - destruct (negb (found s1)); discriminate.
  - exfalso. revert E. apply connect_linear.
    intros p e. apply linear_adj, Ln.
  - discriminate.
Qed.

(** [convert] and [main] never stop for want of fuel. *)
Lemma convert_fuel_enough value from_unit to_unit s :
  well_formed (unit_list s) = true ->
  convert value from_unit to_unit s <> OutOfFuel.
Proof.
  intros W. unfold convert.
  destruct (find_node from_unit (unit_list s)) as [fu|] eqn:F; [|discriminate].
  destruct (find_node to_unit (unit_list s)) as [tu|]; [|discriminate].
  assert (C : closed_edges (unit_list s))
    by (intros p e; apply well_formed_adj, W).
  pose proof (convert_connect_fuel fu tu value s C (find_node_lt _ _ _ F)) as NF.
  unfold connect_fuel. simpl unit_list.
  destruct (connect _ fu tu value _) as [s'|x|]; [|discriminate|congruence].
  destruct (negb (found s')); discriminate.
Qed.

Lemma load_fuel_enough recs : forall s, load recs s <> OutOfFuel.
Proof.
  induction recs as [|r recs IH]; intros s; simpl; [discriminate|].
  destruct r as [n ln|a f b i]; [apply IH|].
  destruct (add_edge a f b i s) as [s1|x|] eqn:E;
    [apply IH|discriminate|].
  unfold add_edge in E. destruct (f =? 0)%float; [discriminate|].
  destruct (find_node a (unit_list s)); [|discriminate].
  destruct (find_node b (unit_list s)); discriminate.
Qed.

Lemma main_fuel_enough recs request : main recs request <> OutOfFuel.
Proof.
  unfold main. destruct (load recs initial) as [s|x|] eqn:L;
    [|discriminate|exfalso; exact (load_fuel_enough _ _ L)].
  destruct request as [[[value from_unit] to_unit]|]; [|discriminate].
  pose proof (convert_fuel_enough value from_unit to_unit s
                (proj1 (load_initial_in_order _ _ L))) as N.
  destruct (convert value from_unit to_unit s) as [[r s']|x|];
    [discriminate|discriminate|congruence].
Qed.

Lemma connected_extend l a b e :
  connected l a b -> In e (adj_at l b) -> connected l a (to_node e).
Proof.
  intros [p C] I. exists (p ++ [e]). revert a C.
  induction p as [|x p IH]; simpl; intros a C.
  - subst b. auto.
  - destruct C as [J C]. split; [exact J|apply IH, C].
Qed.

Lemma while_adj_all_marked rec val t s :
  (forall e, In e t -> visited_at (unit_list s) (to_node e) = true) ->
  while_adj rec val t s = Return s.
Proof.
  induction t as [|e t IH]; intros H; [reflexivity|].
  rewrite while_adj_cons, (H e) by (left; reflexivity).
  apply IH. intros e' I. apply H. right; exact I.
Qed.

(** After a call of [convert] that returned on an unmarked graph, a
    call between two different units of which the first is connected to
    the source of that call finds nothing: every neighbour is marked. *)
Lemma convert_after_convert value from_unit to_unit fu r s s'
    value2 from2 to2 fu2 tu2 :
  well_formed (unit_list s) = true -> unmarked (unit_list s) = true ->
  find_node from_unit (unit_list s) = Some fu ->
  convert value from_unit to_unit s = Return (r, s') ->
  find_node from2 (unit_list s') = Some fu2 ->
  find_node to2 (unit_list s') = Some tu2 ->
  fu2 <> tu2 -> connected (unit_list s) fu fu2 ->
  convert value2 from2 to2 s' = Exit NoConversionPath.
Proof.
  intros W U F Cv F2 T2 N Cn.
  destruct (convert_returns _ _ _ _ _ _ Cv) as (fu' & tu & F' & _ & C & _).
  assert (fu' = fu) by congruence. subst fu'.
  assert (Cl : closed_edges (unit_list s))
    by (intros p e; apply well_formed_adj, W).
  pose proof (Connect_complete _ _ _ _ _ C Cl U (find_node_lt _ _ _ F)) as M.
  pose proof (proj1 (Connect_same_graph tu) _ _ _ _ C) as [_ A].
  simpl unit_list in M, A.
  rewrite (convert_found _ _ _ _ value2 _ F2 T2), connect_S.
  rewrite while_adj_all_marked.
  - rewrite found_enter. apply Nat.eqb_neq in N. rewrite N. reflexivity.
  - intros e I. rewrite adj_at_enter in I. simpl unit_list in I.
    rewrite A in I. apply marks_kept_enter. simpl unit_list.
    apply M. apply connected_extend with fu2; assumption.
Qed.

Lemma first_path_head l a b e t :
  a < length l -> a <> b -> adj_at l a = e :: t -> to_node e = b ->
  first_path l a b = Some [e].
Proof.
  intros L N A E. unfold first_path. simpl search.
  apply Nat.eqb_neq in N. rewrite N, A. simpl search_adj.
  unfold seen_in. simpl existsb. rewrite E, Nat.eqb_sym, N. simpl.
  destruct (length l) as [|k]; [lia|].
  simpl. rewrite Nat.eqb_refl. reflexivity.
Qed.

(** ** The relations [add_edge] inserts, the listing *)

Lemma allowed_units_update f p l :
  (forall t, name (f t) = name t /\ long_name (f t) = long_name t) ->
  map (fun t => (name t, long_name t)) (update f p l)
  = map (fun t => (name t, long_name t)) l.
Proof.
  intros N. induction l as [|x l IH]; simpl; [reflexivity|].
  destruct (p =? length l); simpl.
  - destruct (N x) as [-> ->]. reflexivity.
  - rewrite IH. reflexivity.
Qed.

Lemma pushed_update e p l :
  p < length l -> pushed e p l (update (push_edge e) p l).
Proof.
  intros L. apply Nat.ltb_lt in L. repeat split.
  - rewrite adj_at_push, Nat.eqb_refl, L. reflexivity.
  - intros q N. rewrite adj_at_push. apply Nat.eqb_neq in N.
    rewrite N. reflexivity.
  - intros q. apply visited_at_push.
  - apply allowed_units_update. intros t; split; reflexivity.
Qed.

Lemma existsb_rev_eq (A : Type) (f : A -> bool) l :
  existsb f (rev l) = existsb f l.
Proof.
  induction l as [|x l IH]; simpl; [reflexivity|].
  rewrite existsb_app, IH. simpl. rewrite orb_false_r. apply orb_comm.
Qed.

Lemma find_node_known nm l :
  existsb (fun u => String.eqb nm (fst u))
          (map (fun t => (name t, long_name t)) l)
  = match find_node nm l with Some _ => true | None => false end.
Proof.
  induction l as [|x l IH]; simpl; [reflexivity|].
  destruct (String.eqb nm (name x)); [reflexivity|exact IH].
Qed.

Lemma add_edge_allowed_units name1 fac12 name2 inversion s s' :
  add_edge name1 fac12 name2 inversion s = Return s' ->
  allowed_units s' = allowed_units s.
Proof.
  intros H.
  destruct (add_edge_returns _ _ _ _ _ _ H) as (n1 & n2 & _ & _ & _ & ->).
  unfold allowed_units. simpl unit_list.
  rewrite !allowed_units_update by (intros t; split; reflexivity).
  reflexivity.
Qed.

Lemma load_allowed_units recs : forall s s',
  load recs s = Return s' ->
  allowed_units s' = rev (registered recs (rev (allowed_units s))).
Proof.
  induction recs as [|r recs IH]; intros s s'; simpl.
  - intros H; injection H as <-. rewrite rev_involutive. reflexivity.
  - destruct r as [n ln|a f b i].
    + intros H. rewrite (IH _ _ H). rewrite existsb_rev_eq.
      unfold allowed_units at 2. rewrite find_node_known.
      unfold add_node.
      destruct (find_node n (unit_list s)); reflexivity.
    + destruct (add_edge a f b i s) as [s1| |] eqn:E; try discriminate.
      intros H. rewrite (IH _ _ H).
      rewrite (add_edge_allowed_units _ _ _ _ _ _ E). reflexivity.
Qed.

(** ** A relation that is the only one of its two units *)


(** ** The example files at work *)

Example yards_first_path :
  exists s', convert 1 "yd" "in" (loaded yards) = Return (36%float, s').
Proof. vm_compute. eauto. Qed.

Example photon_wavelength :
  exists s', convert 2 "eV" "nm" (loaded photon) = Return (620%float, s').
Proof. vm_compute. eauto. Qed.

(** A relation of the meter to itself with the factor 2: both units are
    defined and the factor is not zero, and the head of the list of the
    meter is the relation back, of factor 1/2, with the relation of the
    call behind it. *)
Example add_edge_self_relation :
  find_node "m" (unit_list (loaded [DefineUnit "m" "meter"])) = Some 0 /\
  (2 =? 0)%float = false /\
  exists s',
    add_edge "m" 2 "m" false (loaded [DefineUnit "m" "meter"]) = Return s' /\
    adj_at (unit_list s') 0 = [mk_edge 0 0x1p-1 false; mk_edge 0 2 false] /\
    hd_error (adj_at (unit_list s') 0) <> Some (mk_edge 0 2 false).
Proof.
  split; [reflexivity|]. split; [reflexivity|].
  eexists. split; [reflexivity|]. split; [reflexivity|].
  intros H.
  apply (f_equal (fun o => match o with
                           | Some e => (factor e =? 2)%float
                           | None => false
                           end)) in H.
  vm_compute in H. discriminate H.
Qed.

(** ** The rounding of a division

    [div_spec] of the standard library says what the division of two
    doubles is: the quotient of the mantissas with the place of the
    remainder ([SFdiv_core_binary]), shifted to the exponent of the
    format and rounded to nearest, ties to even ([binary_round_aux]).
    The lemmas follow the real quotient through these steps. *)

Section Rounding.

Local Open Scope R_scope.

Lemma IZR_xO p : IZR (Zpos p~0) = 2 * IZR (Zpos p).
Proof. rewrite Pos2Z.inj_xO, mult_IZR. reflexivity. Qed.

Lemma IZR_xI p : IZR (Zpos p~1) = 2 * IZR (Zpos p) + 1.
Proof. rewrite Pos2Z.inj_xI, plus_IZR, mult_IZR. reflexivity. Qed.

Lemma located_shr_1 T mrs : located T mrs -> located (T / 2) (shr_1 mrs).
Proof.
  destruct mrs as [m r s]. unfold located. simpl shr_m.
  intros [P H].
  destruct m as [|[p|p|]|p]; [| | | |lia];
    destruct r, s;
    cbn [shr_1 shr_m shr_r shr_s loc_of_shr_record inbetween orb] in H |- *;
    try rewrite (IZR_xO p) in H; try rewrite (IZR_xI p) in H;
    (split; [lia|]); lra.
Qed.

Lemma located_iter T p : forall mrs,
  located T mrs -> located (T / 2 ^ Pos.to_nat p) (iter_pos shr_1 p mrs).
Proof.
  revert T. induction p as [p IH|p IH|]; intros T mrs H; simpl iter_pos.
  - rewrite Pos2Nat.inj_xI. simpl pow. rewrite Nat.add_0_r, pow_add.
    apply located_shr_1 in H. apply IH in H. apply IH in H.
    replace (T / (2 * (2 ^ Pos.to_nat p * 2 ^ Pos.to_nat p)))
      with (T / 2 / 2 ^ Pos.to_nat p / 2 ^ Pos.to_nat p); [exact H|].
    field. apply pow_nonzero. lra.
  - rewrite Pos2Nat.inj_xO. simpl Nat.mul. rewrite Nat.add_0_r, pow_add.
    apply IH in H. apply IH in H.
    replace (T / (2 ^ Pos.to_nat p * 2 ^ Pos.to_nat p))
      with (T / 2 ^ Pos.to_nat p / 2 ^ Pos.to_nat p); [exact H|].
    field. apply pow_nonzero. lra.
  - simpl. rewrite Rmult_1_r. apply located_shr_1, H.
Qed.

Lemma inbetween_bounds T m l : inbetween T m l -> IZR m <= T < IZR m + 1.
Proof. destruct l as [|c]; simpl; [intros ->; lra|intros [H _]; lra]. Qed.

Lemma loc_of_shr_record_of_loc m l :
  loc_of_shr_record (shr_record_of_loc m l) = l /\
  shr_m (shr_record_of_loc m l) = m.
Proof. destruct l as [|[]]; split; reflexivity. Qed.

Lemma round_nearest_even_near T m l :
  inbetween T m l ->
  Rabs (IZR (round_nearest_even m l) - T) <= / 2 /\
  (m <= round_nearest_even m l <= m + 1)%Z.
Proof.
  destruct l as [|[]]; simpl; intros H.
  - subst T. split; [|lia]. rewrite Rminus_diag, Rabs_R0. lra.
  - destruct (Z.even m); [|rewrite plus_IZR]; (split; [|lia]);
      apply Rabs_le; lra.
  - split; [|lia]. apply Rabs_le; lra.
  - rewrite plus_IZR. split; [|lia]. apply Rabs_le; lra.
Qed.

(** *** Digits *)

Lemma digits2_pos_bounds p :
  (Zpos p < 2 ^ Zpos (digits2_pos p) <= 2 * Zpos p)%Z.
Proof.
  induction p as [p IH|p IH|]; simpl digits2_pos;
    rewrite ?Pos2Z.inj_succ, ?Z.pow_succ_r by lia; lia.
Qed.

Lemma Zdigits2_above m : (0 <= m)%Z -> (m < 2 ^ Zdigits2 m)%Z.
Proof.
  destruct m as [|p|p]; simpl; [lia| |lia].
  intros _. apply digits2_pos_bounds.
Qed.

Lemma Zdigits2_below m k :
  (0 <= m)%Z -> (0 <= k)%Z -> (m < 2 ^ k)%Z -> (Zdigits2 m <= k)%Z.
Proof.
  destruct m as [|p|p]; simpl; [lia| |lia].
  intros _ K H. pose proof (digits2_pos_bounds p) as [_ B].
  destruct (Z.le_gt_cases (Zpos (digits2_pos p)) k) as [L|G]; [exact L|].
  exfalso.
  assert (2 ^ (k + 1) <= 2 ^ Zpos (digits2_pos p))%Z
    by (apply Z.pow_le_mono_r; lia).
  rewrite Z.pow_add_r, Z.pow_1_r in H0 by lia. lia.
Qed.

Lemma Zdigits2_nonneg m : (0 <= Zdigits2 m)%Z.
Proof. destruct m; simpl; lia. Qed.

(** *** Powers of two *)

Lemma bpow_pos e : 0 < powerRZ 2 e.
Proof. apply powerRZ_lt. lra. Qed.

Lemma bpow_add a b : powerRZ 2 (a + b) = powerRZ 2 a * powerRZ 2 b.
Proof. apply powerRZ_add. lra. Qed.

Lemma bpow_Zpos p : powerRZ 2 (Zpos p) = 2 ^ Pos.to_nat p.
Proof. reflexivity. Qed.

Lemma pow_IZR_2 p : 2 ^ Pos.to_nat p = IZR (2 ^ Zpos p).
Proof. rewrite pow_IZR, positive_nat_Z. reflexivity. Qed.

Lemma bpow_nonneg_IZR e : (0 <= e)%Z -> powerRZ 2 e = IZR (2 ^ e).
Proof.
  destruct e as [|p|p]; [reflexivity| |lia].
  intros _. rewrite bpow_Zpos. apply pow_IZR_2.
Qed.

(** *** [shr_fexp] *)

Lemma shr_fexp_located t m e l :
  (0 <= m)%Z -> inbetween (t / powerRZ 2 e) m l ->
  exists mrs e1,
    shr_fexp 53 1024 m e l = (mrs, e1) /\
    located (t / powerRZ 2 e1) mrs /\
    (shr_m mrs < 2 ^ 53)%Z /\ (-1074 <= e1)%Z /\ (e <= e1)%Z.
Proof.
  intros P H. unfold shr_fexp, shr.
  pose proof (Zdigits2_above m P) as A.
  pose proof (Zdigits2_nonneg m) as N.
  pose proof (loc_of_shr_record_of_loc m l) as [L M].
  assert (Le : forall k, (k <= 0)%Z ->
             (fexp 53 1024 (Zdigits2 m + e) - e)%Z = k ->
             located (t / powerRZ 2 e) (shr_record_of_loc m l) /\
             (shr_m (shr_record_of_loc m l) < 2 ^ 53)%Z /\
             (-1074 <= e)%Z /\ (e <= e)%Z).
  { intros k K E. unfold fexp, SpecFloat.emin in E.
    split; [|split; [|lia]].
    - unfold located. rewrite L, M. split; assumption.
    - rewrite M. apply Z.lt_le_trans with (1 := A).
      apply Z.pow_le_mono_r; lia. }
  destruct (fexp 53 1024 (Zdigits2 m + e) - e)%Z as [|p|p] eqn:E.
  - exists (shr_record_of_loc m l), e. split; [reflexivity|].
    apply (Le 0%Z); lia.
  - exists (iter_pos shr_1 p (shr_record_of_loc m l)), (e + Zpos p)%Z.
    split; [reflexivity|].
    assert (Lc : located (t / powerRZ 2 (e + Zpos p))
                   (iter_pos shr_1 p (shr_record_of_loc m l))).
    { rewrite bpow_add, bpow_Zpos.
      replace (t / (powerRZ 2 e * 2 ^ Pos.to_nat p))
        with (t / powerRZ 2 e / 2 ^ Pos.to_nat p).
      - apply located_iter. unfold located. rewrite L, M. split; assumption.
      - field. split; [apply pow_nonzero; lra|].
        apply Rgt_not_eq, bpow_pos. }
    split; [exact Lc|].
    unfold fexp, SpecFloat.emin in E.
    split; [|lia].
    destruct Lc as [P1 I1]. apply inbetween_bounds in I1.
    apply inbetween_bounds in H.
    rewrite bpow_add, bpow_Zpos, pow_IZR_2 in I1.
    assert (Q : 0 < IZR (2 ^ Zpos p)).
    { apply IZR_lt. apply Z.pow_pos_nonneg; lia. }
    assert (B : IZR (shr_m (iter_pos shr_1 p (shr_record_of_loc m l)))
                * IZR (2 ^ Zpos p) < IZR (2 ^ 53 * 2 ^ Zpos p)).
    { apply Rle_lt_trans with (t / powerRZ 2 e).
      - destruct I1 as [I1 _].
        apply Rmult_le_compat_r with (r := IZR (2 ^ Zpos p)) in I1; [|lra].
        replace (t / (powerRZ 2 e * IZR (2 ^ Zpos p)) * IZR (2 ^ Zpos p))
          with (t / powerRZ 2 e) in I1; [exact I1|].
        field. split; [lra|apply Rgt_not_eq, bpow_pos].
      - apply Rlt_le_trans with (IZR m + 1); [lra|].
        rewrite <- plus_IZR. apply IZR_le.
        rewrite <- Z.pow_add_r by lia.
        apply Z.le_trans with (2 ^ Zdigits2 m)%Z; [lia|].
        apply Z.pow_le_mono_r; lia. }
    rewrite <- mult_IZR in B. apply lt_IZR in B.
    apply Z.mul_lt_mono_pos_r in B; [exact B|].
    apply Z.pow_pos_nonneg; lia.
  - exists (shr_record_of_loc m l), e. split; [reflexivity|].
    apply (Le (Zneg p)); lia.
Qed.

(** *** Rounding to nearest even *)

Lemma binary_round_aux_error t sx mx ex lx sz mz ez :
  (0 <= mx)%Z -> inbetween (t / powerRZ 2 ex) mx lx ->
  binary_round_aux 53 1024 sx mx ex lx = S754_finite sz mz ez ->
  sz = sx /\
  Rabs (IZR (Zpos mz) * powerRZ 2 ez - t) <= powerRZ 2 ez / 2.
Proof.
  intros P H. unfold binary_round_aux.
  destruct (shr_fexp_located t mx ex lx P H)
    as (mrs1 & e1 & -> & [P1 I1] & B1 & E1 & _).
  destruct (round_nearest_even_near _ _ _ I1) as [N1 N2].
  set (m2 := round_nearest_even (shr_m mrs1) (loc_of_shr_record mrs1)) in *.
  assert (V : Rabs (IZR m2 * powerRZ 2 e1 - t) <= powerRZ 2 e1 / 2).
  { pose proof (bpow_pos e1) as Q.
    replace (IZR m2 * powerRZ 2 e1 - t)
      with ((IZR m2 - t / powerRZ 2 e1) * powerRZ 2 e1)
      by (field; lra).
    rewrite Rabs_mult, (Rabs_pos_eq (powerRZ 2 e1)) by lra.
    apply Rmult_le_compat_r with (r := powerRZ 2 e1) in N1; lra. }
  destruct (Z.eq_dec m2 (2 ^ 53)) as [E|E].
  - rewrite E in *. unfold shr_fexp.
    change (Zdigits2 (2 ^ 53)) with 54%Z.
    replace (fexp 53 1024 (54 + e1) - e1)%Z with 1%Z
      by (unfold fexp, SpecFloat.emin; lia).
    cbn [shr shr_record_of_loc iter_pos]. 
    change (shr_1 {| shr_m := 2 ^ 53; shr_r := false; shr_s := false |})
      with {| shr_m := 2 ^ 52; shr_r := false; shr_s := false |}.
    cbn [shr_m]. change (2 ^ 52)%Z with (Zpos (2 ^ 52)).
    cbv iota beta.
    destruct (e1 + 1 <=? 1024 - 53)%Z; [|discriminate].
    intros X. injection X as <- <- <-. split; [reflexivity|].
    rewrite bpow_add. change (powerRZ 2 1) with (2 * 1).
    change (IZR (2 ^ 53)) with (2 * IZR (Zpos (2 ^ 52))) in V.
    pose proof (bpow_pos e1). 
    replace (IZR (Zpos (2 ^ 52)) * (powerRZ 2 e1 * (2 * 1)) - t)
      with (2 * IZR (Zpos (2 ^ 52)) * powerRZ 2 e1 - t) by ring.
    apply Rle_trans with (1 := V). lra.
  - assert (B2 : (0 <= m2 < 2 ^ 53)%Z) by lia.
    assert (D : (Zdigits2 m2 <= 53)%Z)
      by (apply Zdigits2_below; lia).
    pose proof (Zdigits2_nonneg m2) as D0.
    unfold shr_fexp.
    assert (K : (fexp 53 1024 (Zdigits2 m2 + e1) - e1 <= 0)%Z)
      by (unfold fexp, SpecFloat.emin; lia).
    assert (S2 : shr (shr_record_of_loc m2 loc_Exact) e1
                   (fexp 53 1024 (Zdigits2 m2 + e1) - e1)
                 = (shr_record_of_loc m2 loc_Exact, e1)).
    { unfold shr.
      destruct (fexp 53 1024 (Zdigits2 m2 + e1) - e1)%Z; [reflexivity|lia|reflexivity]. }
    rewrite S2. cbn [shr_record_of_loc shr_m].
    destruct m2 as [|p|p]; try discriminate.
    destruct (e1 <=? 1024 - 53)%Z; [|discriminate].
    intros X. injection X as <- <- <-. split; [reflexivity|exact V].
Qed.

(** *** Division *)

Lemma new_location_inbetween my r q :
  (0 < my)%Z -> (0 <= r < my)%Z ->
  inbetween (IZR q + IZR r / IZR my) q (new_location my r).
Proof.
  intros Py Hr.
  assert (Y : 0 < IZR my) by (apply IZR_lt; lia).
  unfold new_location, new_location_even, new_location_odd.
  assert (Z0 : r = 0%Z -> inbetween (IZR q + IZR r / IZR my) q loc_Exact).
  { intros ->. simpl. unfold Rdiv. rewrite Rmult_0_l. lra. }
  set (z := IZR r / IZR my).
  assert (Hz : z * IZR my = IZR r) by (unfold z; field; lra).
  assert (Zb : r <> 0%Z -> 0 < z < 1).
  { intros N. assert (0 < IZR r < IZR my) by (split; apply IZR_lt; lia).
    split; apply Rmult_lt_reg_r with (IZR my); try exact Y;
      rewrite Hz; lra. }
  assert (Lt2 : (2 * r < my)%Z -> z < / 2).
  { intros L. apply IZR_lt in L. rewrite mult_IZR in L.
    apply Rmult_lt_reg_r with (IZR my); [exact Y|]. rewrite Hz. lra. }
  assert (Eq2 : (2 * r = my)%Z -> z = / 2).
  { intros L. apply (f_equal IZR) in L. rewrite mult_IZR in L.
    apply Rmult_eq_reg_r with (IZR my); [|lra]. rewrite Hz. lra. }
  assert (Gt2 : (my < 2 * r)%Z -> / 2 < z).
  { intros L. apply IZR_lt in L. rewrite mult_IZR in L.
    apply Rmult_lt_reg_r with (IZR my); [exact Y|]. rewrite Hz. lra. }
  destruct (Z.even my) eqn:Ev; destruct (Z.eqb_spec r 0) as [R0|R0];
    try (apply Z0, R0); cbn [inbetween]; specialize (Zb R0).
  - destruct (Z.compare_spec (2 * r) my) as [C|C|C];
      [apply Eq2 in C|apply Lt2 in C|apply Gt2 in C];
      (split; [lra|]); lra.
  - assert (Od : (my <> 2 * r)%Z).
    { intros E. rewrite E, Z.even_mul in Ev. discriminate. }
    destruct (Z.compare_spec (2 * r + 1) my) as [C|C|C].
    + assert (C' : (2 * r < my)%Z) by lia. apply Lt2 in C'.
      split; lra.
    + assert (C' : (2 * r < my)%Z) by lia. apply Lt2 in C'.
      split; lra.
    + assert (C' : (my < 2 * r)%Z) by lia. apply Gt2 in C'.
      split; lra.
Qed.

Lemma SFdiv_core_binary_located mx ex my ey q e' l :
  SFdiv_core_binary 53 1024 (Zpos mx) ex (Zpos my) ey = (q, e', l) ->
  (0 <= q)%Z /\
  inbetween (IZR (Zpos mx) * powerRZ 2 ex / (IZR (Zpos my) * powerRZ 2 ey)
             / powerRZ 2 e') q l.
Proof.
  unfold SFdiv_core_binary.
  set (e0 := Z.min (fexp 53 1024 (Zdigits2 (Zpos mx) + ex
                                   - (Zdigits2 (Zpos my) + ey)))
                   (ex - ey)).
  set (s := (ex - ey - e0)%Z).
  assert (S0 : (0 <= s)%Z) by (unfold s, e0; lia).
  set (m' := match s with
             | Zpos _ => Z.shiftl (Zpos mx) s
             | Z0 => Zpos mx
             | Zneg _ => 0%Z
             end).
  assert (M : m' = (Zpos mx * 2 ^ s)%Z).
  { unfold m'. destruct s as [|p|p]; [lia| |lia].
    apply Z.shiftl_mul_pow2. lia. }
  pose proof (Z_div_mod m' (Zpos my) eq_refl) as D.
  destruct (Z.div_eucl m' (Zpos my)) as [q0 r0]. destruct D as [D R].
  intros X. injection X as <- <- <-.
  assert (P2 : (0 < 2 ^ s)%Z) by (apply Z.pow_pos_nonneg; lia).
  split; [nia|].
  assert (Y : 0 < IZR (Zpos my)) by (apply IZR_lt; lia).
  replace (IZR (Zpos mx) * powerRZ 2 ex / (IZR (Zpos my) * powerRZ 2 ey)
           / powerRZ 2 e0)
    with (IZR q0 + IZR r0 / IZR (Zpos my)).
  - apply new_location_inbetween; lia.
  - replace ex with (s + ey + e0)%Z by (unfold s; lia).
    rewrite !bpow_add, (bpow_nonneg_IZR s S0).
    pose proof (bpow_pos ey). pose proof (bpow_pos e0).
    apply (f_equal IZR) in D. rewrite M, plus_IZR, !mult_IZR in D.
    field_simplify_eq; [|lra].
    rewrite D. ring.
Qed.

Lemma SFdiv_error x y sz mz ez :
  SFdiv 53 1024 x y = S754_finite sz mz ez ->
  SF2R y <> 0 /\
  Rabs (SF2R (S754_finite sz mz ez) - SF2R x / SF2R y) <= powerRZ 2 ez / 2.
Proof.
  destruct x as [sx|sx| |sx mx ex], y as [sy|sy| |sy my ey];
    try discriminate.
  cbn [SFdiv].
  destruct (SFdiv_core_binary 53 1024 (Zpos mx) ex (Zpos my) ey)
    as [[q e'] l] eqn:C.
  apply SFdiv_core_binary_located in C as [P I].
  intros H. apply (binary_round_aux_error _ _ _ _ _ _ _ _ P I) in H.
  destruct H as [-> H].
  pose proof (bpow_pos ex). pose proof (bpow_pos ey). pose proof (bpow_pos ez).
  assert (Y : 0 < IZR (Zpos my)) by (apply IZR_lt; lia).
  assert (Ny : IZR (Zpos my) * powerRZ 2 ey <> 0) by nra.
  split.
  - cbn [SF2R]. destruct sy; cbn [cond_Zopp];
      [change (Z.opp (Zpos my)) with (- Zpos my)%Z; rewrite opp_IZR|]; nra.
  - revert H. set (t := IZR (Zpos mx) * powerRZ 2 ex
                         / (IZR (Zpos my) * powerRZ 2 ey)).
    intros H. cbn [SF2R].
    destruct sx, sy; cbn [xorb cond_Zopp];
      change (Z.opp (Zpos mz)) with (- Zpos mz)%Z;
      change (Z.opp (Zpos mx)) with (- Zpos mx)%Z;
      change (Z.opp (Zpos my)) with (- Zpos my)%Z;
      rewrite ?opp_IZR.
    + replace (IZR (Zpos mz) * powerRZ 2 ez
               - - IZR (Zpos mx) * powerRZ 2 ex / (- IZR (Zpos my) * powerRZ 2 ey))
        with (IZR (Zpos mz) * powerRZ 2 ez - t); [exact H|].
      unfold t. field. lra.
    + replace (- IZR (Zpos mz) * powerRZ 2 ez
               - - IZR (Zpos mx) * powerRZ 2 ex / (IZR (Zpos my) * powerRZ 2 ey))
        with (- (IZR (Zpos mz) * powerRZ 2 ez - t));
        [rewrite Rabs_Ropp; exact H|].
      unfold t. field. lra.
    + replace (- IZR (Zpos mz) * powerRZ 2 ez
               - IZR (Zpos mx) * powerRZ 2 ex / (- IZR (Zpos my) * powerRZ 2 ey))
        with (- (IZR (Zpos mz) * powerRZ 2 ez - t));
        [rewrite Rabs_Ropp; exact H|].
      unfold t. field. lra.
    + exact H.
Qed.

Lemma is_normal_finite x :
  is_normal x = true ->
  exists s m e, Prim2SF x = S754_finite s m e /\ (2 ^ 52 <= Zpos m)%Z.
Proof.
  unfold is_normal. rewrite classify_spec. unfold SF64classify, SFclassify.
  destruct (Prim2SF x) as [[]|[]| |s m e]; try discriminate.
  intros H. exists s, m, e. split; [reflexivity|].
  assert (D : Zpos (digits2_pos m) = 53%Z).
  { destruct s; destruct (Z.eqb_spec (Zpos (digits2_pos m)) prec);
      try discriminate; assumption. }
  pose proof (digits2_pos_bounds m) as [_ B]. rewrite D in B.
  change (2 ^ 53)%Z with (2 * 2 ^ 52)%Z in B. lia.
Qed.

Lemma div_error f v :
  is_normal (f / v) = true ->
  F2R v <> 0 /\ F2R (f / v) <> 0 /\
  Rabs (F2R (f / v) - F2R f / F2R v)
  <= Rabs (F2R (f / v)) / 9007199254740992.
Proof.
  intros N. destruct (is_normal_finite _ N) as (s & m & e & E & M).
  unfold F2R. rewrite E. pose proof (div_spec f v) as D. rewrite E in D.
  symmetry in D. apply SFdiv_error in D as [Y H].
  split; [exact Y|].
  pose proof (bpow_pos e) as Q.
  assert (M' : 4503599627370496 <= IZR (Zpos m)) by (apply IZR_le; exact M).
  assert (A : Rabs (SF2R (S754_finite s m e)) = IZR (Zpos m) * powerRZ 2 e).
  { cbn [SF2R]. destruct s; cbn [cond_Zopp].
    - change (Z.opp (Zpos m)) with (- Zpos m)%Z.
      rewrite opp_IZR, Ropp_mult_distr_l_reverse, Rabs_Ropp.
      apply Rabs_pos_eq. nra.
    - apply Rabs_pos_eq. nra. }
  split.
  - intros Z. rewrite Z, Rabs_R0 in A. nra.
  - rewrite A. apply Rle_trans with (1 := H). nra.
Qed.

(** Dividing [f] by [v] and [f] by the quotient comes back to [v]
    within three units of 2^-53 of [v], when both quotients are
    normal. *)
Theorem division_round_trip f v :
  is_normal (f / v) = true -> is_normal (f / (f / v)) = true ->
  Rabs (F2R (f / (f / v)) - F2R v) <= 3 / 9007199254740992 * Rabs (F2R v).
Proof.
  intros Nw Nr.
  destruct (div_error f v Nw) as (V0 & W0 & A).
  destruct (div_error f (f / v) Nr) as (_ & _ & B).
  set (F := F2R f) in *. set (V := F2R v) in *.
  set (W := F2R (f / v)) in *. set (X := F2R (f / (f / v))) in *.
  assert (C : Rabs (F / W - V) <= Rabs V / 9007199254740992).
  { replace (F / W - V) with (V * ((F / V - W) * / W)) by (field; auto).
    rewrite !Rabs_mult, Rabs_inv.
    rewrite <- Rabs_Ropp in A. replace (- (W - F / V)) with (F / V - W) in A by ring.
    assert (Wp : 0 < Rabs W) by (apply Rabs_pos_lt, W0).
    assert (Q : Rabs (F / V - W) * / Rabs W <= / 9007199254740992).
    { apply Rmult_le_reg_r with (Rabs W); [exact Wp|].
      rewrite Rmult_assoc, Rinv_l by lra. lra. }
    pose proof (Rabs_pos V).
    apply Rmult_le_compat_l with (r := Rabs V) in Q; lra. }
  assert (T1 : Rabs (X - V) <= Rabs (X - F / W) + Rabs (F / W - V)).
  { replace (X - V) with ((X - F / W) + (F / W - V)) by ring.
    apply Rabs_triang. }
  assert (T2 : Rabs X <= Rabs V + Rabs (X - V)).
  { replace X with (V + (X - V)) at 1 by ring. apply Rabs_triang. }
  pose proof (Rabs_pos V). lra.
Qed.

End Rounding.

(** * The specification, claim by claim *)

(** C1: on the graph [main] hands to [convert] (no node marked) and for
    units a chain of relations connects, [convert] either stops on the
    fatal division by zero, when the search comes to it, or returns the
    value accumulated along the first path of the depth first order,
    which takes the relations of a node from the head of its list, the
    most recently inserted first: a relation at the head of the source's
    list that leads to the destination is that path whatever the other
    relations are.  Once the destination is marked, which [connect] does
    right after recording the value, no later call of [connect] changes
    [result] or [found]. *)
Theorem first_path_wins value from_unit to_unit fu tu s :
  well_formed (unit_list s) = true -> unmarked (unit_list s) = true ->
  find_node from_unit (unit_list s) = Some fu ->
  find_node to_unit (unit_list s) = Some tu ->
  connected (unit_list s) fu tu ->
  ((meets_division value fu tu s /\
    convert value from_unit to_unit s = Exit DivisionByZero) \/
   exists p s',
     first_path (unit_list s) fu tu = Some p /\
     chain (unit_list s) p fu tu /\
     convert value from_unit to_unit s = Return (accumulate value p, s')) /\
  (forall e t, fu <> tu -> adj_at (unit_list s) fu = e :: t ->
               to_node e = tu -> first_path (unit_list s) fu tu = Some [e]) /\
  (forall k n1 val s1 s2,
      visited_at (unit_list s1) tu = true -> n1 <> tu ->
      connect k n1 tu val s1 = Return s2 ->
      result s2 = result s1 /\ found s2 = found s1).
Proof.
  intros W U F T Cn. split; [|split].
  - destruct (convert_first_path value _ _ _ _ _ W U F T) as [D|P].
    + left. split; [apply (convert_division _ _ _ _ _ _ F T), D|exact D].
    + right. destruct (first_path (unit_list s) fu tu) as [p|].
      * destruct P as (Ch & s' & E). exists p, s'. auto.
      * exfalso. revert P. apply convert_connected with fu tu; assumption.
  - intros e t N A E. apply first_path_head with t; auto.
    apply (find_node_lt _ _ _ F).
  - intros k n1 val s1 s2 V N E. apply connect_Connect in E.
    apply (proj1 (Connect_keeps tu) _ _ _ _ E V N).
Qed.

Lemma first_path_wins_witness :
  ((meets_division 1 0 2 (loaded yards) /\
    convert 1 "yd" "in" (loaded yards) = Exit DivisionByZero) \/
   exists p s',
     first_path (unit_list (loaded yards)) 0 2 = Some p /\
     chain (unit_list (loaded yards)) p 0 2 /\
     convert 1 "yd" "in" (loaded yards) = Return (accumulate 1 p, s')) /\
  (forall e t, 0 <> 2 -> adj_at (unit_list (loaded yards)) 0 = e :: t ->
               to_node e = 2 ->
               first_path (unit_list (loaded yards)) 0 2 = Some [e]) /\
  (forall k n1 val s1 s2,
      visited_at (unit_list s1) 2 = true -> n1 <> 2 ->
      connect k n1 2 val s1 = Return s2 ->
      result s2 = result s1 /\ found s2 = found s1).
Proof.
  apply (first_path_wins 1 "yd" "in" 0 2 (loaded yards));
    try reflexivity.
  exists [mk_edge 2 35 false]. simpl. auto.
Defined.

(** Two connected calls that do not return the value of the first
    path.  In the photon file meV has one relation, to eV, and that is
    the first path; the conversion of 0 from meV to eV records 0 for
    eV, goes on from eV to its reciprocal relation to nm with the value
    0 and exits with "Cannot convert zero value".  In the yards file
    the first path from ft to in is the relation of 12; on the globals
    a conversion from yd to ft has left, where every node is marked,
    the conversion from ft to in exits with "Cannot convert". *)
Lemma first_path_not_returned :
  (connected (unit_list (loaded photon)) 0 1 /\
   first_path (unit_list (loaded photon)) 0 1
   = Some [mk_edge 1 0x1p-10 false] /\
   convert 0 "meV" "eV" (loaded photon) = Exit DivisionByZero) /\
  (connected
     (unit_list (globals_after (convert 1 "yd" "ft" (loaded yards)))) 1 2 /\
   first_path
     (unit_list (globals_after (convert 1 "yd" "ft" (loaded yards)))) 1 2
   = Some [mk_edge 2 12 false] /\
   convert 1 "ft" "in" (globals_after (convert 1 "yd" "ft" (loaded yards)))
   = Exit NoConversionPath).
Proof.
  split; (split; [|split; reflexivity]).
  - exists [mk_edge 1 0x1p-10 false]. simpl. auto.
  - exists [mk_edge 2 12 false]. simpl. auto.
Qed.

(** C2: a call of [add_edge] with a factor that is not zero and two
    defined units returns after exactly two insertions: the relation to
    the second unit, with the factor and the flag of the call, is put at
    the head of the list of the first unit, and then the relation back
    is put at the head of the list of the second unit, with the factor
    [1 / fac12] when the flag is unset and the factor of the call when
    it is set, and the flag of the call.  Neither insertion changes
    another adjacency list, a mark, or the names and long names of the
    units and their order, and [result] and [found] are as before.  For
    two different units each relation is the head of its list after the
    call; for a relation of a unit to itself the two are the first two
    of the one list, the relation back in front. *)
Theorem add_edge_inserts name1 fac12 name2 inversion n1 n2 s :
  (fac12 =? 0)%float = false ->
  find_node name1 (unit_list s) = Some n1 ->
  find_node name2 (unit_list s) = Some n2 ->
  exists l1 s',
    add_edge name1 fac12 name2 inversion s = Return s' /\
    pushed (mk_edge n2 fac12 inversion) n1 (unit_list s) l1 /\
    pushed (mk_edge n1 (if inversion then fac12 else (1 / fac12)%float)
                    inversion) n2 l1 (unit_list s') /\
    result s' = result s /\ found s' = found s /\
    (n1 <> n2 ->
     adj_at (unit_list s') n1
     = mk_edge n2 fac12 inversion :: adj_at (unit_list s) n1 /\
     adj_at (unit_list s') n2
     = mk_edge n1 (if inversion then fac12 else (1 / fac12)%float) inversion
         :: adj_at (unit_list s) n2) /\
    (n1 = n2 ->
     adj_at (unit_list s') n1
     = mk_edge n1 (if inversion then fac12 else (1 / fac12)%float) inversion
         :: mk_edge n2 fac12 inversion :: adj_at (unit_list s) n1).
Proof.
  intros Z F1 F2. unfold add_edge. rewrite Z, F1, F2.
  pose proof (find_node_lt _ _ _ F1) as L1.
  pose proof (find_node_lt _ _ _ F2) as L2.
  assert (B : (if negb inversion then (1 / fac12)%float else fac12)
              = (if inversion then fac12 else (1 / fac12)%float))
    by (destruct inversion; reflexivity).
  rewrite B.
  exists (update (push_edge (mk_edge n2 fac12 inversion)) n1 (unit_list s)).
  eexists. split; [reflexivity|]. simpl unit_list.
  assert (P1 := pushed_update (mk_edge n2 fac12 inversion) n1 (unit_list s) L1).
  assert (P2 := pushed_update
                  (mk_edge n1 (if inversion then fac12 else (1 / fac12)%float)
                           inversion) n2
                  (update (push_edge (mk_edge n2 fac12 inversion)) n1
                          (unit_list s))).
  rewrite update_length in P2. specialize (P2 L2).
  split; [exact P1|]. split; [exact P2|].
  split; [reflexivity|]. split; [reflexivity|].
  destruct P1 as (H1 & O1 & _). destruct P2 as (H2 & O2 & _).
  split.
  - intros N. split.
    + rewrite O2 by exact N. exact H1.
    + rewrite H2, O1 by (apply not_eq_sym, N). reflexivity.
  - intros E. subst n2. rewrite H2, H1. reflexivity.
Qed.

Lemma add_edge_inserts_witness :
  exists l1 s',
    add_edge "yd" 3 "ft" false (loaded (firstn 4 yards)) = Return s' /\
    pushed (mk_edge 1 3 false) 0 (unit_list (loaded (firstn 4 yards))) l1 /\
    pushed (mk_edge 0 (if false then 3 else (1 / 3)%float) false) 1 l1
           (unit_list s') /\
    result s' = result (loaded (firstn 4 yards)) /\
    found s' = found (loaded (firstn 4 yards)) /\
    (0 <> 1 ->
     adj_at (unit_list s') 0
     = mk_edge 1 3 false :: adj_at (unit_list (loaded (firstn 4 yards))) 0 /\
     adj_at (unit_list s') 1
     = mk_edge 0 (if false then 3 else (1 / 3)%float) false
         :: adj_at (unit_list (loaded (firstn 4 yards))) 1) /\
    (0 = 1 ->
     adj_at (unit_list s') 0
     = mk_edge 0 (if false then 3 else (1 / 3)%float) false
         :: mk_edge 1 3 false
         :: adj_at (unit_list (loaded (firstn 4 yards))) 0).
Proof.
  apply (add_edge_inserts "yd" 3 "ft" false 0 1 (loaded (firstn 4 yards)));
    reflexivity.
Defined.

(** C3: the graph the builder hands over has no mark, so the first call
    of [convert] begins with every node unmarked; [convert] itself never
    clears a mark: a first call that returns leaves its source node and
    every node a chain of relations connects to it marked, and every
    node marked before a call is still marked after it, so the marks of
    a call are there when the next one begins.  A call that follows,
    between two different units of which the first is connected to that
    source, finds every neighbour marked and exits with "Cannot
    convert". *)
Theorem marks_survive_convert recs s value from_unit to_unit fu r s' :
  load recs initial = Return s ->
  find_node from_unit (unit_list s) = Some fu ->
  convert value from_unit to_unit s = Return (r, s') ->
  unmarked (unit_list s) = true /\
  (forall x, connected (unit_list s) fu x ->
             visited_at (unit_list s') x = true) /\
  (forall s1 value1 from1 to1 r1 s1',
      convert value1 from1 to1 s1 = Return (r1, s1') ->
      forall p, visited_at (unit_list s1) p = true ->
                visited_at (unit_list s1') p = true) /\
  (forall value2 from2 to2 fu2 tu2,
      find_node from2 (unit_list s') = Some fu2 ->
      find_node to2 (unit_list s') = Some tu2 ->
      fu2 <> tu2 -> connected (unit_list s) fu fu2 ->
      convert value2 from2 to2 s' = Exit NoConversionPath).
Proof.
  intros Ld F Cv.
  destruct (load_initial_in_order _ _ Ld) as [W U].
  split; [exact U|]. split; [|split].
  - destruct (convert_returns _ _ _ _ _ _ Cv) as (fu' & tu & F' & _ & C & _).
    assert (fu' = fu) by congruence. subst fu'.
    apply (Connect_complete _ _ _ _ _ C).
    + intros p e. apply well_formed_adj, W.
    + exact U.
    + apply (find_node_lt _ _ _ F).
  - intros s1 value1 from1 to1 r1 s1' Cv1 p V.
    destruct (convert_returns _ _ _ _ _ _ Cv1) as (a & b & _ & _ & C & _).
    apply (proj1 (Connect_marks_kept b) _ _ _ _ C). exact V.
  - intros value2 from2 to2 fu2 tu2 F2 T2 N Cn.
    apply (convert_after_convert value from_unit to_unit fu r s s'
             value2 from2 to2 fu2 tu2 W U F Cv F2 T2 N Cn).
Qed.

Lemma marks_survive_convert_witness :
  unmarked (unit_list (loaded photon)) = true /\
  (forall x,
      connected (unit_list (loaded photon)) 1 x ->
      visited_at
        (unit_list (globals_after (convert 2 "eV" "nm" (loaded photon)))) x
      = true) /\
  (forall s1 value1 from1 to1 r1 s1',
      convert value1 from1 to1 s1 = Return (r1, s1') ->
      forall p, visited_at (unit_list s1) p = true ->
                visited_at (unit_list s1') p = true) /\
  (forall value2 from2 to2 fu2 tu2,
      find_node from2
        (unit_list (globals_after (convert 2 "eV" "nm" (loaded photon))))
      = Some fu2 ->
      find_node to2
        (unit_list (globals_after (convert 2 "eV" "nm" (loaded photon))))
      = Some tu2 ->
      fu2 <> tu2 -> connected (unit_list (loaded photon)) 1 fu2 ->
      convert value2 from2 to2
        (globals_after (convert 2 "eV" "nm" (loaded photon)))
      = Exit NoConversionPath).
Proof.
  apply (marks_survive_convert photon (loaded photon) 2 "eV" "nm" 1 620
           (globals_after (convert 2 "eV" "nm" (loaded photon))));
    reflexivity.
Defined.

(** On the photon file a first conversion of 2 eV to nm returns 620 and
    leaves the electron volt marked; the same request on the globals it
    leaves exits with "Cannot convert". *)
Lemma second_convert_sees_marks :
  exists s1,
    convert 2 "eV" "nm" (loaded photon) = Return (620%float, s1) /\
    visited_at (unit_list s1) 1 = true /\
    unmarked (unit_list s1) = false /\
    convert 2 "eV" "nm" s1 = Exit NoConversionPath.
Proof. eexists. repeat split; reflexivity. Qed.

(** C4: the listing [main] writes when no conversion is asked for gives
    the name and long name of every defined unit, the most recently
    registered unit first, that is, in the reverse of the order of
    registration: [add_node] puts a new unit in front of the list the
    listing walks. *)
Theorem listing_newest_first recs s :
  load recs initial = Return s ->
  allowed_units s = rev (registered recs []) /\
  main recs None = Return (Listing (rev (registered recs []))) /\
  (forall nm, find_node nm (unit_list s) <> None
              <-> In nm (map fst (allowed_units s))) /\
  (forall new_name new_long_name,
      find_node new_name (unit_list s) = None ->
      allowed_units (add_node new_name new_long_name s)
      = (new_name, new_long_name) :: allowed_units s).
Proof.
  intros H. pose proof (load_allowed_units _ _ _ H) as A.
  simpl in A. split; [exact A|]. split; [|split].
  - unfold main. rewrite H, A. reflexivity.
  - intros nm. unfold allowed_units.
    pose proof (find_node_known nm (unit_list s)) as K.
    rewrite map_map. simpl. split.
    + intros N. destruct (find_node nm (unit_list s)); [|congruence].
      apply existsb_exists in K. destruct K as (u & I & E).
      apply String.eqb_eq in E. subst nm.
      apply in_map_iff in I. destruct I as (t & <- & I). simpl.
      apply in_map. exact I.
    + intros I N. rewrite N in K.
      apply in_map_iff in I. destruct I as (t & <- & I).
      assert (X : existsb (fun u => String.eqb (name t) (fst u))
                    (map (fun t => (name t, long_name t)) (unit_list s))
                  = true).
      { apply existsb_exists. exists (name t, long_name t). split.
        - apply in_map_iff. exists t. auto.
        - apply String.eqb_refl. }
      congruence.
  - intros n ln N. rewrite (add_node_new _ _ _ N). reflexivity.
Qed.

Lemma listing_newest_first_witness :
  allowed_units (loaded yards) = rev (registered yards []) /\
  main yards None = Return (Listing (rev (registered yards []))) /\
  (forall nm, find_node nm (unit_list (loaded yards)) <> None
              <-> In nm (map fst (allowed_units (loaded yards)))) /\
  (forall new_name new_long_name,
      find_node new_name (unit_list (loaded yards)) = None ->
      allowed_units (add_node new_name new_long_name (loaded yards))
      = (new_name, new_long_name) :: allowed_units (loaded yards)).
Proof.
  apply (listing_newest_first yards (loaded yards)). reflexivity.
Defined.

(** The yard is registered first and the listing ends with it. *)
Lemma listing_not_in_registration_order :
  registered yards [] = [("yd", "yard"); ("ft", "foot"); ("in", "inch")] /\
  main yards None
  = Return (Listing [("in", "inch"); ("ft", "foot"); ("yd", "yard")]) /\
  main yards None
  <> Return (Listing [("yd", "yard"); ("ft", "foot"); ("in", "inch")]).
Proof.
  split; [reflexivity|]. split; [reflexivity|].
  vm_compute. discriminate.
Qed.

(** C5: whenever, inside a call of [convert], control comes to the head
    of the loop of a call of [connect] whose next relation is inverted
    and leads to a node that is not marked, while the value of that call
    is zero, [convert] exits with the division by zero; the loop exits
    there whatever relations are left in the list and without a call of
    [connect]. *)
Theorem division_by_zero_aborts value from_unit to_unit fu tu s k val e t s' :
  find_node from_unit (unit_list s) = Some fu ->
  find_node to_unit (unit_list s) = Some tu ->
  within tu (length (unit_list s)) value
    (adj_at (unit_list (enter fu tu value
                          (mk_globals (unit_list s) (result s) false))) fu)
    (enter fu tu value (mk_globals (unit_list s) (result s) false))
    k val (e :: t) s' ->
  visited_at (unit_list s') (to_node e) = false ->
  inverse e = true -> (val =? 0)%float = true ->
  convert value from_unit to_unit s = Exit DivisionByZero /\
  (forall rec t', while_adj rec val (e :: t') s' = Exit DivisionByZero).
Proof.
  intros F T Wi V I Z. split.
  - rewrite (convert_found _ _ _ _ value _ F T), connect_S.
    rewrite (within_division _ _ _ _ _ _ _ _ _ _ Wi V I Z). reflexivity.
  - intros rec t'. apply while_adj_division; assumption.
Qed.

Lemma division_by_zero_aborts_witness :
  convert 0 "meV" "nm" (loaded photon) = Exit DivisionByZero /\
  (forall rec t',
      while_adj rec 0 (mk_edge 2 1240 true :: t')
        (enter 1 2 0
           (enter 0 2 0 (mk_globals (unit_list (loaded photon)) 0 false)))
      = Exit DivisionByZero).
Proof.
  apply (division_by_zero_aborts 0 "meV" "nm" 0 2 (loaded photon) 3 0
           (mk_edge 2 1240 true) [mk_edge 0 0x1p10 false]);
    try reflexivity.
  eapply within_call; [reflexivity|reflexivity|].
  apply within_here.
Defined.

(** C6: when both units are defined and no chain of relations connects
    them, [convert] on an unmarked graph never returns a value: it exits
    with the division by zero when the search comes to it, and otherwise
    with "Cannot convert", after [connect] has returned with every node
    a chain connects to the source marked.  On a graph without inverted
    relations the exit is always "Cannot convert". *)
Theorem unconnected_units_fail value from_unit to_unit fu tu s :
  well_formed (unit_list s) = true -> unmarked (unit_list s) = true ->
  find_node from_unit (unit_list s) = Some fu ->
  find_node to_unit (unit_list s) = Some tu ->
  ~ connected (unit_list s) fu tu ->
  ((meets_division value fu tu s /\
    convert value from_unit to_unit s = Exit DivisionByZero) \/
   (convert value from_unit to_unit s = Exit NoConversionPath /\
    exists s',
      connect (connect_fuel s) fu tu value
              (mk_globals (unit_list s) (result s) false) = Return s' /\
      forall x, connected (unit_list s) fu x ->
                visited_at (unit_list s') x = true)) /\
  (linear (unit_list s) = true ->
   convert value from_unit to_unit s = Exit NoConversionPath).
Proof.
  intros W U F T N.
  assert (C : closed_edges (unit_list s))
    by (intros p e; apply well_formed_adj, W).
  pose proof (find_node_lt _ _ _ F) as L.
  assert (M : convert value from_unit to_unit s = Exit DivisionByZero \/
   (convert value from_unit to_unit s = Exit NoConversionPath /\
    exists s',
      connect (connect_fuel s) fu tu value
              (mk_globals (unit_list s) (result s) false) = Return s' /\
      forall x, connected (unit_list s) fu x ->
                visited_at (unit_list s') x = true)).
  { rewrite (convert_found _ _ _ _ value _ F T).
    pose proof (convert_connect_fuel fu tu value s C L) as NF.
    unfold connect_fuel.
    destruct (connect _ fu tu value _) as [s'|x|] eqn:E.
    - right. pose proof (connect_Connect _ _ _ _ _ _ E) as CC.
      rewrite (Connect_unconnected _ _ _ _ _ CC C L N). simpl.
      split; [reflexivity|]. exists s'. split; [reflexivity|].
      intros x Cx. apply (Connect_complete _ _ _ _ _ CC C U L x Cx).
    - left. apply connect_exit in E. congruence.
    - congruence. }
  split.
  - destruct M as [D|R]; [left|right; exact R].
    split; [apply (convert_division _ _ _ _ _ _ F T), D|exact D].
  - intros Ln. destruct M as [D|[E _]]; [|exact E].
    exfalso. revert D. apply convert_linear, Ln.
Qed.

Lemma unconnected_units_fail_witness :
  ((meets_division 1 0 3 (loaded (yards ++ [DefineUnit "K" "kelvin"])) /\
    convert 1 "yd" "K" (loaded (yards ++ [DefineUnit "K" "kelvin"]))
    = Exit DivisionByZero) \/
   (convert 1 "yd" "K" (loaded (yards ++ [DefineUnit "K" "kelvin"]))
    = Exit NoConversionPath /\
    exists s',
      connect (connect_fuel (loaded (yards ++ [DefineUnit "K" "kelvin"]))) 0 3 1
        (mk_globals (unit_list (loaded (yards ++ [DefineUnit "K" "kelvin"])))
           (result (loaded (yards ++ [DefineUnit "K" "kelvin"]))) false)
      = Return s' /\
      forall x,
        connected (unit_list (loaded (yards ++ [DefineUnit "K" "kelvin"]))) 0 x ->
        visited_at (unit_list s') x = true)) /\
  (linear (unit_list (loaded (yards ++ [DefineUnit "K" "kelvin"]))) = true ->
   convert 1 "yd" "K" (loaded (yards ++ [DefineUnit "K" "kelvin"]))
   = Exit NoConversionPath).
Proof.
  apply (unconnected_units_fail 1 "yd" "K" 0 3
           (loaded (yards ++ [DefineUnit "K" "kelvin"])));
    try reflexivity.
  apply isolated_unconnected; [reflexivity|discriminate].
Defined.

(** On the photon file the electron volt and the kelvin are defined and
    not connected, and the conversion of 0 between them stops on the
    division by zero, not on "Cannot convert". *)
Lemma unconnected_units_division :
  find_node "eV" (unit_list (loaded photon)) = Some 1 /\
  find_node "K" (unit_list (loaded photon)) = Some 3 /\
  ~ connected (unit_list (loaded photon)) 1 3 /\
  convert 0 "eV" "K" (loaded photon) = Exit DivisionByZero /\
  convert 0 "eV" "K" (loaded photon) <> Exit NoConversionPath.
Proof.
  split; [reflexivity|]. split; [reflexivity|]. split.
  - apply isolated_unconnected; [reflexivity|discriminate].
  - split; [reflexivity|]. vm_compute. discriminate.
Qed.

(** C7: [add_edge] exits with "unit not found" exactly when the factor
    is not zero and one of the two names is not defined, the first such
    name being reported (a factor of zero is found first and reported
    instead); [convert] exits with "unit not found" exactly when one of
    its two names is not defined; [connect] never does, and [add_node]
    has no exit. *)
Theorem unknown_unit_exits s :
  (forall name1 fac12 name2 inversion u,
      add_edge name1 fac12 name2 inversion s = Exit (UnknownUnit u) <->
      (fac12 =? 0)%float = false /\
      ((find_node name1 (unit_list s) = None /\ u = name1) \/
       (find_node name1 (unit_list s) <> None /\
        find_node name2 (unit_list s) = None /\ u = name2))) /\
  (forall value from_unit to_unit u,
      convert value from_unit to_unit s = Exit (UnknownUnit u) <->
      (find_node from_unit (unit_list s) = None /\ u = from_unit) \/
      (find_node from_unit (unit_list s) <> None /\
       find_node to_unit (unit_list s) = None /\ u = to_unit)) /\
  (forall k n1 n2 val u, connect k n1 n2 val s <> Exit (UnknownUnit u)) /\
  (forall recs request u,
      main recs request = Exit (UnknownUnit u) ->
      (exists before name1 fac12 name2 inversion after s1,
          recs = before ++ DefineRelation name1 fac12 name2 inversion :: after /\
          load before initial = Return s1 /\
          add_edge name1 fac12 name2 inversion s1 = Exit (UnknownUnit u)) \/
      (exists s1 value from_unit to_unit,
          load recs initial = Return s1 /\
          request = Some (value, from_unit, to_unit) /\
          convert value from_unit to_unit s1 = Exit (UnknownUnit u))).
Proof.
  split; [|split; [|split]].
  - intros name1 fac12 name2 inversion u. unfold add_edge.
    destruct (fac12 =? 0)%float.
    + split; [discriminate|]. intros [Z _]. discriminate Z.
    + destruct (find_node name1 (unit_list s)) as [n1|].
      * destruct (find_node name2 (unit_list s)) as [n2|].
        -- split; [discriminate|].
           intros [_ [[N _]|[_ [N _]]]]; discriminate N.
        -- split.
           ++ intros H; injection H as <-. split; [reflexivity|].
              right. split; [discriminate|]. auto.
           ++ intros [_ [[N _]|[_ [_ ->]]]]; [discriminate N|reflexivity].
      * split.
        -- intros H; injection H as <-. auto.
        -- intros [_ [[_ ->]|[N _]]]; [reflexivity|congruence].
  - intros value from_unit to_unit u. unfold convert.
    destruct (find_node from_unit (unit_list s)) as [fu|].
    + destruct (find_node to_unit (unit_list s)) as [tu|].
      * split.
        -- destruct (connect _ fu tu value _) as [s'|x|] eqn:E.
           ++ destruct (negb (found s')); discriminate.
           ++ apply connect_exit in E. subst x. discriminate.
           ++ discriminate.
        -- intros [[N _]|[_ [N _]]]; discriminate N.
      * split.
        -- intros H; injection H as <-. right.
           split; [discriminate|]. auto.
        -- intros [[N _]|[_ [_ ->]]]; [discriminate N|reflexivity].
    + split.
      * intros H; injection H as <-. auto.
      * intros [[_ ->]|[N _]]; [reflexivity|congruence].
  - intros k n1 n2 val u E. apply connect_exit in E. discriminate E.
  - intros recs request u. unfold main.
    destruct (load recs initial) as [s1|x|] eqn:Ld; [| |discriminate].
    + destruct request as [[[value from_unit] to_unit]|]; [|discriminate].
      destruct (convert value from_unit to_unit s1) as [[r s2]|x|] eqn:Cv;
        try discriminate.
      intros H; injection H as ->. right.
      exists s1, value, from_unit, to_unit. auto.
    + intros H; injection H as ->. left.
      destruct (load_exit _ _ _ Ld) as (b & n1 & f & n2 & i & a & s1 & E).
      exists b, n1, f, n2, i, a, s1. exact E.
Qed.

(** A relation of factor 0 from a unit that is not defined exits with
    "Conversion factor is zero", not with "unit not found". *)
Lemma zero_factor_before_unknown_unit :
  find_node "nope" (unit_list (loaded yards)) = None /\
  add_edge "nope" 0 "in" false (loaded yards) = Exit ZeroFactor /\
  add_edge "nope" 0 "in" false (loaded yards) <> Exit (UnknownUnit "nope").
Proof.
  split; [reflexivity|]. split; [reflexivity|]. vm_compute. discriminate.
Qed.

(** C8: a call of [add_edge] with a factor equal to zero exits with
    "Conversion factor is zero" whatever the globals, without a change
    to the graph; [main] meets it while it reads the definition file and
    exits there, whatever follows in the file and whatever conversion
    was asked for. *)
Theorem zero_factor_rejected name1 fac12 name2 inversion before after s request :
  (fac12 =? 0)%float = true ->
  load before initial = Return s ->
  (forall s0, add_edge name1 fac12 name2 inversion s0 = Exit ZeroFactor) /\
  load (before ++ DefineRelation name1 fac12 name2 inversion :: after) initial
  = Exit ZeroFactor /\
  main (before ++ DefineRelation name1 fac12 name2 inversion :: after) request
  = Exit ZeroFactor.
Proof.
  intros Z Ld.
  assert (A : forall s0, add_edge name1 fac12 name2 inversion s0
                         = Exit ZeroFactor)
    by (intros s0; unfold add_edge; rewrite Z; reflexivity).
  assert (B : load (before ++ DefineRelation name1 fac12 name2 inversion
                      :: after) initial = Exit ZeroFactor)
    by (rewrite load_app, Ld; simpl; rewrite A; reflexivity).
  split; [exact A|]. split; [exact B|].
  unfold main. rewrite B. reflexivity.
Qed.

Lemma zero_factor_rejected_witness :
  (forall s0, add_edge "ft" (-0) "in" false s0 = Exit ZeroFactor) /\
  load (firstn 5 yards ++ DefineRelation "ft" (-0) "in" false :: []) initial
  = Exit ZeroFactor /\
  main (firstn 5 yards ++ DefineRelation "ft" (-0) "in" false :: [])
       (Some (1%float, "yd", "ft"))
  = Exit ZeroFactor.
Proof.
  apply (zero_factor_rejected "ft" (-0) "in" false (firstn 5 yards) []
           (loaded (firstn 5 yards)) (Some (1%float, "yd", "ft")));
    reflexivity.
Defined.




(** The double next above 49 that comes back is within the tolerance:
    both quotients are normal. *)
Example reciprocal_round_trip_close :
  is_normal (1 / 49) = true /\
  (1 / (1 / 49))%float = 0x1.8800000000001p+5%float /\
  is_normal 0x1.8800000000001p+5 = true /\
  (Rabs (F2R 0x1.8800000000001p+5 - F2R 49)
   <= 3 / 9007199254740992 * Rabs (F2R 49))%R.
Proof.
  split; [reflexivity|]. split; [reflexivity|]. split; [reflexivity|].
  apply (division_round_trip 1 49); reflexivity.
Qed.

(** A quotient beyond the doubles: with the factor 2^1000 the
    conversion of 2^-100, which is not zero, returns infinity, which is
    not zero either, and the conversion of infinity back returns 0, far
    from 2^-100.  The two units have no other relation and both
    conversions return. *)
Lemma round_trip_overflow :
  (0x1p-100 =? 0)%float = false /\
  (0x1p1000 / 0x1p-100)%float = infinity /\
  (infinity =? 0)%float = false /\
  is_normal (0x1p1000 / 0x1p-100) = false /\
  (exists s1, convert 0x1p-100 "a" "b" (loaded steep)
              = Return (infinity, s1)) /\
  (exists s2, convert infinity "b" "a" (loaded steep)
              = Return (0%float, s2)).
Proof.
  split; [reflexivity|]. split; [reflexivity|]. split; [reflexivity|].
  split; [reflexivity|]. split; eexists; reflexivity.
Qed.

(** A relation that is not at the head of the list: the reciprocal
    relation from a to b of factor 10 is there, but the relation from a
    to c was defined after it and the search takes it first; the
    conversion of 5 from a to b returns 3 * (2 * 5) = 30 and not
    10 / 5 = 2. *)
Lemma inverted_relation_bypassed :
  adj_at (unit_list (loaded detour)) 0
  = [mk_edge 2 2 false; mk_edge 1 10 true] /\
  (5 =? 0)%float = false /\
  (10 / 5)%float = 2%float /\
  exists s', convert 5 "a" "b" (loaded detour) = Return (30%float, s').
Proof.
  split; [reflexivity|]. split; [reflexivity|]. split; [reflexivity|].
  eexists. reflexivity.
Qed.

(** The division by zero on a value that is not zero: the reciprocal
    relation from a to b, of factor 2^-600, is the only relation of a
    and 2^600 is not zero, but the quotient is 0 (underflow); the
    search records it for b, goes on from b to its reciprocal relation
    to c and exits with "Cannot convert zero value". *)
Lemma inverted_relation_division :
  adj_at (unit_list (loaded side_road)) 0 = [mk_edge 1 0x1p-600 true] /\
  (0x1p600 =? 0)%float = false /\
  (0x1p-600 / 0x1p600)%float = 0%float /\
  convert 0x1p600 "a" "b" (loaded side_road) = Exit DivisionByZero.
Proof.
  split; [reflexivity|]. split; [reflexivity|]. split; reflexivity.
Qed.

(** C10: the conversion of a defined unit to itself returns the value
    unchanged unless the search, which goes on past the destination,
    comes to the division by zero, and then it exits with it; it gives
    no other value and no other exit, whatever the marks.  A value that
    is not zero does not rule the division out, as products and
    quotients of doubles that are not zero can be zero; on a graph
    without inverted relations every value, zero too, comes back. *)
Theorem self_conversion value from_unit a s :
  well_formed (unit_list s) = true ->
  find_node from_unit (unit_list s) = Some a ->
  ((meets_division value a a s /\
    convert value from_unit from_unit s = Exit DivisionByZero) \/
   exists s', convert value from_unit from_unit s = Return (value, s')) /\
  (linear (unit_list s) = true ->
   exists s', convert value from_unit from_unit s = Return (value, s')).
Proof.
  intros W F. pose proof (convert_self value from_unit a s W F) as M.
  split.
  - destruct M as [D|R]; [left|right; exact R].
    split; [apply (convert_division _ _ _ _ _ _ F F), D|exact D].
  - intros Ln. destruct M as [D|R]; [|exact R].
    exfalso. revert D. apply convert_linear, Ln.
Qed.

Lemma self_conversion_witness :
  ((meets_division 5 1 1 (loaded yards) /\
    convert 5 "ft" "ft" (loaded yards) = Exit DivisionByZero) \/
   exists s', convert 5 "ft" "ft" (loaded yards) = Return (5%float, s')) /\
  (linear (unit_list (loaded yards)) = true ->
   exists s', convert 5 "ft" "ft" (loaded yards) = Return (5%float, s')).
Proof.
  apply (self_conversion 5 "ft" 1 (loaded yards)); reflexivity.
Defined.

(** On the tiny file the value [0x1p-600] is not zero, the unit a is
    defined and has an outgoing relation, and the conversion of a to
    itself stops on the division by zero: the search goes on to b with
    [0x1p-600 * 0x1p-600], which is 0 in binary64, and the relation from
    b to c is inverted. *)
Lemma self_conversion_underflow :
  find_node "a" (unit_list (loaded tiny)) = Some 0 /\
  (0x1p-600 =? 0)%float = false /\
  (0x1p-600 * 0x1p-600 =? 0)%float = true /\
  convert 0x1p-600 "a" "a" (loaded tiny) = Exit DivisionByZero.
Proof. repeat split; reflexivity. Qed.

(** * Further properties of the graph code *)

(** ** [find_node] and [add_node] *)

Lemma find_node_none nm l :
  find_node nm l = None <-> ~ In nm (map name l).
Proof.
  induction l as [|x l IH]; simpl; [tauto|].
  destruct (String.eqb_spec nm (name x)) as [E|E].
  - split; [discriminate|]. intros N. exfalso. apply N. left.
    symmetry; exact E.
  - rewrite IH. split; [intros N [H|H]; [congruence|auto]|tauto].
Qed.

Lemma find_node_same_names nm l : forall l',
  map name l = map name l' -> find_node nm l = find_node nm l'.
Proof.
  induction l as [|x l IH]; intros [|x' l']; simpl; try discriminate;
    [reflexivity|].
  intros H. injection H as E H. rewrite E.
  rewrite (IH _ H). apply (f_equal (@length string)) in H.
  rewrite !length_map in H. rewrite H. reflexivity.
Qed.

Lemma allowed_names l l' :
  map (fun t => (name t, long_name t)) l
  = map (fun t => (name t, long_name t)) l' ->
  map name l = map name l'.
Proof.
  intros H. apply (f_equal (map fst)) in H. rewrite !map_map in H. exact H.
Qed.

(** X1: [find_node] returns [NULL] exactly when no node of the list has
    the name, and otherwise the node it returns has the name and no node
    in front of it in the list has. *)
Theorem find_node_first_match nm l :
  (find_node nm l = None <-> ~ In nm (map name l)) /\
  (forall p, find_node nm l = Some p ->
     exists front t back,
       l = front ++ t :: back /\ p = length back /\
       deref l p = Some t /\ name t = nm /\ ~ In nm (map name front)).
Proof.
  split; [apply find_node_none|].
  induction l as [|x l IH]; simpl; [discriminate|]. intros p.
  destruct (String.eqb_spec nm (name x)) as [E|E].
  - intros H; injection H as <-. exists [], x, l. simpl.
    rewrite Nat.eqb_refl.
    split; [reflexivity|]. split; [reflexivity|]. split; [reflexivity|].
    split; [symmetry; exact E|]. intros [].
  - intros H. destruct (IH _ H) as (fr & t & bk & -> & -> & D & N & F).
    exists (x :: fr), t, bk. simpl.
    split; [reflexivity|]. split; [reflexivity|]. split; [|split].
    + pose proof (deref_lt _ _ _ D) as L.
      destruct (Nat.eqb_spec (length bk) (length (fr ++ t :: bk))); [lia|].
      exact D.
    + exact N.
    + intros [H1|H1]; [congruence|auto].
Qed.

(** X2: [add_node] keeps every pointer: a name that was found is found
    at the same address, where the same node is; the name it is called
    with is found afterwards; when that name was not defined it is found
    at a fresh address where the new node is, with the long name of the
    call, no relation and no mark, and when it was defined nothing at
    all changes, so that the long name of the first definition stays. *)
Theorem add_node_lookup new_name new_long_name s :
  (forall nm p,
      find_node nm (unit_list s) = Some p ->
      find_node nm (unit_list (add_node new_name new_long_name s)) = Some p /\
      deref (unit_list (add_node new_name new_long_name s)) p
      = deref (unit_list s) p) /\
  find_node new_name (unit_list (add_node new_name new_long_name s)) <> None /\
  (find_node new_name (unit_list s) = None ->
   find_node new_name (unit_list (add_node new_name new_long_name s))
   = Some (length (unit_list s)) /\
   deref (unit_list (add_node new_name new_long_name s)) (length (unit_list s))
   = Some (mk_node new_name new_long_name [] false)) /\
  (find_node new_name (unit_list s) <> None ->
   add_node new_name new_long_name s = s).
Proof.
  unfold add_node.
  destruct (find_node new_name (unit_list s)) as [q|] eqn:F.
  - split; [auto|]. split; [congruence|]. split; [discriminate|auto].
  - simpl unit_list. simpl find_node. rewrite String.eqb_refl.
    split; [|split; [discriminate|split; [|congruence]]].
    + intros nm p H.
      destruct (String.eqb_spec nm new_name) as [E|E]; [congruence|].
      split; [exact H|]. simpl.
      pose proof (find_node_lt _ _ _ H) as L.
      destruct (Nat.eqb_spec p (length (unit_list s))); [lia|reflexivity].
    + intros _. simpl. rewrite Nat.eqb_refl. auto.
Qed.

(** ** What the builder keeps *)

Lemma deref_In l p t : deref l p = Some t -> In t l.
Proof.
  induction l as [|x l IH]; simpl; [discriminate|].
  destruct (p =? length l); [intros H; injection H as <-; auto|auto].
Qed.

Lemma add_node_names new_name new_long_name s :
  NoDup (map name (unit_list s)) ->
  NoDup (map name (unit_list (add_node new_name new_long_name s))).
Proof.
  intros N. unfold add_node.
  destruct (find_node new_name (unit_list s)) eqn:F; [exact N|].
  simpl. constructor; [apply find_node_none, F|exact N].
Qed.

Lemma add_edge_names name1 fac12 name2 inversion s s' :
  add_edge name1 fac12 name2 inversion s = Return s' ->
  map name (unit_list s') = map name (unit_list s).
Proof.
  intros H. apply allowed_names.
  apply (add_edge_allowed_units _ _ _ _ _ _ H).
Qed.

Lemma load_names recs : forall s s',
  load recs s = Return s' ->
  NoDup (map name (unit_list s)) -> NoDup (map name (unit_list s')).
Proof.
  induction recs as [|r recs IH]; intros s s'; simpl.
  - intros H; injection H as <-. auto.
  - destruct r as [n ln|a f b i].
    + intros H N. apply (IH _ _ H). apply add_node_names, N.
    + destruct (add_edge a f b i s) as [s1| |] eqn:E; try discriminate.
      intros H N. apply (IH _ _ H).
      rewrite (add_edge_names _ _ _ _ _ _ E). exact N.
Qed.

Lemma unique_names_found l :
  NoDup (map name l) ->
  forall p t, deref l p = Some t -> find_node (name t) l = Some p.
Proof.
  induction l as [|x l IH]; simpl; [discriminate|].
  intros N p t. inversion N as [|? ? Nx Nl]; subst.
  destruct (Nat.eqb_spec p (length l)) as [->|Np].
  - intros H; injection H as <-. rewrite String.eqb_refl. reflexivity.
  - intros D. destruct (String.eqb_spec (name t) (name x)) as [E|E].
    + exfalso. apply Nx. rewrite <- E. apply in_map, (deref_In _ _ _ D).
    + apply IH; assumption.
Qed.

(** X3: in the graph [main] has read no two nodes have the same name,
    and every node is the one [find_node] returns for its name: a
    pointer and a name stand for each other. *)
Theorem loaded_names_unique recs s :
  load recs initial = Return s ->
  NoDup (map name (unit_list s)) /\
  (forall p t, deref (unit_list s) p = Some t ->
               find_node (name t) (unit_list s) = Some p) /\
  (forall nm p, find_node nm (unit_list s) = Some p ->
                exists t, deref (unit_list s) p = Some t /\ name t = nm).
Proof.
  intros H.
  assert (N : NoDup (map name (unit_list s)))
    by (apply (load_names _ _ _ H); constructor).
  split; [exact N|]. split; [apply unique_names_found, N|].
  intros nm p. apply find_node_deref.
Qed.

Lemma loaded_names_unique_witness :
  NoDup (map name (unit_list (loaded (yards ++ [DefineUnit "ft" "feet"])))) /\
  (forall p t,
      deref (unit_list (loaded (yards ++ [DefineUnit "ft" "feet"]))) p = Some t ->
      find_node (name t) (unit_list (loaded (yards ++ [DefineUnit "ft" "feet"])))
      = Some p) /\
  (forall nm p,
      find_node nm (unit_list (loaded (yards ++ [DefineUnit "ft" "feet"])))
      = Some p ->
      exists t,
        deref (unit_list (loaded (yards ++ [DefineUnit "ft" "feet"]))) p
        = Some t /\ name t = nm).
Proof.
  apply (loaded_names_unique (yards ++ [DefineUnit "ft" "feet"])).
  reflexivity.
Defined.

Lemma load_result_found recs : forall s s',
  load recs s = Return s' -> result s' = result s /\ found s' = found s.
Proof.
  induction recs as [|r recs IH]; intros s s'; simpl.
  - intros H; injection H as <-. auto.
  - destruct r as [n ln|a f b i].
    + intros H. destruct (IH _ _ H) as [R F]. rewrite R, F.
      unfold add_node. destruct (find_node n (unit_list s)); auto.
    + destruct (add_edge a f b i s) as [s1| |] eqn:E; try discriminate.
      intros H. destruct (IH _ _ H) as [R F]. rewrite R, F.
      destruct (add_edge_returns _ _ _ _ _ _ E) as (? & ? & _ & _ & _ & ->).
      auto.
Qed.

(** X4: in the graph [main] has read every relation points to a node of
    the list, so that [connect] never follows a pointer to nowhere, no
    node carries a mark, and [result] and [found] are still as the
    program started with them. *)
Theorem loaded_graph_in_order recs s :
  load recs initial = Return s ->
  (forall p e, In e (adj_at (unit_list s) p) ->
               exists t, deref (unit_list s) (to_node e) = Some t) /\
  (forall p, visited_at (unit_list s) p = false) /\
  result s = 0%float /\ found s = false.
Proof.
  intros H. destruct (load_initial_in_order _ _ H) as [W U].
  split; [|split].
  - intros p e I. apply deref_valid. apply (well_formed_adj _ _ _ W I).
  - intros p. apply unmarked_at, U.
  - apply (load_result_found _ _ _ H).
Qed.

Lemma loaded_graph_in_order_witness :
  (forall p e, In e (adj_at (unit_list (loaded photon)) p) ->
               exists t, deref (unit_list (loaded photon)) (to_node e) = Some t) /\
  (forall p, visited_at (unit_list (loaded photon)) p = false) /\
  result (loaded photon) = 0%float /\ found (loaded photon) = false.
Proof.
  apply (loaded_graph_in_order photon). reflexivity.
Defined.

(** ** Relations come in pairs *)

Lemma adj_at_nonempty l p e : In e (adj_at l p) -> p < length l.
Proof.
  unfold adj_at. destruct (deref l p) eqn:D; [|intros []].
  intros _. exact (deref_lt _ _ _ D).
Qed.

Lemma paired_add_node new_name new_long_name s :
  paired (unit_list s) ->
  paired (unit_list (add_node new_name new_long_name s)).
Proof.
  intros P. unfold add_node.
  destruct (find_node new_name (unit_list s)); [exact P|].
  simpl unit_list. intros a e. rewrite adj_at_cons. simpl adj_list.
  destruct (a =? length (unit_list s)); [intros []|].
  intros I. destruct (P a e I) as (e' & I' & Q).
  exists e'. split; [|exact Q]. rewrite adj_at_cons.
  pose proof (adj_at_nonempty _ _ _ I') as L.
  destruct (Nat.eqb_spec (to_node e) (length (unit_list s))); [lia|exact I'].
Qed.

Lemma adj_after_pushes e1 n1 e2 n2 l a e :
  n1 < length l -> n2 < length l ->
  (In e (adj_at (update (push_edge e2) n2 (update (push_edge e1) n1 l)) a)
   <-> (a = n2 /\ e = e2) \/ (a = n1 /\ e = e1) \/ In e (adj_at l a)).
Proof.
  intros L1 L2. apply Nat.ltb_lt in L1, L2.
  rewrite !adj_at_push, update_length, L1, L2, !andb_true_r.
  destruct (Nat.eqb_spec a n2) as [E2|E2];
    destruct (Nat.eqb_spec a n1) as [E1|E1]; simpl; intuition congruence.
Qed.

Lemma paired_add_edge name1 fac12 name2 inversion s s' :
  add_edge name1 fac12 name2 inversion s = Return s' ->
  paired (unit_list s) -> paired (unit_list s').
Proof.
  intros H P.
  destruct (add_edge_returns _ _ _ _ _ _ H) as (n1 & n2 & _ & F1 & F2 & ->).
  apply find_node_lt in F1, F2. simpl unit_list.
  intros a e I. apply (adj_after_pushes _ _ _ _ _ _ _ F1 F2) in I.
  destruct I as [[-> ->]|[[-> ->]|I]].
  - exists (mk_edge n2 fac12 inversion). split.
    + apply (adj_after_pushes _ _ _ _ _ _ _ F1 F2). simpl. auto.
    + unfold partner. simpl. split; [reflexivity|]. split; [reflexivity|].
      destruct inversion; simpl; auto.
  - exists (mk_edge n1 (if negb inversion then (1 / fac12)%float else fac12)
                    inversion).
    split.
    + apply (adj_after_pushes _ _ _ _ _ _ _ F1 F2). simpl. auto.
    + unfold partner. simpl. split; [reflexivity|]. split; [reflexivity|].
      destruct inversion; simpl; auto.
  - destruct (P a e I) as (e' & I' & Q). exists e'. split; [|exact Q].
    apply (adj_after_pushes _ _ _ _ _ _ _ F1 F2). auto.
Qed.

Lemma load_paired recs : forall s s',
  load recs s = Return s' -> paired (unit_list s) -> paired (unit_list s').
Proof.
  induction recs as [|r recs IH]; intros s s'; simpl.
  - intros H; injection H as <-. auto.
  - destruct r as [n ln|a f b i].
    + intros H P. apply (IH _ _ H). apply paired_add_node, P.
    + destruct (add_edge a f b i s) as [s1| |] eqn:E; try discriminate.
      intros H P. apply (IH _ _ H). apply (paired_add_edge _ _ _ _ _ _ E P).
Qed.

Lemma paired_connected l :
  paired l -> forall a b, connected l a b -> connected l b a.
Proof.
  intros P a b [p C]. revert a C.
  induction p as [|e p IH]; simpl; intros a C.
  - subst. apply connected_refl.
  - destruct C as [I C]. destruct (P a e I) as (e' & I' & <- & _).
    apply connected_extend with (to_node e); [apply IH, C|exact I'].
Qed.

(** X5: in the graph [main] has read every relation has a partner the
    other way, with the same flag and, by the flag, the same factor or
    the reciprocal one; so whenever a chain of relations leads from one
    unit to another, a chain leads back. *)
Theorem relations_come_in_pairs recs s :
  load recs initial = Return s ->
  (forall a e, In e (adj_at (unit_list s) a) ->
     exists e', In e' (adj_at (unit_list s) (to_node e)) /\
                to_node e' = a /\ inverse e' = inverse e /\
                (if inverse e then factor e' = factor e
                 else factor e' = (1 / factor e)%float \/
                      factor e = (1 / factor e')%float)) /\
  (forall a b, connected (unit_list s) a b -> connected (unit_list s) b a).
Proof.
  intros H.
  assert (P : paired (unit_list s))
    by (apply (load_paired _ _ _ H); intros a e []).
  split; [exact P|apply paired_connected, P].
Qed.

Lemma relations_come_in_pairs_witness :
  (forall a e, In e (adj_at (unit_list (loaded photon)) a) ->
     exists e', In e' (adj_at (unit_list (loaded photon)) (to_node e)) /\
                to_node e' = a /\ inverse e' = inverse e /\
                (if inverse e then factor e' = factor e
                 else factor e' = (1 / factor e)%float \/
                      factor e = (1 / factor e')%float)) /\
  (forall a b, connected (unit_list (loaded photon)) a b ->
               connected (unit_list (loaded photon)) b a).
Proof.
  apply (relations_come_in_pairs photon). reflexivity.
Defined.

(** ** What [convert] leaves behind *)

Lemma Connect_units n2 :
  (forall n1 val s s', Connect n2 n1 val s s' ->
     allowed_units s' = allowed_units s) /\
  (forall val t s s', Loop n2 val t s s' ->
     allowed_units s' = allowed_units s).
Proof.
  apply Connect_Loop_ind; intros; try congruence.
  rewrite H0. unfold allowed_units. rewrite unit_list_enter.
  apply allowed_units_update. intros t; split; reflexivity.
Qed.

(** X6: a call of [convert] that returns has changed nothing of the
    graph but marks: the names and long names of the units and their
    order, every adjacency list, and what [find_node] returns for every
    name are as before. *)
Theorem convert_leaves_graph value from_unit to_unit s r s' :
  convert value from_unit to_unit s = Return (r, s') ->
  allowed_units s' = allowed_units s /\
  length (unit_list s') = length (unit_list s) /\
  (forall p, adj_at (unit_list s') p = adj_at (unit_list s) p) /\
  (forall nm, find_node nm (unit_list s') = find_node nm (unit_list s)).
Proof.
  intros H.
  destruct (convert_returns _ _ _ _ _ _ H) as (fu & tu & _ & _ & C & _).
  pose proof (proj1 (Connect_units tu) _ _ _ _ C) as A.
  destruct (proj1 (Connect_same_graph tu) _ _ _ _ C) as [L J].
  unfold allowed_units in A. simpl unit_list in A, L, J.
  split; [exact A|]. split; [exact L|]. split; [exact J|].
  intros nm. apply find_node_same_names, allowed_names, A.
Qed.

Lemma convert_leaves_graph_witness :
  allowed_units (globals_after (convert 1 "yd" "in" (loaded yards)))
  = allowed_units (loaded yards) /\
  length (unit_list (globals_after (convert 1 "yd" "in" (loaded yards))))
  = length (unit_list (loaded yards)) /\
  (forall p,
      adj_at (unit_list (globals_after (convert 1 "yd" "in" (loaded yards)))) p
      = adj_at (unit_list (loaded yards)) p) /\
  (forall nm,
      find_node nm
        (unit_list (globals_after (convert 1 "yd" "in" (loaded yards))))
      = find_node nm (unit_list (loaded yards))).
Proof.
  apply (convert_leaves_graph 1 "yd" "in" (loaded yards) 36).
  reflexivity.
Defined.

(** X7: after a call of [convert] that returns on a graph without marks,
    the marked nodes are exactly the nodes a chain of relations connects
    to the source: the search has been through the whole of the source's
    component, also past the destination, and nowhere else. *)
Theorem convert_marks_component value from_unit to_unit fu r s s' :
  well_formed (unit_list s) = true -> unmarked (unit_list s) = true ->
  find_node from_unit (unit_list s) = Some fu ->
  convert value from_unit to_unit s = Return (r, s') ->
  forall x, visited_at (unit_list s') x = true
            <-> connected (unit_list s) fu x.
Proof.
  intros W U F H x.
  destruct (convert_returns _ _ _ _ _ _ H) as (fu' & tu & F' & _ & C & _).
  assert (fu' = fu) by congruence. subst fu'.
  split.
  - intros V. apply (proj1 (Connect_reaches tu) _ _ _ _ C x V).
    apply unmarked_at, U.
  - apply (Connect_complete _ _ _ _ _ C).
    + intros p e. apply well_formed_adj, W.
    + exact U.
    + apply (find_node_lt _ _ _ F).
Qed.

Lemma convert_marks_component_witness :
  visited_at (unit_list (globals_after (convert 2 "eV" "nm" (loaded photon)))) 3
  = true
  <-> connected (unit_list (loaded photon)) 1 3.
Proof.
  apply (convert_marks_component 2 "eV" "nm" 1 620 (loaded photon));
    reflexivity.
Defined.

Lemma agree_marked l : agree l (marked l).
Proof.
  intros p L. unfold marked. rewrite filter_In, in_seq. intuition lia.
Qed.

(** X8: whatever marks the graph carries, a value [convert] returns is
    the value accumulated from the value of the call along a chain of
    relations from the source to the destination: [convert] makes up no
    conversion. *)
Theorem convert_follows_chain value from_unit to_unit fu tu r s s' :
  well_formed (unit_list s) = true ->
  find_node from_unit (unit_list s) = Some fu ->
  find_node to_unit (unit_list s) = Some tu ->
  convert value from_unit to_unit s = Return (r, s') ->
  exists p, chain (unit_list s) p fu tu /\ r = accumulate value p.
Proof.
  intros W F T H.
  assert (C : closed_edges (unit_list s))
    by (intros p e; apply well_formed_adj, W).
  pose proof (find_node_lt _ _ _ F) as L.
  rewrite (convert_found _ _ _ _ value _ F T) in H.
  destruct (connect _ fu tu value _) as [s1|x|] eqn:E; try discriminate.
  destruct (found s1) eqn:Fd; simpl in H; [|discriminate].
  injection H as <- <-.
  pose proof (connect_search (unit_list s) tu C _ _ _ _ _
                (marked (unit_list s)) E (same_graph_refl _) L
                (agree_marked _)) as R.
  destruct (search _ (unit_list s) fu tu _) as [p|seen|]; unfold refines in R.
  - destruct R as (Ch & _ & Rs & _). exists p. auto.
  - destruct R as (_ & _ & Fd'). simpl in Fd'. congruence.
  - destruct R.
Qed.

Lemma convert_follows_chain_witness :
  exists p, chain (unit_list (loaded yards)) p 0 2 /\
            36%float = accumulate 1 p.
Proof.
  apply (convert_follows_chain 1 "yd" "in" 0 2 36 (loaded yards)
           (globals_after (convert 1 "yd" "in" (loaded yards))));
    reflexivity.
Defined.

(** X9: on a graph without marks, with both units defined, what
    [convert] does is decided by two facts: it exits on the division by
    zero exactly when the search comes to it; otherwise it returns a
    value exactly when a chain of relations connects the units, and
    exits with "Cannot convert" exactly when none does.  It has no other
    exit and does not stop for want of fuel. *)
Theorem convert_outcome value from_unit to_unit fu tu s :
  well_formed (unit_list s) = true -> unmarked (unit_list s) = true ->
  find_node from_unit (unit_list s) = Some fu ->
  find_node to_unit (unit_list s) = Some tu ->
  (convert value from_unit to_unit s = Exit DivisionByZero
   <-> meets_division value fu tu s) /\
  ((exists r s', convert value from_unit to_unit s = Return (r, s'))
   <-> ~ meets_division value fu tu s /\ connected (unit_list s) fu tu) /\
  (convert value from_unit to_unit s = Exit NoConversionPath
   <-> ~ meets_division value fu tu s /\ ~ connected (unit_list s) fu tu) /\
  (forall x, convert value from_unit to_unit s = Exit x ->
             x = DivisionByZero \/ x = NoConversionPath) /\
  convert value from_unit to_unit s <> OutOfFuel.
Proof.
  intros W U F T.
  pose proof (convert_division value _ _ _ _ _ F T) as D.
  pose proof (convert_first_path value _ _ _ _ _ W U F T) as P.
  pose proof (convert_connected value _ _ _ _ _ W U F T) as K.
  split; [exact D|]. split; [|split; [|split]].
  - split.
    + intros (r & s' & E). split.
      * intros M. apply D in M. congruence.
      * destruct P as [P|P]; [congruence|].
        destruct (first_path (unit_list s) fu tu) as [p|];
          [|congruence].
        destruct P as [Ch _]. exists p. exact Ch.
    + intros [M Cn]. destruct P as [P|P]; [exfalso; apply M, D, P|].
      destruct (first_path (unit_list s) fu tu) as [p|].
      * destruct P as (_ & s' & E). eauto.
      * exfalso. apply (K Cn P).
  - split.
    + intros E. split.
      * intros M. apply D in M. congruence.
      * intros Cn. apply (K Cn E).
    + intros [M Cn]. destruct P as [P|P]; [exfalso; apply M, D, P|].
      destruct (first_path (unit_list s) fu tu) as [p|]; [|exact P].
      exfalso. apply Cn. destruct P as [Ch _]. exists p. exact Ch.
  - intros x E. destruct P as [P|P]; [left; congruence|].
    destruct (first_path (unit_list s) fu tu) as [p|].
    + destruct P as (_ & s' & E'). congruence.
    + right. congruence.
  - apply convert_fuel_enough, W.
Qed.

Lemma convert_outcome_witness :
  (convert 0 "meV" "K" (loaded photon) = Exit DivisionByZero
   <-> meets_division 0 0 3 (loaded photon)) /\
  ((exists r s', convert 0 "meV" "K" (loaded photon) = Return (r, s'))
   <-> ~ meets_division 0 0 3 (loaded photon) /\
       connected (unit_list (loaded photon)) 0 3) /\
  (convert 0 "meV" "K" (loaded photon) = Exit NoConversionPath
   <-> ~ meets_division 0 0 3 (loaded photon) /\
       ~ connected (unit_list (loaded photon)) 0 3) /\
  (forall x, convert 0 "meV" "K" (loaded photon) = Exit x ->
             x = DivisionByZero \/ x = NoConversionPath) /\
  convert 0 "meV" "K" (loaded photon) <> OutOfFuel.
Proof.
  apply (convert_outcome 0 "meV" "K" 0 3 (loaded photon)); reflexivity.
Defined.

(** ** The depth of the recursion *)

Lemma while_adj_more_fuel k n2 :
  (forall n1 val s, connect k n1 n2 val s <> OutOfFuel ->
                    connect (S k) n1 n2 val s = connect k n1 n2 val s) ->
  forall val t s,
    while_adj (fun m v => connect k m n2 v) val t s <> OutOfFuel ->
    while_adj (fun m v => connect (S k) m n2 v) val t s
    = while_adj (fun m v => connect k m n2 v) val t s.
Proof.
  intros IH val t. induction t as [|e t IHt]; intros s; [reflexivity|].
  rewrite !while_adj_cons.
  destruct (visited_at (unit_list s) (to_node e)); [apply IHt|].
  destruct (apply_edge e val) as [v|]; [|reflexivity].
  destruct (connect k (to_node e) n2 v s) as [s1|x|] eqn:E.
  - rewrite IH, E by congruence. apply IHt.
  - rewrite IH, E by congruence. reflexivity.
  - intros N. congruence.
Qed.

Lemma connect_more_fuel k : forall n1 n2 val s,
  connect k n1 n2 val s <> OutOfFuel ->
  connect (S k) n1 n2 val s = connect k n1 n2 val s.
Proof.
  induction k as [|k IH]; intros n1 n2 val s N; [simpl in N; congruence|].
  rewrite (connect_S (S k)). rewrite connect_S in N |- *.
  apply while_adj_more_fuel; [|exact N]. intros; apply IH; assumption.
Qed.

Lemma connect_fuel_above k j n1 n2 val s :
  connect k n1 n2 val s <> OutOfFuel ->
  connect (j + k) n1 n2 val s = connect k n1 n2 val s.
Proof.
  intros N. induction j as [|j IH]; [reflexivity|].
  simpl plus. rewrite connect_more_fuel; [exact IH|congruence].
Qed.

(** X10: on every graph whose relations stay inside the list, cycles
    included, the recursion of [connect] is never deeper than the number
    of nodes without a mark after the entry, plus one: with that much
    fuel the call has an outcome, and with any more it has the same. *)
Theorem connect_depth_bounded k n1 n2 val s :
  well_formed (unit_list s) = true -> n1 < length (unit_list s) ->
  unmarked_count (unit_list (enter n1 n2 val s)) < k ->
  connect k n1 n2 val s <> OutOfFuel /\
  connect k n1 n2 val s
  = connect (S (unmarked_count (unit_list (enter n1 n2 val s)))) n1 n2 val s /\
  unmarked_count (unit_list (enter n1 n2 val s)) <= length (unit_list s).
Proof.
  intros W L U.
  assert (C : closed_edges (unit_list s))
    by (intros p e; apply well_formed_adj, W).
  assert (M : connect (S (unmarked_count (unit_list (enter n1 n2 val s))))
                      n1 n2 val s <> OutOfFuel)
    by (apply connect_enough_fuel; auto).
  assert (E : connect k n1 n2 val s
              = connect (S (unmarked_count (unit_list (enter n1 n2 val s))))
                        n1 n2 val s).
  { replace k with (k - S (unmarked_count (unit_list (enter n1 n2 val s)))
                    + S (unmarked_count (unit_list (enter n1 n2 val s))))
      by lia.
    apply connect_fuel_above, M. }
  split; [congruence|]. split; [exact E|].
  etransitivity; [apply unmarked_count_length|].
  rewrite unit_list_enter, update_length. apply Nat.le_refl.
Qed.

Lemma connect_depth_bounded_witness :
  connect 7 0 2 1 (loaded yards) <> OutOfFuel /\
  connect 7 0 2 1 (loaded yards)
  = connect (S (unmarked_count (unit_list (enter 0 2 1 (loaded yards)))))
            0 2 1 (loaded yards) /\
  unmarked_count (unit_list (enter 0 2 1 (loaded yards)))
  <= length (unit_list (loaded yards)).
Proof.
  apply (connect_depth_bounded 7 0 2 1 (loaded yards));
    [reflexivity|vm_compute; lia|vm_compute; lia].
Defined.

(** ** A relation, then a conversion *)

Lemma accumulate_one e val :
  accumulate val [e]
  = if inverse e then (factor e / val)%float else (factor e * val)%float.
Proof. reflexivity. Qed.

Lemma convert_head_relation value from_unit to_unit fu tu e t s :
  well_formed (unit_list s) = true -> unmarked (unit_list s) = true ->
  find_node from_unit (unit_list s) = Some fu ->
  find_node to_unit (unit_list s) = Some tu ->
  fu <> tu -> adj_at (unit_list s) fu = e :: t -> to_node e = tu ->
  (meets_division value fu tu s /\
   convert value from_unit to_unit s = Exit DivisionByZero) \/
  exists s', convert value from_unit to_unit s
             = Return (accumulate value [e], s').
Proof.
  intros W U F T N A E.
  destruct (convert_first_path value _ _ _ _ _ W U F T) as [D|P].
  - left. split; [apply (convert_division _ _ _ _ _ _ F T), D|exact D].
  - right.
    rewrite (first_path_head _ _ _ _ _ (find_node_lt _ _ _ F) N A E) in P.
    destruct P as (_ & s' & H). exists s'. exact H.
Qed.

(** X11: right after [add_edge] has defined a relation between two
    different units, on a graph without marks, [convert] uses that
    relation for the two units whatever relations and paths were there
    before: from the first unit to the second it returns the factor
    times the value, or the factor divided by the value for an inverted
    relation, and from the second to the first the reciprocal factor
    times the value, or again the factor divided by the value, unless
    the search that goes on comes to the division by zero. *)
Theorem define_then_convert name1 fac12 name2 inversion n1 n2 value s s' :
  well_formed (unit_list s) = true -> unmarked (unit_list s) = true ->
  find_node name1 (unit_list s) = Some n1 ->
  find_node name2 (unit_list s) = Some n2 ->
  n1 <> n2 ->
  add_edge name1 fac12 name2 inversion s = Return s' ->
  ((meets_division value n1 n2 s' /\
    convert value name1 name2 s' = Exit DivisionByZero) \/
   exists s'', convert value name1 name2 s'
               = Return (if inversion then (fac12 / value)%float
                         else (fac12 * value)%float, s'')) /\
  ((meets_division value n2 n1 s' /\
    convert value name2 name1 s' = Exit DivisionByZero) \/
   exists s'', convert value name2 name1 s'
               = Return (if inversion then (fac12 / value)%float
                         else (1 / fac12 * value)%float, s'')).
Proof.
  intros W U F1 F2 N H.
  destruct (add_edge_in_order _ _ _ _ _ _ H W U) as [W' U'].
  pose proof (add_edge_names _ _ _ _ _ _ H) as Nm.
  assert (F1' : find_node name1 (unit_list s') = Some n1)
    by (rewrite (find_node_same_names _ _ _ Nm); exact F1).
  assert (F2' : find_node name2 (unit_list s') = Some n2)
    by (rewrite (find_node_same_names _ _ _ Nm); exact F2).
  destruct (add_edge_returns _ _ _ _ _ _ H)
    as (m1 & m2 & _ & G1 & G2 & E).
  assert (m1 = n1) by congruence. assert (m2 = n2) by congruence.
  subst m1 m2.
  pose proof (find_node_lt _ _ _ F1) as L1.
  pose proof (find_node_lt _ _ _ F2) as L2.
  apply Nat.ltb_lt in L1, L2.
  assert (A1 : adj_at (unit_list s') n1
               = mk_edge n2 fac12 inversion :: adj_at (unit_list s) n1).
  { rewrite E. simpl unit_list. rewrite !adj_at_push, update_length, L1, L2.
    rewrite Nat.eqb_refl. apply Nat.eqb_neq in N. rewrite N. reflexivity. }
  assert (A2 : adj_at (unit_list s') n2
               = mk_edge n1 (if negb inversion then (1 / fac12)%float
                             else fac12) inversion
                   :: adj_at (unit_list s) n2).
  { rewrite E. simpl unit_list. rewrite !adj_at_push, update_length, L1, L2.
    rewrite Nat.eqb_refl. apply Nat.eqb_neq in N.
    rewrite (Nat.eqb_sym n2 n1), N. reflexivity. }
  split.
  - pose proof (convert_head_relation value _ _ _ _ _ _ _ W' U' F1' F2' N
                  A1 eq_refl) as R.
    rewrite accumulate_one in R. exact R.
  - pose proof (convert_head_relation value _ _ _ _ _ _ _ W' U' F2' F1'
                  (not_eq_sym N) A2 eq_refl) as R.
    rewrite accumulate_one in R. simpl in R.
    destruct inversion; exact R.
Qed.

Lemma define_then_convert_witness :
  ((meets_division 2 0 2 (globals_after_edge "yd" 36 "in" (loaded yards)) /\
    convert 2 "yd" "in" (globals_after_edge "yd" 36 "in" (loaded yards))
    = Exit DivisionByZero) \/
   exists s'',
     convert 2 "yd" "in" (globals_after_edge "yd" 36 "in" (loaded yards))
     = Return (if false then (36 / 2)%float else (36 * 2)%float, s'')) /\
  ((meets_division 2 2 0 (globals_after_edge "yd" 36 "in" (loaded yards)) /\
    convert 2 "in" "yd" (globals_after_edge "yd" 36 "in" (loaded yards))
    = Exit DivisionByZero) \/
   exists s'',
     convert 2 "in" "yd" (globals_after_edge "yd" 36 "in" (loaded yards))
     = Return (if false then (36 / 2)%float else (1 / 36 * 2)%float, s'')).
Proof.
  apply (define_then_convert "yd" 36 "in" false 0 2 2 (loaded yards));
    first [reflexivity | discriminate].
Defined.

(** X12: an exit of [add_edge] while [main] reads the definition file is
    the outcome of the run, whatever follows in the file and whether a
    conversion or the listing was asked for; and [main] exits before a
    conversion in no other way. *)
Theorem definition_error_stops_main before name1 fac12 name2 inversion after
    s x request :
  load before initial = Return s ->
  add_edge name1 fac12 name2 inversion s = Exit x ->
  main (before ++ DefineRelation name1 fac12 name2 inversion :: after) request
  = Exit x /\
  (forall recs y,
      main recs None = Exit y ->
      exists before' n1 f n2 i after' s1,
        recs = before' ++ DefineRelation n1 f n2 i :: after' /\
        load before' initial = Return s1 /\
        add_edge n1 f n2 i s1 = Exit y).
Proof.
  intros L E. split.
  - unfold main. rewrite load_app, L. simpl. rewrite E. reflexivity.
  - intros recs y. unfold main.
    destruct (load recs initial) as [s1|z|] eqn:Ld; try discriminate.
    intros H; injection H as ->. apply (load_exit _ _ _ Ld).
Qed.

Lemma definition_error_stops_main_witness :
  main (firstn 3 yards ++ DefineRelation "yd" 3 "mile" false :: skipn 3 yards)
       None
  = Exit (UnknownUnit "mile") /\
  (forall recs y,
      main recs None = Exit y ->
      exists before' n1 f n2 i after' s1,
        recs = before' ++ DefineRelation n1 f n2 i :: after' /\
        load before' initial = Return s1 /\
        add_edge n1 f n2 i s1 = Exit y).
Proof.
  apply (definition_error_stops_main (firstn 3 yards) "yd" 3 "mile" false
           (skipn 3 yards) (loaded (firstn 3 yards)));
    reflexivity.
Defined.

(** X13: in the graph [main] has read, when a conversion from one unit
    to another exits with "Cannot convert", so that no chain of
    relations connects them, a conversion the other way, of any value
    and on the same graph without marks, does not return a value
    either. *)
Theorem no_path_both_ways recs s value from_unit to_unit fu tu value' :
  load recs initial = Return s ->
  find_node from_unit (unit_list s) = Some fu ->
  find_node to_unit (unit_list s) = Some tu ->
  convert value from_unit to_unit s = Exit NoConversionPath ->
  ~ connected (unit_list s) tu fu /\
  (convert value' to_unit from_unit s = Exit NoConversionPath \/
   convert value' to_unit from_unit s = Exit DivisionByZero).
Proof.
  intros Ld F T E.
  destruct (load_initial_in_order _ _ Ld) as [W U].
  assert (P : paired (unit_list s))
    by (apply (load_paired _ _ _ Ld); intros a e []).
  assert (N : ~ connected (unit_list s) tu fu).
  { intros Cn. apply (paired_connected _ P) in Cn.
    apply (convert_connected value _ _ _ _ _ W U F T Cn E). }
  split; [exact N|].
  destruct (convert_first_path value' _ _ _ _ _ W U T F) as [D|Q];
    [right; exact D|left].
  destruct (first_path (unit_list s) tu fu) as [p|]; [|exact Q].
  exfalso. apply N. destruct Q as [Ch _]. exists p. exact Ch.
Qed.

Lemma no_path_both_ways_witness :
  ~ connected (unit_list (loaded photon)) 3 1 /\
  (convert 300 "K" "eV" (loaded photon) = Exit NoConversionPath \/
   convert 300 "K" "eV" (loaded photon) = Exit DivisionByZero).
Proof.
  apply (no_path_both_ways photon (loaded photon) 2 "eV" "K" 1 3 300);
    reflexivity.
Defined.

(** * Further properties of the reading loop *)

(** ** The lines [fgets] stores *)

Lemma fgets_lines_cons room line c file :
  fgets_lines room line (String c file)
  = if Ascii.eqb c "010"%char then
      String.append line (String c EmptyString) :: fgets_lines 255 "" file
    else
      match room with
      | 0 | 1 =>
          String.append line (String c EmptyString) :: fgets_lines 255 "" file
      | S room' =>
          fgets_lines room' (String.append line (String c EmptyString)) file
      end.
Proof. reflexivity. Qed.

Lemma fgets_lines_app file : forall room line rest,
  file <> "" -> ends_with_newline file = true ->
  fgets_lines room line (String.append file rest)
  = fgets_lines room line file ++ fgets_lines 255 "" rest.
Proof.
  induction file as [|c f IH]; intros room line rest Hne He; [congruence|].
  destruct f as [|c' f'].
  - simpl in He. simpl. rewrite He. reflexivity.
  - assert (He' : ends_with_newline (String c' f') = true) by exact He.
    assert (IH' := fun room line => IH room line rest ltac:(discriminate) He').
    change (String.append (String c (String c' f')) rest)
      with (String c (String.append (String c' f') rest)).
    rewrite (fgets_lines_cons room line c (String.append (String c' f') rest)).
    rewrite (fgets_lines_cons room line c (String c' f')).
    destruct (Ascii.eqb c "010"%char); [rewrite IH'; reflexivity|].
    destruct room as [|[|room']]; rewrite IH'; reflexivity.
Qed.





(** ** Directives *)

Lemma scan_s_stored set b input b' rest :
  scan_s set b input = Stored b' rest ->
  exists w, b' = set w b /\
            forall b0, scan_s set b0 input = Stored (set w b0) rest.
Proof.
  unfold scan_s. destruct (skip_spaces input) as [|c more]; [discriminate|].
  destruct (scan_word (String c more)) as [w r].
  destruct (32 <=? String.length w); [discriminate|].
  intros H. inversion H; subst. exists w. split; [reflexivity|].
  intros b0. reflexivity.
Qed.

Lemma scan_lf_stored scan_double b input b' rest :
  scan_lf scan_double b input = Stored b' rest ->
  exists x, b' = set_convfac x b /\
            forall b0, scan_lf scan_double b0 input
                       = Stored (set_convfac x b0) rest.
Proof.
  unfold scan_lf. destruct (skip_spaces input) as [|c more]; [discriminate|].
  destruct (scan_double (String c more)) as [[x r]|]; [|discriminate].
  intros H. inversion H; subst. exists x. split; [reflexivity|].
  intros b0. reflexivity.
Qed.

Lemma and_then_stored x f b rest :
  and_then x f = Stored b rest ->
  exists b1 rest1, x = Stored b1 rest1 /\ f b1 rest1 = Stored b rest.
Proof.
  destruct x as [b1 rest1| |]; simpl; try discriminate.
  intros H. exists b1, rest1. split; [reflexivity|exact H].
Qed.

Lemma matched_stored x b :
  matched x = Some b -> exists rest, x = Stored b rest.
Proof.
  destruct x as [b1 rest| |]; simpl; try discriminate.
  intros H. injection H as ->. exists rest. reflexivity.
Qed.

Lemma node_line line b :
  matched (scan_node line no_buffers) = Some b ->
  forall b0, exists rest1 rest,
    scan_type line b0 = Stored (set_type (type b) b0) rest1 /\
    scan_node line b0
    = Stored (set_longname (longname b)
                (set_shortname (shortname b) (set_type (type b) b0))) rest.
Proof.
  intros M. apply matched_stored in M as [rest M]. unfold scan_node in M.
  apply and_then_stored in M as (b2 & r2 & M & M3).
  apply and_then_stored in M as (b1 & r1 & M1 & M2).
  apply scan_s_stored in M1 as (w1 & -> & A1).
  apply scan_s_stored in M2 as (w2 & -> & A2).
  apply scan_s_stored in M3 as (w3 & -> & A3).
  intros b0. exists r1, rest. unfold scan_type, scan_node.
  rewrite A1. split; [reflexivity|]. simpl. rewrite A2. simpl. apply A3.
Qed.

Lemma edge_line scan_double line b :
  matched (scan_edge scan_double line no_buffers) = Some b ->
  forall b0, exists rest1 rest,
    scan_type line b0 = Stored (set_type (type b) b0) rest1 /\
    scan_edge scan_double line b0
    = Stored (set_invstr (invstr b)
                (set_to_name (to_name b)
                   (set_convfac (convfac b)
                      (set_from_name (from_name b) (set_type (type b) b0)))))
        rest.
Proof.
  intros M. apply matched_stored in M as [rest M]. unfold scan_edge in M.
  apply and_then_stored in M as (b4 & r4 & M & M5).
  apply and_then_stored in M as (b3 & r3 & M & M4).
  apply and_then_stored in M as (b2 & r2 & M & M3).
  apply and_then_stored in M as (b1 & r1 & M1 & M2).
  apply scan_s_stored in M1 as (w1 & -> & A1).
  apply scan_s_stored in M2 as (w2 & -> & A2).
  apply scan_lf_stored in M3 as (w3 & -> & A3).
  apply scan_s_stored in M4 as (w4 & -> & A4).
  apply scan_s_stored in M5 as (w5 & -> & A5).
  intros b0. exists r1, rest. unfold scan_type, scan_edge.
  rewrite A1. split; [reflexivity|]. simpl. rewrite A2. simpl.
  rewrite A3. simpl. rewrite A4. simpl. apply A5.
Qed.

(** ** One line *)

Lemma read_line_comment scan_double line r :
  parse_line scan_double line = Some None ->
  read_line scan_double line r = Goes r.
Proof.
  unfold parse_line, read_line.
  destruct (first_is_hash line); [reflexivity|].
  destruct (matched (scan_type line no_buffers)) as [b1|]; [|discriminate].
  destruct (String.eqb (type b1) "node").
  - destruct (matched (scan_node line no_buffers)); discriminate.
  - destruct (String.eqb (type b1) "edge"); [|discriminate].
    destruct (matched (scan_edge scan_double line no_buffers)) as [b|];
      [|discriminate].
    destruct (String.eqb (invstr b) "INVERT"); [discriminate|].
    destruct (String.eqb (invstr b) "NOINVERT"); discriminate.
Qed.

Lemma set_invflag_same b : set_invflag (invflag b) b = b.
Proof. destruct b; reflexivity. Qed.

Lemma read_line_parsed scan_double line rec r :
  parse_line scan_double line = Some (Some rec) ->
  exists b,
    buffers_hold rec b /\
    read_line scan_double line r
    = match define rec (graph r) with
      | Return g => Goes (mk_reader g b)
      | Exit e => Ends (GraphExit e)
      | OutOfFuel => NoFuel
      end.
Proof.
  unfold parse_line, read_line.
  destruct (first_is_hash line); [discriminate|].
  destruct (matched (scan_type line no_buffers)) as [b1|] eqn:M1;
    [|discriminate].
  apply matched_stored in M1 as [rest1 M1].
  destruct (String.eqb (type b1) "node") eqn:Tn.
  - destruct (matched (scan_node line no_buffers)) as [b|] eqn:M;
      [|discriminate].
    intros H. injection H as <-.
    destruct (node_line _ _ M no_buffers) as (r1 & r2 & S1 & _).
    rewrite S1 in M1. inversion M1; subst b1 rest1. clear M1 S1.
    destruct (node_line _ _ M (scanned r)) as (r3 & r4 & S1 & S2).
    unfold sscanf_type. rewrite S1.
    change (type (set_type (type b) no_buffers)) with (type b) in Tn.
    cbn [returned]. change (type (set_type (type b) (scanned r))) with (type b).
    rewrite Tn.
    destruct (node_line _ _ M (set_type (type b) (scanned r)))
      as (r5 & r6 & _ & S3).
    unfold sscanf_node. rewrite S3. cbn [returned].
    eexists. split; [|reflexivity].
    cbn. split; [apply String.eqb_eq, Tn|split; reflexivity].
  - destruct (String.eqb (type b1) "edge") eqn:Te; [|discriminate].
    destruct (matched (scan_edge scan_double line no_buffers)) as [b|] eqn:M;
      [|discriminate].
    intros H.
    destruct (edge_line _ _ _ M no_buffers) as (r1 & r2 & S1 & _).
    rewrite S1 in M1. inversion M1; subst b1 rest1. clear M1 S1.
    destruct (edge_line _ _ _ M (scanned r)) as (r3 & r4 & S1 & S2).
    unfold sscanf_type. rewrite S1.
    change (type (set_type (type b) no_buffers)) with (type b) in Tn, Te.
    cbn [returned]. change (type (set_type (type b) (scanned r))) with (type b).
    rewrite Tn, Te.
    destruct (edge_line _ _ _ M (set_type (type b) (scanned r)))
      as (r5 & r6 & _ & S3).
    unfold sscanf_edge. rewrite S3. cbn [returned].
    cbn [invstr set_invstr set_invflag from_name to_name convfac invflag
         set_to_name set_convfac set_from_name set_type type shortname
         longname].
    apply String.eqb_eq in Te.
    destruct (String.eqb (invstr b) "INVERT") eqn:I1.
    + injection H as <-. cbn [negb andb define].
      eexists. split; [|reflexivity].
      cbn. apply String.eqb_eq in I1. repeat split; assumption.
    + destruct (String.eqb (invstr b) "NOINVERT") eqn:I2; [|discriminate].
      injection H as <-. cbn [negb andb define].
      eexists. split; [|reflexivity].
      cbn. apply String.eqb_eq in I2. repeat split; assumption.
Qed.

(** ** The file *)

Lemma read_lines_parsed scan_double lines : forall recs r,
  parse_lines scan_double lines = Some recs ->
  match load recs (graph r) with
  | Return g => exists b, read_lines scan_double lines r = Goes (mk_reader g b)
  | Exit e => read_lines scan_double lines r = Ends (GraphExit e)
  | OutOfFuel => read_lines scan_double lines r = NoFuel
  end.
Proof.
  induction lines as [|line lines IH]; intros recs r; simpl.
  - intros H; injection H as <-. simpl. exists (scanned r).
    destruct r; reflexivity.
  - destruct (parse_line scan_double line) as [[rec|]|] eqn:P;
      [| |discriminate];
      (destruct (parse_lines scan_double lines) as [recs'|] eqn:Q;
       [|discriminate]); intros H; injection H as <-.
    + destruct (read_line_parsed _ _ _ r P) as (b & _ & ->).
      destruct rec as [n ln|a f c i]; simpl.
      * apply (IH recs' (mk_reader (add_node n ln (graph r)) b) eq_refl).
      * destruct (add_edge a f c i (graph r)) as [g|e|]; [|reflexivity..].
        apply (IH recs' (mk_reader g b) eq_refl).
    + rewrite (read_line_comment _ _ r P). apply (IH recs' r eq_refl).
Qed.

(** X15: the reading loop on the characters of a file does what [load]
    does on its records.  When every line of the file is a comment or
    holds a record ([node] with two words, [edge] with a unit, a number,
    a unit and [INVERT] or [NOINVERT], no word of 32 characters or
    more), [main] on the text gives the result of [main] on the records
    in the order of the lines: the same listing or value, the same
    exit. *)
Theorem text_as_records scan_double file recs request :
  parse_lines scan_double (fgets_lines 255 "" file) = Some recs ->
  main_text scan_double file request = of_outcome (main recs request).
Proof.
  intros P. unfold main_text, main, read_file.
  assert (H := read_lines_parsed _ _ _ (mk_reader initial no_buffers) P).
  cbn [graph] in H.
  destruct (load recs initial) as [g|e|].
  - destruct H as [b ->]. cbn [graph].
    destruct request as [[[value from_unit] to_unit]|]; [|reflexivity].
    destruct (convert value from_unit to_unit g) as [[x s]|e|]; reflexivity.
  - rewrite H. reflexivity.
  - rewrite H. reflexivity.
Qed.

Lemma text_as_records_witness :
  main_text (scan_digits None) photon_text (Some (2%float, "eV", "nm"))
  = of_outcome
      (main [DefineUnit "meV" "milli_electron_volt";
             DefineUnit "eV" "electron_volt";
             DefineUnit "nm" "nanometer";
             DefineUnit "K" "kelvin";
             DefineRelation "eV" 1024 "meV" false;
             DefineRelation "eV" 1240 "nm" true]
            (Some (2%float, "eV", "nm"))).
Proof.
  apply (text_as_records (scan_digits None) photon_text).
  vm_compute. reflexivity.
Defined.

(** ** Lines without a first word *)

Lemma hash_first_word line b b' rest :
  first_is_hash line = true ->
  scan_type line b = Stored b' rest ->
  exists w, type b' = String "#" w.
Proof.
  destruct line as [|c l]; [discriminate|].
  unfold first_is_hash.
  destruct (Ascii.eqb c "#"%char) eqn:E.
  - apply Ascii.eqb_eq in E. subst c. intros _.
    unfold scan_type, scan_s. cbn [c_string Ascii.eqb Bool.eqb skip_spaces isspace].
    cbn [scan_word isspace].
    destruct (scan_word (c_string l)) as [w r].
    destruct (32 <=? String.length (String "#" w)); [discriminate|].
    intros H. inversion H. exists w. reflexivity.
  -     destruct c as [[] [] [] [] [] [] [] []]; discriminate.
Qed.

Lemma blank_not_comment line : blank line = true -> first_is_hash line = false.
Proof.
  destruct line as [|c l]; [reflexivity|].
  destruct (first_is_hash (String c l)) eqn:F; [|reflexivity].
  unfold blank.
  destruct c as [[] [] [] [] [] [] [] []]; try discriminate F.
  discriminate.
Qed.

Lemma read_line_blank scan_double line r :
  blank line = true ->
  read_line scan_double line r
  = let b := scanned r in
    if String.eqb (type b) "node" then
      Goes (mk_reader (add_node (shortname b) (longname b) (graph r)) b)
    else if String.eqb (type b) "edge" then
      if negb (String.eqb (invstr b) "INVERT")
         && negb (String.eqb (invstr b) "NOINVERT")
      then Ends InversionFlag
      else
        let b3 := set_invflag (String.eqb (invstr b) "INVERT") b in
        match add_edge (from_name b3) (convfac b3) (to_name b3)
                       (invflag b3) (graph r) with
        | Return g => Goes (mk_reader g b3)
        | Exit e => Ends (GraphExit e)
        | OutOfFuel => NoFuel
        end
    else Ends (InvalidType (type b)).
Proof.
  intros B. unfold read_line. rewrite (blank_not_comment _ B).
  unfold blank in B.
  assert (S : forall set b, scan_s set b (c_string line) = Over b).
  { intros set b. unfold scan_s.
    destruct (skip_spaces (c_string line)); [reflexivity|discriminate]. }
  unfold sscanf_type, sscanf_node, sscanf_edge, scan_type, scan_node,
    scan_edge.
  rewrite !S. cbn [returned and_then]. rewrite !S. cbn [returned and_then].
  reflexivity.
Qed.

Lemma add_node_again n ln ln' s :
  add_node n ln' (add_node n ln s) = add_node n ln s.
Proof.
  unfold add_node at 2 3.
  destruct (find_node n (unit_list s)) eqn:F.
  - unfold add_node. rewrite F. reflexivity.
  - unfold add_node. simpl. rewrite String.eqb_refl. reflexivity.
Qed.

Lemma add_edge_again a f c i s s' :
  add_edge a f c i s = Return s' ->
  exists s'', add_edge a f c i s' = Return s''.
Proof.
  intros H. assert (N := add_edge_names _ _ _ _ _ _ H).
  unfold add_edge in *.
  destruct (f =? 0)%float; [discriminate|].
  rewrite (find_node_same_names a _ _ N), (find_node_same_names c _ _ N).
  destruct (find_node a (unit_list s)); [|discriminate].
  destruct (find_node c (unit_list s)); [|discriminate].
  eexists. reflexivity.
Qed.

(** X16: a line of white space only is not skipped: [sscanf] stores
    nothing and the loop body runs on what the line before left in the
    buffers.  After a [node] line nothing changes ([add_node] finds the
    unit defined); after an [edge] line that went through, [add_edge] is
    called with the same arguments and returns again, so the relation is
    stored a second time; with the buffers still empty (nothing but
    comments before) the run exits on an invalid type that is the empty
    word. *)
Theorem blank_line_repeats scan_double prev line rec r r1 :
  parse_line scan_double prev = Some (Some rec) ->
  read_line scan_double prev r = Goes r1 ->
  blank line = true ->
  match rec with
  | DefineUnit _ _ => read_line scan_double line r1 = Goes r1
  | DefineRelation a f c i =>
      exists g, add_edge a f c i (graph r1) = Return g /\
                read_line scan_double line r1 = Goes (mk_reader g (scanned r1))
  end /\
  read_line scan_double line (mk_reader initial no_buffers)
  = Ends (InvalidType "").
Proof.
  intros P R B. split; [|rewrite (read_line_blank _ _ _ B); reflexivity].
  destruct (read_line_parsed _ _ _ r P) as (b & H & E).
  rewrite R in E. rewrite (read_line_blank _ _ _ B).
  destruct rec as [n ln|a f c i]; cbn [define] in E.
  - injection E as ->. destruct H as (T & <- & <-).
    cbn [scanned graph]. cbv zeta. rewrite T. cbn [String.eqb Ascii.eqb Bool.eqb].
    rewrite add_node_again. reflexivity.
  - destruct (add_edge a f c i (graph r)) as [g1|e|] eqn:A; try discriminate.
    injection E as ->. destruct H as (T & <- & <- & <- & I & <-).
    cbn [scanned graph]. cbv zeta. rewrite T.
    cbn [String.eqb Ascii.eqb Bool.eqb].
    assert (Fl : String.eqb (invstr b) "INVERT" = invflag b).
    { rewrite I. destruct (invflag b); reflexivity. }
    assert (Ok : negb (String.eqb (invstr b) "INVERT")
                 && negb (String.eqb (invstr b) "NOINVERT") = false).
    { rewrite I. destruct (invflag b); reflexivity. }
    rewrite Ok, Fl, set_invflag_same.
    destruct (add_edge_again _ _ _ _ _ _ A) as [g2 A2].
    rewrite A2. exists g2. split; reflexivity.
Qed.

Lemma blank_line_repeats_witness :
  parse_line (scan_digits None) (String.append "edge eV 1240 nm INVERT" newline)
  = Some (Some (DefineRelation "eV" 1240 "nm" true)) /\
  blank newline = true /\
  (exists g,
     add_edge "eV" 1240 "nm" true (graph (reader_after (scan_digits None) photon_text))
     = Return g /\
     read_line (scan_digits None) newline
       (reader_after (scan_digits None) photon_text)
     = Goes (mk_reader g (scanned (reader_after (scan_digits None) photon_text)))) /\
  read_line (scan_digits None) newline (mk_reader initial no_buffers)
  = Ends (InvalidType "").
Proof.
  split; [vm_compute; reflexivity|]. split; [vm_compute; reflexivity|].
  apply (blank_line_repeats (scan_digits None)
           (String.append "edge eV 1240 nm INVERT" newline) newline
           (DefineRelation "eV" 1240 "nm" true)
           (reader_after (scan_digits None) photon_units_text)
           (reader_after (scan_digits None) photon_text));
    vm_compute; reflexivity.
Defined.

(** ** Lines the loop refuses *)

(** X17: the first word of a line that is neither a comment nor blank
    decides.  A first word of 32 characters or more overruns [type];
    a shorter word other than [node] and [edge] ends the run with the
    message on an invalid type, naming the word, whatever was read
    before. *)
Theorem first_word_decides scan_double line r w rest :
  first_is_hash line = false -> blank line = false ->
  scan_word (skip_spaces (c_string line)) = (w, rest) ->
  (32 <= String.length w -> read_line scan_double line r = Undefined) /\
  (String.length w < 32 -> w <> "node" -> w <> "edge" ->
   read_line scan_double line r = Ends (InvalidType w)).
Proof.
  intros H B S. unfold read_line, sscanf_type, scan_type, scan_s.
  rewrite H. unfold blank in B.
  destruct (skip_spaces (c_string line)) as [|c more]; [discriminate|].
  rewrite S. destruct (32 <=? String.length w) eqn:L.
  - split; [reflexivity|]. apply Nat.leb_le in L. lia.
  - split; [apply Nat.leb_gt in L; lia|]. intros _ N E.
    cbn [returned type set_type].
    apply String.eqb_neq in N, E. rewrite N, E. reflexivity.
Qed.

Lemma first_word_decides_witness :
  (32 <= String.length "unit" ->
   read_line (scan_digits None)
     (String.append "unit eV electron_volt" newline)
     (mk_reader initial no_buffers) = Undefined) /\
  (String.length "unit" < 32 -> "unit" <> "node" -> "unit" <> "edge" ->
   read_line (scan_digits None)
     (String.append "unit eV electron_volt" newline)
     (mk_reader initial no_buffers) = Ends (InvalidType "unit")).
Proof.
  apply (first_word_decides (scan_digits None)
           (String.append "unit eV electron_volt" newline)
           (mk_reader initial no_buffers) "unit"
           (String.append " eV electron_volt" newline));
    vm_compute; reflexivity.
Defined.

(** X18: on an [edge] line with all its fields, a flag other than
    [INVERT] and [NOINVERT] ends the run with the message on the
    inversion flag, before [add_edge] is called: whatever the factor and
    the units are, zero or unknown included.  Such a line holds no
    record. *)
Theorem flag_checked_first scan_double line b r :
  matched (scan_edge scan_double line no_buffers) = Some b ->
  type b = "edge" -> invstr b <> "INVERT" -> invstr b <> "NOINVERT" ->
  parse_line scan_double line = None /\
  read_line scan_double line r = Ends InversionFlag.
Proof.
  intros M T I1 I2.
  destruct (edge_line _ _ _ M no_buffers) as (r1 & r2 & S0 & S0').
  assert (H : first_is_hash line = false).
  { destruct (first_is_hash line) eqn:H; [|reflexivity].
    destruct (hash_first_word _ _ _ _ H S0) as [w E].
    cbn [type set_type] in E. rewrite T in E. discriminate. }
  apply String.eqb_neq in I1, I2.
  split.
  - unfold parse_line. rewrite H, S0, M. cbn [matched type set_type].
    rewrite T. cbn [String.eqb Ascii.eqb Bool.eqb]. rewrite I1, I2.
    reflexivity.
  - destruct (edge_line _ _ _ M (scanned r)) as (r3 & r4 & S1 & _).
    destruct (edge_line _ _ _ M (set_type (type b) (scanned r)))
      as (r5 & r6 & _ & S2).
    unfold read_line, sscanf_type, sscanf_edge. rewrite H, S1.
    cbn [returned type set_type]. rewrite S2. rewrite T.
    cbn [String.eqb Ascii.eqb Bool.eqb returned invstr set_invstr].
    rewrite I1, I2. reflexivity.
Qed.

Lemma flag_checked_first_witness :
  parse_line (scan_digits None) (String.append "edge meV 0 eV FALSE" newline)
  = None /\
  read_line (scan_digits None) (String.append "edge meV 0 eV FALSE" newline)
    (mk_reader initial no_buffers) = Ends InversionFlag.
Proof.
  apply (flag_checked_first (scan_digits None)
           (String.append "edge meV 0 eV FALSE" newline)
           (mk_buffers "edge" "" "" "meV" "eV" "FALSE" 0 false)
           (mk_reader initial no_buffers));
    [vm_compute; reflexivity|reflexivity|discriminate|discriminate].
Defined.

(** ** Fuel *)

Lemma add_edge_fuel a f c i s : add_edge a f c i s <> OutOfFuel.
Proof.
  unfold add_edge. destruct (f =? 0)%float; [discriminate|].
  destruct (find_node a (unit_list s)); [|discriminate].
  destruct (find_node c (unit_list s)); discriminate.
Qed.

Lemma read_line_in_order scan_double line r :
  well_formed (unit_list (graph r)) = true ->
  unmarked (unit_list (graph r)) = true ->
  match read_line scan_double line r with
  | Goes r' => well_formed (unit_list (graph r')) = true /\
               unmarked (unit_list (graph r')) = true
  | NoFuel => False
  | _ => True
  end.
Proof.
  intros W U. unfold read_line.
  destruct (first_is_hash line); [split; assumption|].
  destruct (sscanf_type line (scanned r)) as [b1|]; [|exact I].
  destruct (String.eqb (type b1) "node").
  - destruct (sscanf_node line b1) as [b2|]; [|exact I].
    cbn [graph]. apply add_node_in_order; assumption.
  - destruct (String.eqb (type b1) "edge"); [|exact I].
    destruct (sscanf_edge scan_double line b1) as [b2|]; [|exact I].
    destruct (negb (String.eqb (invstr b2) "INVERT")
              && negb (String.eqb (invstr b2) "NOINVERT")); [exact I|].
    cbv zeta.
    destruct (add_edge _ _ _ _ (graph r)) as [g|e|] eqn:A; [|exact I|].
    + cbn [graph]. apply (add_edge_in_order _ _ _ _ _ _ A W U).
    + apply (add_edge_fuel _ _ _ _ _ A).
Qed.

Lemma read_lines_in_order scan_double lines : forall r,
  well_formed (unit_list (graph r)) = true ->
  unmarked (unit_list (graph r)) = true ->
  match read_lines scan_double lines r with
  | Goes r' => well_formed (unit_list (graph r')) = true /\
               unmarked (unit_list (graph r')) = true
  | NoFuel => False
  | _ => True
  end.
Proof.
  induction lines as [|line lines IH]; intros r W U; simpl.
  - split; assumption.
  - assert (H := read_line_in_order scan_double line r W U).
    destruct (read_line scan_double line r) as [r'| | |];
      [|exact I|exact I|exact H].
    destruct H as [W' U']. apply (IH r' W' U').
Qed.

(** X19: for every definition file, every conversion of [%lf] and
    every request, the depth bound of [connect] is enough: a run of
    [main] on a text never ends for lack of fuel. *)
Theorem main_text_fuel_enough scan_double file request :
  main_text scan_double file request <> NoFuel.
Proof.
  unfold main_text, read_file.
  assert (H := read_lines_in_order scan_double (fgets_lines 255 "" file)
                 (mk_reader initial no_buffers) eq_refl eq_refl).
  destruct (read_lines scan_double (fgets_lines 255 "" file)
              (mk_reader initial no_buffers)) as [r| | |];
    [|discriminate|discriminate|destruct H].
  destruct H as [W _].
  destruct request as [[[value from_unit] to_unit]|]; [|discriminate].
  assert (C := convert_fuel_enough value from_unit to_unit (graph r) W).
  destruct (convert value from_unit to_unit (graph r)) as [[x s]|e|];
    [discriminate|discriminate|congruence].
Qed.

(** ** Long lines *)

Lemma append_String line c s :
  String.append (String.append line (String c EmptyString)) s
  = String.append line (String c s).
Proof. induction line as [|a l IH]; simpl; [reflexivity|]. rewrite IH. reflexivity. Qed.

Lemma fgets_lines_full s : forall room line rest,
  no_newline s = true -> String.length s = room -> 0 < room ->
  fgets_lines room line (String.append s rest)
  = String.append line s :: fgets_lines 255 "" rest.
Proof.
  induction s as [|c s IH]; intros room line rest N L P; simpl in L; [lia|].
  simpl in N.
  change (String.append (String c s) rest) with (String c (String.append s rest)).
  rewrite fgets_lines_cons.
  destruct (Ascii.eqb c "010"%char); [discriminate|]. simpl in N.
  destruct room as [|[|room']]; [lia| |].
  - destruct s; [reflexivity|discriminate].
  - rewrite (IH (S room') _ rest N); [|lia|lia].
    rewrite append_String. reflexivity.
Qed.

Lemma read_lines_skip scan_double line lines' lines : forall r,
  first_is_hash line = true ->
  read_lines scan_double (lines ++ line :: lines') r
  = read_lines scan_double (lines ++ lines') r.
Proof.
  intros r H. revert r.
  induction lines as [|l lines IH]; intros r; simpl.
  - unfold read_line. rewrite H. reflexivity.
  - destruct (read_line scan_double l r); [apply IH|reflexivity..].
Qed.

(** X20: [fgets] stores at most 255 characters, so a line that goes on
    after 255 characters without a newline is read in pieces: the first
    255 characters are one line of the loop and what follows them is
    read as lines of its own.  When the piece begins with the comment
    sign only the piece is skipped: what follows it in the comment is
    read like any other line. *)
Theorem long_line_split scan_double file s rest r :
  ends_with_newline file = true -> no_newline s = true ->
  String.length s = 255 ->
  fgets_lines 255 "" (String.append file (String.append s rest))
  = fgets_lines 255 "" file ++ s :: fgets_lines 255 "" rest /\
  (first_is_hash s = true ->
   read_lines scan_double
     (fgets_lines 255 "" (String.append file (String.append s rest))) r
   = read_lines scan_double
       (fgets_lines 255 "" file ++ fgets_lines 255 "" rest) r).
Proof.
  intros E N L.
  assert (A : fgets_lines 255 "" (String.append file (String.append s rest))
              = fgets_lines 255 "" file ++ s :: fgets_lines 255 "" rest).
  { destruct file as [|c f].
    - simpl. apply (fgets_lines_full s 255 "" rest N L). lia.
    - rewrite fgets_lines_app; [|discriminate|exact E].
      rewrite (fgets_lines_full s 255 "" rest N L); [reflexivity|lia]. }
  split; [exact A|].
  intros H. rewrite A. apply read_lines_skip, H.
Qed.

Lemma long_line_split_witness :
  fgets_lines 255 ""
    (String.append photon_text
       (String.append (String.concat EmptyString (repeat "#" 255))
                      (String.append "unit" newline)))
  = fgets_lines 255 "" photon_text
    ++ String.concat EmptyString (repeat "#" 255)
    :: fgets_lines 255 "" (String.append "unit" newline) /\
  (first_is_hash (String.concat EmptyString (repeat "#" 255)) = true ->
   read_lines (scan_digits None)
     (fgets_lines 255 ""
        (String.append photon_text
           (String.append (String.concat EmptyString (repeat "#" 255))
                          (String.append "unit" newline))))
     (mk_reader initial no_buffers)
   = read_lines (scan_digits None)
       (fgets_lines 255 "" photon_text
        ++ fgets_lines 255 "" (String.append "unit" newline))
       (mk_reader initial no_buffers)).
Proof.
  apply (long_line_split (scan_digits None) photon_text
           (String.concat EmptyString (repeat "#" 255))
           (String.append "unit" newline) (mk_reader initial no_buffers));
    vm_compute; reflexivity.
Defined.

Example long_comment_exits :
  main_text (scan_digits None)
    (String.append photon_text
       (String.append (String.concat EmptyString (repeat "#" 255))
                      (String.append "unit" newline))) None
  = Ends (InvalidType "unit").
Proof. vm_compute. reflexivity. Qed.
